(** * Route planning over a road network

    A Rocq model of the graph engine ([Graph.h] and the implementation of
    [Graph] that follows the menu code in [Menu.cpp]), of the three menu
    entries and of [FileManager.cpp] (the loaders, the reader of requests
    and the output writer), with the properties of the specification proved
    or refuted on it, and further properties of the code after them.

    - A [Location*] is an index into the graph's [locations] vector, a
      [Road*] is the (immutable) road it points to.
    - [int] is a 32-bit signed integer, kept as a [Z] with the wrap-around
      of additions and subtractions written out ([wrap]).  Signed overflow
      has no defined behaviour in C++; the theorems that depend on sums of
      costs assume costs for which no addition leaves the range of [int].
    - [Location::distance] is declared [double] but only ever holds values of
      type [int] (INF, 0 and [newDist]); all of them are exactly
      representable, so the field is kept as a [Z].
    - [std::unordered_set] is a [gset]; the [blockedSegments] reference
      parameter of [dijkstra] is threaded through as state, and so is the
      transient [distance]/[parent] state stored inside the locations.
    - Loops that the C++ type system does not bound take a [fuel] argument;
      termination is proved separately.
    - A file is the text it holds ([None] when it cannot be opened), an
      input stream the text not yet read and its [good()] flag.  An
      exception that nothing catches ([std::stoi]) ends the run like
      undefined behaviour does: with no result. *)

From Stdlib Require Import ZArith Lia Ascii String Sorted.
From stdpp Require Import gmap strings list pretty.

Local Open Scope Z_scope.

(** ** Machine integers *)

Definition INF : Z := 2147483647.

Definition wrap (z : Z) : Z := (z + 2147483648) `mod` 4294967296 - 2147483648.

(** ** Graph.h: roads, locations, graph *)

Record Road := mkRoad {
  getOrigin : nat;
  getDestination : nat;
  getDrivingTime : Z;
  getWalkingTime : Z
}.

Record Location := mkLocation {
  getId : Z;
  getCode : string;
  HasParking : bool;
  getAdj : list Road;
  getParent : option Road;
  getDistance : Z
}.

Definition setParent (p : option Road) (l : Location) : Location :=
  mkLocation (getId l) (getCode l) (HasParking l) (getAdj l) p (getDistance l).

Definition setDistance (d : Z) (l : Location) : Location :=
  mkLocation (getId l) (getCode l) (HasParking l) (getAdj l) (getParent l) d.

Definition addRoadTo (r : Road) (l : Location) : Location :=
  mkLocation (getId l) (getCode l) (HasParking l) (getAdj l ++ [r])
             (getParent l) (getDistance l).

(** The graph is its [locations] vector. *)
Abbreviation Graph := (list Location).

Record Suggestion := mkSuggestion {
  drivePath : list Z;
  walkPath : list Z;
  parkingNode : Z;
  totalTime : Z;
  walkingTime : Z;
  exceedWalkingBy : Z
}.

Definition addLocation (g : Graph) (i : Z) (c : string) (p : bool) : Graph :=
  g ++ [mkLocation i c p [] None 0].

Definition findLocation (g : Graph) (i : Z) : option (nat * Location) :=
  list_find (λ l, getId l = i) g.

Definition findLocationByCode (g : Graph) (c : string) : option (nat * Location) :=
  list_find (λ l, getCode l = c) g.

(** [Graph::addRoad]: [from] and [to] are possibly null pointers. *)
Definition addRoad (g : Graph) (from to : option nat) (drivingTime walkingTime : Z)
  : Graph :=
  match from, to with
  | Some f, Some t =>
      let g1 := alter (addRoadTo (mkRoad f t drivingTime walkingTime)) f g in
      alter (addRoadTo (mkRoad t f drivingTime walkingTime)) t g1
  | _, _ => g
  end.

(** ** The priority queue

    [std::priority_queue<pair<int,int>, vector<...>, greater<>>]: [top] is
    the least pair in lexicographic order.  Two pairs that compare equal are
    the same pair, so a list kept in ascending order behaves like the heap. *)

Definition pair_le (a b : Z * Z) : bool :=
  (a.1 <? b.1) || ((a.1 =? b.1) && (a.2 <=? b.2)).

Fixpoint pq_emplace (x : Z * Z) (pq : list (Z * Z)) : list (Z * Z) :=
  match pq with
  | [] => [x]
  | y :: rest => if pair_le x y then x :: pq else y :: pq_emplace x rest
  end.

(** ** Graph::dijkstra *)

Definition edgeWeightOf (isDriving : bool) (road : Road) : Z :=
  if isDriving then getDrivingTime road else getWalkingTime road.

(** The initialisation loop over [getLocations()]. *)
Definition init_locations (g : Graph) : Graph :=
  (λ loc, setParent None (setDistance INF loc)) <$> g.

(** The [for] loop over the adjacency list of the popped location. *)
Fixpoint relax_roads (isDriving : bool) (blockedSegments : gset (Z * Z))
    (currentDist currentNodeId : Z) (roads : list Road)
    (g : Graph) (pq : list (Z * Z)) : option (Graph * list (Z * Z)) :=
  match roads with
  | [] => Some (g, pq)
  | road :: rest =>
      let edgeWeight := edgeWeightOf isDriving road in
      if decide (edgeWeight = INF)
      then relax_roads isDriving blockedSegments currentDist currentNodeId rest g pq
      else
        match g !! getDestination road with
        | None => None
        | Some dst =>
            if decide ((currentNodeId, getId dst) ∈ blockedSegments)
            then relax_roads isDriving blockedSegments currentDist currentNodeId rest g pq
            else
              let newDist := wrap (currentDist + edgeWeight) in
              if decide (newDist < getDistance dst)
              then
                relax_roads isDriving blockedSegments currentDist currentNodeId rest
                  (<[getDestination road :=
                       setParent (Some road) (setDistance newDist dst)]> g)
                  (pq_emplace (newDist, getId dst) pq)
              else relax_roads isDriving blockedSegments currentDist currentNodeId rest g pq
        end
  end.

(** The [while (!pq.empty())] loop. *)
Fixpoint search_loop (fuel : nat) (isDriving : bool) (blockedNodes : gset Z)
    (blockedSegments : gset (Z * Z)) (g : Graph) (pq : list (Z * Z))
  : option Graph :=
  match pq with
  | [] => Some g
  | (currentDist, currentNodeId) :: pq' =>
      match fuel with
      | O => None
      | S fuel' =>
          match findLocation g currentNodeId with
          | None => None
          | Some (_, currentNode) =>
              if decide (currentDist > getDistance currentNode)
              then search_loop fuel' isDriving blockedNodes blockedSegments g pq'
              else if decide (currentNodeId ∈ blockedNodes)
              then search_loop fuel' isDriving blockedNodes blockedSegments g pq'
              else
                match relax_roads isDriving blockedSegments currentDist
                        currentNodeId (getAdj currentNode) g pq' with
                | None => None
                | Some (g', pq'') =>
                    search_loop fuel' isDriving blockedNodes blockedSegments g' pq''
                end
          end
      end
  end.

(** The path reconstruction loop; [path] grows by [push_back]. *)
Fixpoint reconstruct (fuel : nat) (g : Graph) (sourceId : Z) (destination : nat)
    (blockedSegments : gset (Z * Z)) (path : list Z)
  : option (list Z * gset (Z * Z)) :=
  match g !! destination with
  | None => None
  | Some dst =>
      match getParent dst with
      | None => Some (path, blockedSegments)
      | Some road =>
          if decide (getId dst = sourceId) then Some (path, blockedSegments)
          else
            match fuel with
            | O => None
            | S fuel' =>
                match g !! getOrigin road, g !! getDestination road with
                | Some o, Some d =>
                    reconstruct fuel' g sourceId (getOrigin road)
                      ({[ (getId o, getId d) ]} ∪ blockedSegments)
                      (path ++ [getId o])
                | _, _ => None
                end
            end
      end
  end.

(** The result of one call: the returned pair, the caller's
    [blockedSegments] after the call and the graph with the transient state
    the call leaves behind. *)
Record DijkstraResult := mkResult {
  res_path : list Z;
  res_cost : Z;
  res_blockedSegments : gset (Z * Z);
  res_graph : Graph
}.

Definition dijkstra (fuel : nat) (g : Graph) (sourceId destinationId : Z)
    (isDriving : bool) (blockedNodes : gset Z) (blockedSegments : gset (Z * Z))
  : option DijkstraResult :=
  let g0 := init_locations g in
  match findLocation g0 sourceId with
  | None => None
  | Some (si, source) =>
      let g1 := <[si := setDistance 0 source]> g0 in
      let pq := pq_emplace (0, sourceId) [] in
      match search_loop fuel isDriving blockedNodes blockedSegments g1 pq with
      | None => None
      | Some g2 =>
          match findLocation g2 destinationId with
          | None => None
          | Some (di, destination) =>
              let dist := getDistance destination in
              if decide (dist = INF) then Some (mkResult [] 0 blockedSegments g2)
              else
                match reconstruct fuel g2 sourceId di blockedSegments
                        [getId destination] with
                | None => None
                | Some (path, blockedSegments') =>
                    Some (mkResult (reverse path) dist blockedSegments' g2)
                end
          end
      end
  end.

(** ** Graph::EnvironmentallyFriendlyRoute *)

(** The locals of the function, together with the two objects it works on
    by reference: the graph and the caller's [avoidSegments]. *)
Record EcoState := mkEco {
  eco_graph : Graph;
  eco_avoidSegments : gset (Z * Z);
  bestTotalTime : Z;
  bestWalkingTime : Z;
  bestDrive : list Z;
  bestWalk : list Z;
  bestParking : Z;
  suggestions : list Suggestion
}.

Definition eco_with_graph (g : Graph) (st : EcoState) : EcoState :=
  mkEco g (eco_avoidSegments st) (bestTotalTime st) (bestWalkingTime st)
        (bestDrive st) (bestWalk st) (bestParking st) (suggestions st).

Definition eco_with_best (total walk : Z) (drive walkp : list Z) (parking : Z)
    (st : EcoState) : EcoState :=
  mkEco (eco_graph st) (eco_avoidSegments st) total walk drive walkp parking
        (suggestions st).

Definition eco_push_suggestion (s : Suggestion) (st : EcoState) : EcoState :=
  mkEco (eco_graph st) (eco_avoidSegments st) (bestTotalTime st)
        (bestWalkingTime st) (bestDrive st) (bestWalk st) (bestParking st)
        (suggestions st ++ [s]).

(** One iteration of [for (auto* parkingNode : locations)]. *)
Definition eco_step (fuel : nat) (sourceId destId maxWalkingTime : Z)
    (avoidNodes : gset Z) (parkingNode : Location) (st : EcoState)
  : option EcoState :=
  if negb (HasParking parkingNode) || bool_decide (getId parkingNode = sourceId)
     || bool_decide (getId parkingNode = destId)
  then Some st
  else
    let tmpSegments := eco_avoidSegments st in
    match dijkstra fuel (eco_graph st) sourceId (getId parkingNode) true
            avoidNodes tmpSegments with
    | None => None
    | Some driveResult =>
        let st1 := eco_with_graph (res_graph driveResult) st in
        let tmpSegments1 := res_blockedSegments driveResult in
        match res_path driveResult with
        | [] => Some st1
        | _ :: _ =>
            match dijkstra fuel (eco_graph st1) (getId parkingNode) destId false
                    avoidNodes tmpSegments1 with
            | None => None
            | Some walkResult =>
                let st2 := eco_with_graph (res_graph walkResult) st1 in
                match res_path walkResult with
                | [] => Some st2
                | _ :: _ =>
                    let totalTime := wrap (res_cost driveResult + res_cost walkResult) in
                    let exceedWalk :=
                      Z.max 0 (wrap (res_cost walkResult - maxWalkingTime)) in
                    if decide (exceedWalk = 0)
                    then
                      if decide (totalTime < bestTotalTime st2
                                 ∨ (totalTime = bestTotalTime st2
                                    ∧ res_cost walkResult < bestWalkingTime st2))
                      then Some (eco_with_best totalTime (res_cost walkResult)
                                   (res_path driveResult) (res_path walkResult)
                                   (getId parkingNode) st2)
                      else Some st2
                    else
                      Some (eco_push_suggestion
                              (mkSuggestion (res_path driveResult)
                                 (res_path walkResult) (getId parkingNode)
                                 totalTime (res_cost walkResult) exceedWalk) st2)
                end
            end
        end
    end.

Fixpoint eco_loop (fuel : nat) (sourceId destId maxWalkingTime : Z)
    (avoidNodes : gset Z) (parkingNodes : list Location) (st : EcoState)
  : option EcoState :=
  match parkingNodes with
  | [] => Some st
  | parkingNode :: rest =>
      match eco_step fuel sourceId destId maxWalkingTime avoidNodes parkingNode st with
      | None => None
      | Some st' => eco_loop fuel sourceId destId maxWalkingTime avoidNodes rest st'
      end
  end.

(** [std::sort] with the comparator [a.totalTime < b.totalTime].  The order
    of suggestions with equal [totalTime] is not fixed by [std::sort]; the
    model keeps it as it was. *)
Fixpoint insert_suggestion (s : Suggestion) (l : list Suggestion) : list Suggestion :=
  match l with
  | [] => [s]
  | t :: rest =>
      if decide (totalTime t < totalTime s) then t :: insert_suggestion s rest
      else s :: l
  end.

Definition sort_suggestions (l : list Suggestion) : list Suggestion :=
  foldr insert_suggestion [] l.

Definition eco_with_suggestions (l : list Suggestion) (st : EcoState) : EcoState :=
  mkEco (eco_graph st) (eco_avoidSegments st) (bestTotalTime st)
        (bestWalkingTime st) (bestDrive st) (bestWalk st) (bestParking st) l.

(** The returned tuple is read off the final state: [bestDrive], [bestWalk],
    [bestParking], [bestTotalTime], [bestWalkingTime], [suggestions]. *)
Definition EnvironmentallyFriendlyRoute (fuel : nat) (g : Graph)
    (sourceId destId maxWalkingTime : Z) (avoidNodes : gset Z)
    (avoidSegments : gset (Z * Z)) : option EcoState :=
  let st0 := mkEco g avoidSegments INF INF [] [] (-1) [] in
  match eco_loop fuel sourceId destId maxWalkingTime avoidNodes g st0 with
  | None => None
  | Some st =>
      Some (if decide (suggestions st = []) then st
            else eco_with_suggestions (sort_suggestions (suggestions st)) st)
  end.

(** ** FileManager.h / FileManager.cpp: the request and the output file *)

Record Input := mkInput {
  in_sourceId : Z;
  in_destId : Z;
  in_avoidNodes : gset Z;
  in_avoidSegments : gset (Z * Z);
  in_maxWalkingTime : Z;
  in_includeNodeId : Z;
  in_TypeOfInput : Z
}.

Record Output := mkOutput {
  out_sourceId : Z;
  out_destId : Z;
  out_bestPath : list Z * Z;
  out_altPath : list Z * Z;
  out_parkingNode : Z;
  out_totalTime : Z;
  out_TypeOfInput : Z;
  out_hasSuggestions : bool;
  out_suggestions : list Suggestion;
  out_maxWalkingTime : Z
}.

Definition newline : string := String "010"%char EmptyString.

(** [for (i = 0; i < v.size(); ++i) { file << v[i]; if (i < v.size() - 1) file << ","; }] *)
Fixpoint write_ids (v : list Z) : string :=
  match v with
  | [] => EmptyString
  | [x] => pretty x
  | x :: rest => pretty x +:+ "," +:+ write_ids rest
  end.

Definition write_route (label : string) (p : list Z * Z) : string :=
  label +:+
  match p.1 with
  | [] => "none" +:+ newline
  | _ :: _ => write_ids p.1 +:+ " (" +:+ pretty p.2 +:+ " min)" +:+ newline
  end.

(** The body of [for (size_t i = 0; i < 2; i++)] in the suggestions case,
    for one value of [i].  [output.suggestions[i]] is an unchecked
    [std::vector::operator[]]: reading past the end has no defined behaviour
    and is reported as [None]. *)
Definition write_suggestion (suggestions : list Suggestion) (i : nat) : option string :=
  match suggestions !! i with
  | None => None
  | Some suggestion =>
      Some ("DrivingRoute" +:+ pretty (S i) +:+ ":" +:+
            write_ids (drivePath suggestion) +:+
            " (" +:+ pretty (wrap (totalTime suggestion - walkingTime suggestion))
                 +:+ " min)" +:+ newline +:+
            "ParkingNode" +:+ pretty (S i) +:+ ":" +:+
            pretty (parkingNode suggestion) +:+ " " +:+ newline +:+
            "WalkingRoute1:" +:+ write_ids (walkPath suggestion) +:+
            " (" +:+ pretty (walkingTime suggestion) +:+ " min)" +:+
            "(Exceeds by " +:+ pretty (exceedWalkingBy suggestion) +:+ " min)" +:+ newline +:+
            "TotalTime" +:+ pretty (S i) +:+ ":" +:+
            pretty (totalTime suggestion) +:+ newline)
  end.

(** The indices [0 <= i < bound] visited by a counting [for] loop. *)
Fixpoint write_suggestions (suggestions : list Suggestion) (i : nat) (count : nat)
  : option string :=
  match count with
  | O => Some EmptyString
  | S count' =>
      match write_suggestion suggestions i with
      | None => None
      | Some s =>
          match write_suggestions suggestions (S i) count' with
          | None => None
          | Some rest => Some (s +:+ rest)
          end
      end
  end.

(** [FileManager::writeOutputFile], for a file that could be opened: the
    text written to it, or [None] when the function reads outside
    [output.suggestions].  The totals that the suggestions case also prints
    to [cout] are left out. *)
Definition writeOutputFile (output : Output) : option string :=
  let header :=
    "Source:" +:+ pretty (out_sourceId output) +:+ newline +:+
    "Destination:" +:+ pretty (out_destId output) +:+ newline in
  let normal :=
    if decide (out_TypeOfInput output = 0)
    then write_route "BestDrivingRoute:" (out_bestPath output) +:+
         write_route "AlternativeRoute:" (out_altPath output)
    else EmptyString in
  let restricted :=
    if decide (out_TypeOfInput output = 1)
    then write_route "RestrictedDrivingRoute:" (out_bestPath output)
    else EmptyString in
  if decide (out_TypeOfInput output = 2)
  then
    if bool_decide ((out_bestPath output).1 = []) &&
       bool_decide ((out_altPath output).1 = []) &&
       bool_decide (out_parkingNode output = -1) &&
       negb (out_hasSuggestions output)
    then
      Some (header +:+ normal +:+ restricted +:+
            "DrivingRoute:none" +:+ newline +:+ "ParkingNode:none" +:+ newline +:+
            "WalkingRoute:none" +:+ newline +:+ "TotalTime:none" +:+ newline +:+
            "Message:No possible route with max walking time of " +:+
            pretty (out_maxWalkingTime output) +:+ " minutes." +:+ newline)
    else if negb (out_hasSuggestions output)
    then
      Some (header +:+ normal +:+ restricted +:+
            write_route "DrivingRoute:" (out_bestPath output) +:+
            "ParkingNode:" +:+ pretty (out_parkingNode output) +:+ newline +:+
            write_route "WalkingRoute:" (out_altPath output) +:+
            "TotalTime:" +:+ pretty (out_totalTime output) +:+ newline)
    else
      match write_suggestions (out_suggestions output) 0 2 with
      | None => None
      | Some body => Some (header +:+ normal +:+ restricted +:+ body)
      end
  else Some (header +:+ normal +:+ restricted).

(** ** Menu.cpp: planEnvironmentallyFriendlyRoute

    The [Output] handed to [writeOutputFile], for a request that was read
    into [input]; [None] when the function returns before writing. *)
Definition eco_output (input : Input) (st : EcoState) : option Output :=
  if bool_decide (bestDrive st ≠ []) && bool_decide (bestWalk st ≠ [])
     && bool_decide (bestParking st ≠ -1)
  then
    Some (mkOutput (in_sourceId input) (in_destId input)
            (bestDrive st, wrap (bestTotalTime st - bestWalkingTime st))
            (bestWalk st, bestWalkingTime st)
            (bestParking st) (bestTotalTime st) 2 false [] (in_maxWalkingTime input))
  else
    match suggestions st with
    | [] => None
    | s0 :: _ =>
        Some (mkOutput (in_sourceId input) (in_destId input)
                (drivePath s0, wrap (totalTime s0 - walkingTime s0))
                (walkPath s0, walkingTime s0)
                (parkingNode s0) (totalTime s0) 2 true (suggestions st)
                (in_maxWalkingTime input))
    end.

(** The outcome of the menu entry: [None] if the run has no defined
    behaviour or does not return, [Some None] if it returns without writing,
    [Some (Some text)] if [output.txt] receives [text]. *)
Definition planEnvironmentallyFriendlyRoute (fuel : nat) (RoadMap : Graph)
    (input : Input) : option (option string) :=
  if bool_decide (in_sourceId input = -1) || bool_decide (in_destId input = -1)
     || bool_decide (in_maxWalkingTime input = -1)
  then Some None
  else
    match EnvironmentallyFriendlyRoute fuel RoadMap (in_sourceId input)
            (in_destId input) (in_maxWalkingTime input) (in_avoidNodes input)
            (in_avoidSegments input) with
    | None => None
    | Some st =>
        match eco_output input st with
        | None => Some None
        | Some output =>
            match writeOutputFile output with
            | None => None
            | Some text => Some (Some text)
            end
        end
    end.

(** ** Menu.cpp: planNormalRoute and planRestrictedRoute

    Both take the request that [readInputFile] returned.  The outcome is as
    for [planEnvironmentallyFriendlyRoute].  [Output output;] leaves the
    members [parkingNode] and [totalTime] without a value; [uninit] stands
    for whatever they hold. *)

Definition planNormalRoute_output (fuel : nat) (RoadMap : Graph) (input : Input)
    (uninit : Z) : option (option Output) :=
  if bool_decide (in_sourceId input = -1) || bool_decide (in_destId input = -1)
  then Some None
  else
    match findLocation RoadMap (in_sourceId input),
          findLocation RoadMap (in_destId input) with
    | Some _, Some _ =>
        match dijkstra fuel RoadMap (in_sourceId input) (in_destId input) true
                (in_avoidNodes input) (in_avoidSegments input) with
        | None => None
        | Some best =>
            if decide (1 < length (res_path best))%nat
            then
              match dijkstra fuel (res_graph best) (in_sourceId input)
                      (in_destId input) true (in_avoidNodes input)
                      (res_blockedSegments best) with
              | None => None
              | Some alt =>
                  Some (Some (mkOutput (in_sourceId input) (in_destId input)
                                (res_path best, res_cost best)
                                (res_path alt, res_cost alt)
                                uninit uninit 0 false [] (-1)))
              end
            else
              Some (Some (mkOutput (in_sourceId input) (in_destId input)
                            (res_path best, res_cost best) ([], 0)
                            uninit uninit 0 false [] (-1)))
        end
    | _, _ => Some None
    end.

Definition planNormalRoute (fuel : nat) (RoadMap : Graph) (input : Input)
    (uninit : Z) : option (option string) :=
  match planNormalRoute_output fuel RoadMap input uninit with
  | None => None
  | Some None => Some None
  | Some (Some output) =>
      match writeOutputFile output with
      | None => None
      | Some text => Some (Some text)
      end
  end.

Definition planRestrictedRoute_output (fuel : nat) (RoadMap : Graph)
    (input : Input) (uninit : Z) : option (option Output) :=
  let output_with bestPath :=
    mkOutput (in_sourceId input) (in_destId input) bestPath ([], 0)
      uninit uninit 1 false [] (-1) in
  if bool_decide (in_sourceId input = -1) || bool_decide (in_destId input = -1)
  then Some None
  else
    match findLocation RoadMap (in_sourceId input),
          findLocation RoadMap (in_destId input) with
    | Some _, Some _ =>
        if decide (in_includeNodeId input ≠ -1)
        then
          match dijkstra fuel RoadMap (in_sourceId input)
                  (in_includeNodeId input) true (in_avoidNodes input)
                  (in_avoidSegments input) with
          | None => None
          | Some firstHalf =>
              match res_path firstHalf with
              | [] => Some (Some (output_with ([], 0)))
              | _ :: _ =>
                  match dijkstra fuel (res_graph firstHalf)
                          (in_includeNodeId input) (in_destId input) true
                          (in_avoidNodes input)
                          (res_blockedSegments firstHalf) with
                  | None => None
                  | Some secondHalf =>
                      match res_path secondHalf with
                      | [] => Some (Some (output_with ([], 0)))
                      | _ :: _ =>
                          let fullPath :=
                            removelast (res_path firstHalf)
                            ++ res_path secondHalf in
                          Some (Some (output_with
                                        (fullPath,
                                         wrap (res_cost firstHalf
                                               + res_cost secondHalf))))
                      end
                  end
              end
          end
        else
          match dijkstra fuel RoadMap (in_sourceId input) (in_destId input) true
                  (in_avoidNodes input) (in_avoidSegments input) with
          | None => None
          | Some best =>
              Some (Some (output_with (res_path best, res_cost best)))
          end
    | _, _ => Some None
    end.

Definition planRestrictedRoute (fuel : nat) (RoadMap : Graph) (input : Input)
    (uninit : Z) : option (option string) :=
  match planRestrictedRoute_output fuel RoadMap input uninit with
  | None => None
  | Some None => Some None
  | Some (Some output) =>
      match writeOutputFile output with
      | None => None
      | Some text => Some (Some text)
      end
  end.

(** ** The standard library as FileManager.cpp uses it *)

(** *** std::stoi

    [std::stoi(str)] skips leading white space, reads an optional sign and
    the longest run of decimal digits, and ignores what follows.  It throws
    [std::invalid_argument] when there is no digit and [std::out_of_range]
    when the value does not fit an [int]; nothing in the program catches
    either, so the program is terminated: [None]. *)

Definition is_space (c : ascii) : bool :=
  bool_decide (c ∈ [" "; "009"; "010"; "011"; "012"; "013"]%char).

Definition digit_of (c : ascii) : option Z :=
  let n := Z.of_nat (nat_of_ascii c) in
  if decide (48 ≤ n ≤ 57) then Some (n - 48) else None.

Fixpoint skip_space (s : string) : string :=
  match s with
  | String c s' => if is_space c then skip_space s' else s
  | EmptyString => s
  end.

Fixpoint read_digits (s : string) (acc : Z) : Z :=
  match s with
  | String c s' =>
      match digit_of c with
      | Some d => read_digits s' (acc * 10 + d)
      | None => acc
      end
  | EmptyString => acc
  end.

Definition read_number (s : string) : option Z :=
  match s with
  | String c _ => if digit_of c then Some (read_digits s 0) else None
  | EmptyString => None
  end.

(** The optional sign: whether it is a minus, and what follows it. *)
Definition read_sign (s : string) : bool * string :=
  match s with
  | String c s' =>
      if decide (c = "-"%char) then (true, s')
      else if decide (c = "+"%char) then (false, s')
      else (false, s)
  | EmptyString => (false, s)
  end.

Definition stoi (str : string) : option Z :=
  let '(negative, s) := read_sign (skip_space str) in
  match read_number s with
  | None => None
  | Some n =>
      let v := if negative : bool then - n else n in
      if decide (-2147483648 ≤ v ≤ 2147483647) then Some v else None
  end.

(** *** std::string *)

(** [s.find(c, pos)]; [None] is [npos]. *)
Fixpoint find_from (c : ascii) (pos : nat) (s : string) : option nat :=
  match s with
  | EmptyString => None
  | String a s' =>
      match pos with
      | O => if decide (a = c) then Some O else S <$> find_from c O s'
      | S pos' => S <$> find_from c pos' s'
      end
  end.

(** [s.substr(pos)] for [pos <= s.size()]. *)
Fixpoint substr_from (pos : nat) (s : string) : string :=
  match pos, s with
  | O, _ => s
  | S pos', String _ s' => substr_from pos' s'
  | S _, EmptyString => s
  end.

(** [s.substr(pos, len)] for [pos <= s.size()]. *)
Definition substr (pos len : nat) (s : string) : string := substring pos len s.

(** [line.substr(line.find(':') + 1)]: when there is no colon, [npos + 1]
    wraps around to 0 and the whole line is taken. *)
Definition after_colon (line : string) : string :=
  match find_from ":" 0 line with
  | Some i => substr_from (S i) line
  | None => line
  end.

(** [line.find(label) == 0 && line.length() > label.length()]: the line
    begins with [label] and goes on after it. *)
Definition has_label (label line : string) : bool :=
  String.prefix label line && bool_decide (String.length label < String.length line)%nat.

(** *** Input streams ([ifstream], [stringstream])

    A stream is the characters not yet read and whether it is still
    [good()]. *)
Record istream := mkStream { st_buf : string; st_good : bool }.

(** The characters before the first [delim], and what follows that [delim]
    if there is one. *)
Fixpoint read_until (delim : ascii) (s : string) : string * option string :=
  match s with
  | EmptyString => (EmptyString, None)
  | String a s' =>
      if decide (a = delim) then (EmptyString, Some s')
      else let '(x, rest) := read_until delim s' in (String a x, rest)
  end.

(** [getline(in, str, delim)]: the stream and [str] after the call, and
    whether the stream then converts to [true].  On a stream that is not
    [good()] the call fails and leaves [str] alone.  Otherwise [str] is
    erased and filled up to the delimiter, which is dropped; reaching the end
    of the input sets [eofbit], and extracting nothing at all sets
    [failbit]. *)
Definition getline (delim : ascii) (inp : istream) (str : string)
  : istream * string * bool :=
  if st_good inp then
    match read_until delim (st_buf inp) with
    | (x, Some rest) => (mkStream rest true, x, true)
    | (x, None) => (mkStream EmptyString false, x, bool_decide (x ≠ EmptyString))
    end
  else (inp, str, false).

(** [while (getline(in, line, delim)) body], for a [body] that works on the
    line and on a state and leaves the stream alone; [body] returns [None]
    when it throws. *)
Fixpoint while_getline {A} (fuel : nat) (delim : ascii)
    (body : string → A → option A) (inp : istream) (line : string) (a : A)
  : option A :=
  match fuel with
  | O => None
  | S fuel' =>
      let '(inp', line', ok) := getline delim inp line in
      if ok : bool then
        match body line' a with
        | None => None
        | Some a' => while_getline fuel' delim body inp' line' a'
        end
      else Some a
  end.

(** Fuel for a [while (getline(...))] loop over [text]: every iteration but
    the last two removes a delimiter. *)
Definition getline_fuel (text : string) : nat := S (S (String.length text)).

(** ** FileManager.cpp: the loaders

    A file is the text it holds, or [None] when it cannot be opened. *)

(** The body of the loop of [loadLocations], for one line. *)
Definition loadLocations_row (line : string) (graph : Graph) : option Graph :=
  let ss := mkStream line true in
  let '(ss, name, _) := getline "," ss EmptyString in
  let '(ss, idStr, _) := getline "," ss EmptyString in
  let '(ss, code, _) := getline "," ss EmptyString in
  let '(ss, parkingStr, _) := getline "," ss EmptyString in
  if bool_decide (idStr = EmptyString) || bool_decide (code = EmptyString)
     || bool_decide (parkingStr = EmptyString)
  then Some graph
  else
    match stoi idStr with
    | None => None
    | Some id => Some (addLocation graph id code (bool_decide (parkingStr = "1")))
    end.

Definition loadLocations (file : option string) (graph : Graph) : option Graph :=
  match file with
  | None => Some graph
  | Some text =>
      let '(inp, line, _) := getline "010" (mkStream text true) EmptyString in
      while_getline (getline_fuel text) "010" loadLocations_row inp line graph
  end.

(** The body of the loop of [loadDistances], for one line. *)
Definition loadDistances_row (line : string) (graph : Graph) : option Graph :=
  let ss := mkStream line true in
  let '(ss, loc1Code, _) := getline "," ss EmptyString in
  let '(ss, loc2Code, _) := getline "," ss EmptyString in
  let '(ss, drivingStr, _) := getline "," ss EmptyString in
  let '(ss, walkingStr, _) := getline "," ss EmptyString in
  if bool_decide (loc1Code = EmptyString) || bool_decide (loc2Code = EmptyString)
  then Some graph
  else
    match findLocationByCode graph loc1Code, findLocationByCode graph loc2Code with
    | Some (loc1, _), Some (loc2, _) =>
        match (if bool_decide (drivingStr = "X") then Some INF else stoi drivingStr) with
        | None => None
        | Some drivingTime =>
            match stoi walkingStr with
            | None => None
            | Some walkingTime =>
                Some (addRoad graph (Some loc1) (Some loc2) drivingTime walkingTime)
            end
        end
    | _, _ => Some graph
    end.

Definition loadDistances (file : option string) (graph : Graph) : option Graph :=
  match file with
  | None => Some graph
  | Some text =>
      let '(inp, line, _) := getline "010" (mkStream text true) EmptyString in
      while_getline (getline_fuel text) "010" loadDistances_row inp line graph
  end.

(** [loadData] of Menu.cpp, on the texts of the two files. *)
Definition loadData (locations distances : option string) (RoadMap : Graph)
  : option Graph :=
  match loadLocations locations RoadMap with
  | None => None
  | Some RoadMap' => loadDistances distances RoadMap'
  end.

(** ** FileManager.cpp: readInputFile *)

(** The loop over the list of [AvoidSegments]. *)
Fixpoint read_segments (fuel : nat) (segments : string) (avoidSegments : gset (Z * Z))
  : option (gset (Z * Z)) :=
  match fuel with
  | O => None
  | S fuel' =>
      match find_from "(" 0 segments with
      | None => Some avoidSegments
      | Some pos =>
          match find_from "," pos segments with
          | None => Some avoidSegments
          | Some commaPos =>
              match find_from ")" commaPos segments with
              | None => Some avoidSegments
              | Some endPos =>
                  match stoi (substr (S pos) (commaPos - pos - 1) segments) with
                  | None => None
                  | Some from =>
                      match stoi (substr (S commaPos) (endPos - commaPos - 1)
                                    segments) with
                      | None => None
                      | Some to =>
                          read_segments fuel' (substr_from (S endPos) segments)
                            ({[ (from, to) ]} ∪ avoidSegments)
                      end
                  end
              end
          end
      end
  end.

(** The part of [readInputFile] that [typeOfInput == 1] adds: the stream and
    the line read last come in, the three optional fields go out. *)
Definition read_restrictions (file : istream) (line : string)
  : option (gset Z * gset (Z * Z) * Z) :=
  let '(file, line, _) := getline "010" file line in
  match
    (if has_label "AvoidNodes:" line
     then while_getline (getline_fuel line) ","
            (λ node avoidNodes,
               match stoi node with
               | None => None
               | Some n => Some ({[ n ]} ∪ avoidNodes)
               end)
            (mkStream (substr_from 11 line) true) EmptyString (∅ : gset Z)
     else Some ∅)
  with
  | None => None
  | Some avoidNodes =>
      let '(file, line, _) := getline "010" file line in
      match
        (if has_label "AvoidSegments:" line
         then read_segments (S (String.length line)) (substr_from 14 line) ∅
         else Some ∅)
      with
      | None => None
      | Some avoidSegments =>
          let '(file, line, _) := getline "010" file line in
          if has_label "IncludeNode:" line
          then
            match stoi (substr_from 12 line) with
            | None => None
            | Some includeNodeId => Some (avoidNodes, avoidSegments, includeNodeId)
            end
          else Some (avoidNodes, avoidSegments, -1)
      end
  end.

Definition readInputFile (file : option string) (typeOfInput : Z) : option Input :=
  match file with
  | None => Some (mkInput (-1) (-1) ∅ ∅ (-1) (-1) 0)
  | Some text =>
      let file := mkStream text true in
      let '(file, mode, _) := getline "010" file EmptyString in
      let '(file, line, _) := getline "010" file EmptyString in
      match stoi (after_colon line) with
      | None => None
      | Some sourceId =>
          let '(file, line, _) := getline "010" file line in
          match stoi (after_colon line) with
          | None => None
          | Some destId =>
              match
                (if bool_decide (mode = "Mode:driving-walking")
                 then
                   let '(file, line, _) := getline "010" file line in
                   match stoi (after_colon line) with
                   | None => None
                   | Some maxWalkingTime => Some (file, line, maxWalkingTime, 2)
                   end
                 else Some (file, line, -1, typeOfInput))
              with
              | None => None
              | Some (file, line, maxWalkingTime, type) =>
                  if decide (typeOfInput = 1)
                  then
                    match read_restrictions file line with
                    | None => None
                    | Some (avoidNodes, avoidSegments, includeNodeId) =>
                        Some (mkInput sourceId destId avoidNodes avoidSegments
                                maxWalkingTime includeNodeId type)
                    end
                  else
                    Some (mkInput sourceId destId ∅ ∅ maxWalkingTime (-1) type)
              end
          end
      end
  end.

(** ** Menu.cpp: the menu entries on the text of [input.txt] *)

Definition menu_planNormalRoute (fuel : nat) (RoadMap : Graph)
    (input_txt : option string) (uninit : Z) : option (option string) :=
  match readInputFile input_txt 0 with
  | None => None
  | Some input => planNormalRoute fuel RoadMap input uninit
  end.

Definition menu_planRestrictedRoute (fuel : nat) (RoadMap : Graph)
    (input_txt : option string) (uninit : Z) : option (option string) :=
  match readInputFile input_txt 1 with
  | None => None
  | Some input => planRestrictedRoute fuel RoadMap input uninit
  end.

Definition menu_planEnvironmentallyFriendlyRoute (fuel : nat) (RoadMap : Graph)
    (input_txt : option string) : option (option string) :=
  match readInputFile input_txt 0 with
  | None => None
  | Some input => planEnvironmentallyFriendlyRoute fuel RoadMap input
  end.

(** * The vocabulary of the specification *)

(** ** The priority queue *)

Definition pq_sorted (pq : list (Z * Z)) : Prop :=
  StronglySorted (λ a b, pair_le a b = true) pq.

(** ** Networks *)

(** Two graphs describe the same network when they differ at most in the
    [distance] and [parent] fields, which [dijkstra] overwrites first. *)
Definition same_network (g g' : Graph) : Prop :=
  init_locations g = init_locations g'.

(** Roads are stored in the adjacency list of their origin, as [addRoad]
    does. *)
Definition wf_roads (g : Graph) : Prop :=
  ∀ i l r, g !! i = Some l → r ∈ getAdj l → getOrigin r = i.

(** Well-formed networks, in a form that can be decided on a concrete
    network: identifiers are unique (the caller of [addLocation] has to see
    to it), every road is stored at its origin and points to a location of
    the graph (what [addRoad] does), and the costs of the selected mode are
    either INF or lie in [0, W], where [W] times the number of locations
    stays within the range of [int]. *)

Definition road_ok (isDriving : bool) (W : Z) (g : Graph) (i : nat) (r : Road)
  : Prop :=
  getOrigin r = i ∧ (getDestination r < length g)%nat
  ∧ (edgeWeightOf isDriving r = INF ∨ 0 ≤ edgeWeightOf isDriving r ≤ W).

Definition network_ok (isDriving : bool) (W : Z) (g : Graph) : Prop :=
  NoDup (getId <$> g)
  ∧ Forall2 (λ i l, Forall (road_ok isDriving W g i) (getAdj l))
      (seq 0 (length g)) g
  ∧ 0 ≤ W ∧ Z.of_nat (length g) * W < INF.

Global Instance network_ok_dec isDriving W g : Decision (network_ok isDriving W g).
Proof. unfold network_ok, road_ok. apply _. Defined.

(** The construction interface keeps roads in place.

    [addLocation] and [addRoad] (called with pointers that [findLocation]
    returned) build graphs in which every road is stored at its origin and
    ends at a location of the graph. *)

Definition roads_in_place (g : Graph) : Prop :=
  ∀ i l r, g !! i = Some l → r ∈ getAdj l →
    getOrigin r = i ∧ (getDestination r < length g)%nat.

(** ** Paths, parent chains and routes *)

(** The directed (origin, destination) identifier pairs of the consecutive
    elements of a path. *)
Fixpoint path_segments (p : list Z) : list (Z * Z) :=
  match p with
  | [] => []
  | a :: q => match q with [] => [] | b :: _ => (a, b) :: path_segments q end
  end.

Definition id_at (g : Graph) (i : nat) : Z := from_option getId 0 (g !! i).

Definition road_segment (g : Graph) (r : Road) : Z * Z :=
  (id_at g (getOrigin r), id_at g (getDestination r)).

(** [parent_chain g v rs e]: following the parent roads [rs] from [v] leads
    to [e] (the first road is the parent of [v]). *)
Inductive parent_chain (g : Graph) : nat → list Road → nat → Prop :=
  | parent_chain_nil v : parent_chain g v [] v
  | parent_chain_cons v l r rs e :
      g !! v = Some l → getParent l = Some r →
      parent_chain g (getOrigin r) rs e →
      parent_chain g v (r :: rs) e.

(** The parent of a location is a road that ends there. *)
Definition parent_arrives (g : Graph) : Prop :=
  ∀ v l r, g !! v = Some l → getParent l = Some r → getDestination r = v.

(** The state in which the [while] loop is entered. *)
Definition start_graph (g : Graph) (si : nat) (source : Location) : Graph :=
  <[si := setDistance 0 source]> (init_locations g).

(** Routes.

    [route g u rs v]: the roads [rs], in travel order, lead from location
    [u] to location [v]; each road is taken from the adjacency list of the
    location reached so far. *)
Inductive route (g : Graph) : nat → list Road → nat → Prop :=
  | route_nil v : (v < length g)%nat → route g v [] v
  | route_snoc u rs x lx r :
      route g u rs x → g !! x = Some lx → r ∈ getAdj lx →
      route g u (rs ++ [r]) (getDestination r).

(** A road the search may relax: it has a cost in the selected mode, does
    not leave a blocked location and is not a blocked segment. *)
Definition usable (isDriving : bool) (blockedNodes : gset Z)
    (blockedSegments : gset (Z * Z)) (g : Graph) (r : Road) : Prop :=
  edgeWeightOf isDriving r ≠ INF
  ∧ (id_at g (getOrigin r) ∉ blockedNodes)
  ∧ (road_segment g r ∉ blockedSegments).

Definition route_ids (g : Graph) (u : nat) (rs : list Road) : list Z :=
  id_at g u :: ((λ r, id_at g (getDestination r)) <$> rs).

Definition route_nodes (u : nat) (rs : list Road) : list nat :=
  u :: (getDestination <$> rs).

Fixpoint route_cost (isDriving : bool) (rs : list Road) : Z :=
  match rs with
  | [] => 0
  | r :: rest => edgeWeightOf isDriving r + route_cost isDriving rest
  end.

(** ** Fuel *)

(** The termination measure of the [while] loop: the length of the queue
    plus the number of roads that leave locations not yet settled. *)
Definition degree (g : Graph) (i : nat) : nat :=
  length (from_option getAdj [] (g !! i)).

Definition pending (g : Graph) (settled : list nat) : nat :=
  sum_list_with (λ i, if decide (i ∈ settled) then 0%nat else degree g i)
    (seq 0 (length g)).

(** Fuel that is enough for one call of [dijkstra]: one iteration of the
    [while] loop per queue entry, of which there is the initial one and at
    most one per road; the reconstruction takes fewer iterations than there
    are locations. *)
Definition enough_fuel (g : Graph) : nat :=
  S (sum_list_with (λ l, length (getAdj l)) g + length g).

(** ** Candidates of the planner *)

(** [p] is a transfer candidate whose two legs exist and whose walk stays
    within the budget; [drive], [walk], [total] and [walkt] are what the
    loop body computes for it.  The second leg starts from the segments
    blocked by the first.  Both searches are stated on [g]: a search does
    not depend on the [distance] and [parent] values left by earlier ones
    ([dijkstra_after_any_search]). *)
Definition feasible_candidate (fuel : nat) (g : Graph)
    (sourceId destId maxWalkingTime : Z) (avoidNodes : gset Z)
    (avoidSegments : gset (Z * Z)) (p : Location)
    (drive walk : list Z) (total walkt : Z) : Prop :=
  HasParking p = true ∧ getId p ≠ sourceId ∧ getId p ≠ destId
  ∧ ∃ driveResult walkResult,
      dijkstra fuel g sourceId (getId p) true avoidNodes avoidSegments
        = Some driveResult
      ∧ res_path driveResult ≠ []
      ∧ dijkstra fuel g (getId p) destId false avoidNodes
          (res_blockedSegments driveResult) = Some walkResult
      ∧ res_path walkResult ≠ []
      ∧ drive = res_path driveResult ∧ walk = res_path walkResult
      ∧ walkt = res_cost walkResult
      ∧ total = wrap (res_cost driveResult + res_cost walkResult)
      ∧ Z.max 0 (wrap (res_cost walkResult - maxWalkingTime)) = 0.

(** ** Example networks *)

(** The network of the specification's scenario: A (1), B (2, with parking)
    and C (3); A-B costs 5 to drive and 20 to walk, B-C costs 4 and 3. *)
Definition example_network : Graph :=
  let g := addLocation [] 1 "A" false in
  let g := addLocation g 2 "B" true in
  let g := addLocation g 3 "C" false in
  let g := addRoad g (fst <$> findLocationByCode g "A")
             (fst <$> findLocationByCode g "B") 5 20 in
  addRoad g (fst <$> findLocationByCode g "B")
    (fst <$> findLocationByCode g "C") 4 3.

(** A network with a single location and no road. *)
Definition lone_network : Graph := addLocation [] 1 "A" false.

(** A network in which two locations carry the identifier 2: B and, added
    after it, B2.  One road joins A and B2, another joins B and C; each
    costs 1 to drive and 1 to walk.  The two texts are a locations file and
    a distances file that describe it. *)
Definition duplicate_id_network : Graph :=
  let g := addLocation [] 1 "A" false in
  let g := addLocation g 2 "B" false in
  let g := addLocation g 2 "B2" false in
  let g := addLocation g 3 "C" false in
  let g := addRoad g (fst <$> findLocationByCode g "A")
             (fst <$> findLocationByCode g "B2") 1 1 in
  addRoad g (fst <$> findLocationByCode g "B")
    (fst <$> findLocationByCode g "C") 1 1.

Definition duplicate_id_locations_txt : string :=
  "Location,Id,Code,Parking" +:+ newline +:+
  "Alameda,1,A,0" +:+ newline +:+
  "Bolsa,2,B,0" +:+ newline +:+
  "Bolsa Nova,2,B2,0" +:+ newline +:+
  "Carmo,3,C,0" +:+ newline.

Definition duplicate_id_distances_txt : string :=
  "Location1,Location2,Driving,Walking" +:+ newline +:+
  "A,B2,1,1" +:+ newline +:+
  "B,C,1,1" +:+ newline.

(** ** Networks as the construction interface builds them *)

(** The fields of a location that only [addLocation] sets. *)
Definition identity (l : Location) : Z * string * bool :=
  (getId l, getCode l, HasParking l).

(** Every road has its mirror image: the road back, stored at the other
    end, with the same two costs. *)
Definition roads_paired (g : Graph) : Prop :=
  ∀ i l r, g !! i = Some l → r ∈ getAdj l →
    ∃ l', g !! getDestination r = Some l'
          ∧ mkRoad (getDestination r) i (getDrivingTime r) (getWalkingTime r)
            ∈ getAdj l'.

(** [g'] has the locations of [g], in the same order and with the same
    identity and search state; adjacency lists may have grown at the end. *)
Definition roads_added (g g' : Graph) : Prop :=
  Forall2 (λ l l', ∃ extra,
             l' = mkLocation (getId l) (getCode l) (HasParking l)
                    (getAdj l ++ extra) (getParent l) (getDistance l)) g g'.

(** The values of type [int]. *)
Definition is_int (z : Z) : Prop := -2147483648 ≤ z ≤ 2147483647.

(** Roads whose two costs are values of type [int]. *)
Definition int_costs (g : Graph) : Prop :=
  ∀ i l r, g !! i = Some l → r ∈ getAdj l →
    -2147483648 ≤ getDrivingTime r ≤ 2147483647
    ∧ -2147483648 ≤ getWalkingTime r ≤ 2147483647.

(** Roads whose driving time is INF or lies in [0, W] and whose walking time
    lies in [0, W]. *)
Definition road_costs_within (W : Z) (g : Graph) : Prop :=
  ∀ i l r, g !! i = Some l → r ∈ getAdj l →
    (getDrivingTime r = INF ∨ 0 ≤ getDrivingTime r ≤ W)
    ∧ 0 ≤ getWalkingTime r ≤ W.

(** ** Suggestions *)

(** What the loop body of [EnvironmentallyFriendlyRoute] establishes for a
    suggestion it records. *)
Definition suggestion_ok (g : Graph) (sourceId destId maxWalkingTime : Z)
    (x : Suggestion) : Prop :=
  (∃ p, p ∈ g ∧ HasParking p = true ∧ getId p = parkingNode x)
  ∧ parkingNode x ≠ sourceId ∧ parkingNode x ≠ destId
  ∧ last (drivePath x) = Some (parkingNode x)
  ∧ last (walkPath x) = Some destId
  ∧ exceedWalkingBy x = wrap (walkingTime x - maxWalkingTime)
  ∧ 0 < exceedWalkingBy x.

(** [output] with other suggestions. *)
Definition with_suggestions (l : list Suggestion) (output : Output) : Output :=
  mkOutput (out_sourceId output) (out_destId output) (out_bestPath output)
    (out_altPath output) (out_parkingNode output) (out_totalTime output)
    (out_TypeOfInput output) (out_hasSuggestions output) l
    (out_maxWalkingTime output).

(** ** The text of files and requests *)

(** Whether [c] occurs in [s]. *)
Fixpoint has_char (c : ascii) (s : string) : bool :=
  match s with
  | EmptyString => false
  | String a s' => bool_decide (a = c) || has_char c s'
  end.

(** What [stoi] needs of a text to start reading digits at once. *)
Definition starts_number (s : string) : Prop :=
  match s with
  | String c _ => is_Some (digit_of c)
  | EmptyString => False
  end.

(** The pieces that successive calls of [getline] cut a text into: a piece
    ends at a delimiter or at the end of the text, and a text that ends with
    a delimiter has no empty piece after it. *)
Fixpoint lines_of (delim : ascii) (s : string) : list string :=
  match s with
  | EmptyString => []
  | String a s' =>
      if decide (a = delim) then EmptyString :: lines_of delim s'
      else
        match lines_of delim s' with
        | [] => [String a EmptyString]
        | l :: ls => String a l :: ls
        end
  end.

(** A loop body run over a list of lines, stopping when it throws. *)
Definition run_lines {A} (body : string → A → option A) (a : A)
    (lines : list string) : option A :=
  foldl (λ acc line, match acc with
                     | None => None
                     | Some a => body line a
                     end) (Some a) lines.

(** The lines of a file, each closed by a newline. *)
Definition file_rows (rows : list string) : string :=
  foldr (λ row text, row +:+ newline +:+ text) EmptyString rows.

(** A line of a request: a label, a colon and a number. *)
Definition request_line (label : string) (value : Z) : string :=
  label +:+ ":" +:+ pretty value.

(** A segment to avoid, [(id,id)], and a list of them,
    [(id,id),(id,id),...]; a list of nodes is written as [write_ids] writes
    a path. *)
Definition write_segment (seg : Z * Z) : string :=
  "(" +:+ pretty seg.1 +:+ "," +:+ pretty seg.2 +:+ ")".

Fixpoint write_segments (l : list (Z * Z)) : string :=
  match l with
  | [] => EmptyString
  | [seg] => write_segment seg
  | seg :: rest => write_segment seg +:+ "," +:+ write_segments rest
  end.

(** A restricted request as the parser expects it: the three lines of every
    request, then the nodes to avoid, the segments to avoid and the node to
    include, each on a line of its own. *)
Definition restricted_request (mode l1 l2 : string) (s d : Z) (nodes : list Z)
    (segments : list (Z * Z)) (include : option Z) (rest : string) : string :=
  mode +:+ newline +:+ request_line l1 s +:+ newline +:+
  request_line l2 d +:+ newline +:+
  ("AvoidNodes:" +:+ write_ids nodes) +:+ newline +:+
  ("AvoidSegments:" +:+ write_segments segments) +:+ newline +:+
  ("IncludeNode:" +:+ from_option pretty EmptyString include) +:+ newline +:+ rest.

(** A line of the locations file, [name,id,code,parking], what it has to
    satisfy to be read as such, and the location it stands for. *)
Definition location_row (row : string * Z * string * bool) : string :=
  let '(name, id, code, parking) := row in
  name +:+ "," +:+ pretty id +:+ "," +:+ code +:+ ","
  +:+ (if parking : bool then "1" else "0").

Definition location_row_ok (row : string * Z * string * bool) : Prop :=
  let '(name, id, code, parking) := row in
  has_char "," name = false ∧ has_char "010" name = false
  ∧ has_char "," code = false ∧ has_char "010" code = false
  ∧ code ≠ EmptyString ∧ is_int id.

Definition location_of (row : string * Z * string * bool) : Location :=
  let '(name, id, code, parking) := row in mkLocation id code parking [] None 0.

(** A line of the distances file, [code,code,driving,walking]; a road that
    cannot be driven has an [X] for its driving time. *)
Definition distance_row (row : string * string * option Z * Z) : string :=
  let '(loc1Code, loc2Code, driving, walking) := row in
  loc1Code +:+ "," +:+ loc2Code +:+ "," +:+ from_option pretty "X" driving
  +:+ "," +:+ pretty walking.

Definition distance_row_ok (row : string * string * option Z * Z) : Prop :=
  let '(loc1Code, loc2Code, driving, walking) := row in
  has_char "," loc1Code = false ∧ has_char "010" loc1Code = false
  ∧ has_char "," loc2Code = false ∧ has_char "010" loc2Code = false
  ∧ loc1Code ≠ EmptyString ∧ loc2Code ≠ EmptyString
  ∧ from_option is_int True driving ∧ is_int walking.

(** What a line of the distances file does to the graph. *)
Definition add_distance (graph : Graph) (row : string * string * option Z * Z)
  : Graph :=
  let '(loc1Code, loc2Code, driving, walking) := row in
  addRoad graph (fst <$> findLocationByCode graph loc1Code)
    (fst <$> findLocationByCode graph loc2Code) (default INF driving) walking.

(** Both times of a line lie in [0, W]; an [X] needs no bound. *)
Definition costs_within (W : Z) (row : string * string * option Z * Z) : Prop :=
  from_option (λ d, 0 ≤ d ≤ W) True row.1.2 ∧ 0 ≤ row.2 ≤ W.

(** ** More examples *)

(** The two files of the example network. *)
Definition example_locations_txt : string :=
  "Location,Id,Code,Parking" +:+ newline +:+
  "Alameda,1,A,0" +:+ newline +:+
  "Bolsa,2,B,1" +:+ newline +:+
  "Carmo,3,C,0" +:+ newline.

Definition example_distances_txt : string :=
  "Location1,Location2,Driving,Walking" +:+ newline +:+
  "A,B,5,20" +:+ newline +:+
  "B,C,4,3" +:+ newline.

(** A network with two ways from 1 to 3: the road 1-3 costs 10 to drive,
    the detour over 2 costs 3 + 4. *)
Definition detour_network : Graph :=
  let g := addLocation [] 1 "A" false in
  let g := addLocation g 2 "B" true in
  let g := addLocation g 3 "C" false in
  let g := addRoad g (Some 0%nat) (Some 2%nat) 10 30 in
  let g := addRoad g (Some 0%nat) (Some 1%nat) 3 9 in
  addRoad g (Some 1%nat) (Some 2%nat) 4 12.

(** Three places with parking between 1 and 5; walking from 2 takes 30,
    from 3 takes 12 and from 4 takes 20. *)
Definition parking_network : Graph :=
  let g := addLocation [] 1 "A" false in
  let g := addLocation g 2 "B" true in
  let g := addLocation g 3 "C" true in
  let g := addLocation g 4 "D" true in
  let g := addLocation g 5 "E" false in
  let g := addRoad g (Some 0%nat) (Some 1%nat) 2 10 in
  let g := addRoad g (Some 0%nat) (Some 2%nat) 9 40 in
  let g := addRoad g (Some 0%nat) (Some 3%nat) 4 25 in
  let g := addRoad g (Some 1%nat) (Some 4%nat) INF 30 in
  let g := addRoad g (Some 2%nat) (Some 4%nat) INF 12 in
  addRoad g (Some 3%nat) (Some 4%nat) INF 20.

(** A network in which the way from 1 to 4 over 3 goes back over 2. *)
Definition spur_network : Graph :=
  let g := addLocation [] 1 "A" false in
  let g := addLocation g 2 "B" false in
  let g := addLocation g 3 "C" false in
  let g := addLocation g 4 "D" false in
  let g := addRoad g (Some 0%nat) (Some 1%nat) 2 5 in
  let g := addRoad g (Some 1%nat) (Some 2%nat) 3 5 in
  addRoad g (Some 1%nat) (Some 3%nat) 4 5.

(** Three suggestions, as [EnvironmentallyFriendlyRoute] returns them for
    the network with three places to park, and an output that holds them. *)
Definition example_suggestions : list Suggestion :=
  [mkSuggestion [1; 3] [3; 5] 3 21 12 7;
   mkSuggestion [1; 4] [4; 5] 4 24 20 15;
   mkSuggestion [1; 2] [2; 5] 2 32 30 25].

Definition example_suggestions_output : Output :=
  mkOutput 1 5 ([1; 3], 9) ([3; 5], 12) 3 21 2 true example_suggestions 5.

(** * Properties *)

(** ** Machine integers *)

Lemma wrap_small z : -2147483648 ≤ z ≤ 2147483647 → wrap z = z.
Proof.
  intros Hz. unfold wrap.
  rewrite Z.mod_small by lia. lia.
Qed.

(** ** The priority queue *)

Lemma pair_le_total a b : pair_le a b = false → pair_le b a = true.
Proof.
  unfold pair_le. destruct a as [a1 a2], b as [b1 b2]; simpl.
  intros H. apply orb_false_elim in H as [H1 H2].
  apply Z.ltb_ge in H1.
  destruct (Z.ltb_spec b1 a1) as [|Hle]; [done|]. simpl.
  assert (a1 = b1) as -> by lia.
  rewrite Z.eqb_refl in *. simpl in *.
  apply Z.leb_gt in H2. apply Z.leb_le. lia.
Qed.

Lemma pair_le_trans a b c : pair_le a b = true → pair_le b c = true → pair_le a c = true.
Proof.
  unfold pair_le. destruct a as [a1 a2], b as [b1 b2], c as [c1 c2]; simpl.
  intros H1 H2.
  apply orb_true_iff in H1 as [H1|H1]; apply orb_true_iff in H2 as [H2|H2];
    rewrite ?andb_true_iff, ?Z.ltb_lt, ?Z.eqb_eq, ?Z.leb_le in *;
    apply orb_true_iff; rewrite ?andb_true_iff, ?Z.ltb_lt, ?Z.eqb_eq, ?Z.leb_le.
  - left; lia.
  - left; lia.
  - left; lia.
  - right; lia.
Qed.

Lemma pair_le_fst a b : pair_le a b = true → a.1 ≤ b.1.
Proof.
  unfold pair_le. intros H. apply orb_true_iff in H as [H|H].
  - apply Z.ltb_lt in H. lia.
  - apply andb_true_iff in H as [H _]. apply Z.eqb_eq in H. lia.
Qed.

Lemma pq_emplace_perm x pq : pq_emplace x pq ≡ₚ x :: pq.
Proof.
  induction pq as [|y pq IH]; simpl; [done|].
  destruct (pair_le x y); [done|].
  rewrite IH. apply Permutation_swap.
Qed.

Lemma elem_of_pq_emplace y x pq : y ∈ pq_emplace x pq ↔ y = x ∨ y ∈ pq.
Proof. rewrite pq_emplace_perm. apply elem_of_cons. Qed.

Lemma length_pq_emplace x pq : length (pq_emplace x pq) = S (length pq).
Proof. by rewrite pq_emplace_perm. Qed.

Lemma NoDup_pq_emplace x pq : x ∉ pq → NoDup pq → NoDup (pq_emplace x pq).
Proof. intros. rewrite pq_emplace_perm. by constructor. Qed.

Lemma pq_emplace_sorted x pq : pq_sorted pq → pq_sorted (pq_emplace x pq).
Proof.
  unfold pq_sorted. induction pq as [|y pq IH]; simpl; intros Hs.
  - repeat constructor.
  - apply StronglySorted_inv in Hs as [Hs Hy].
    destruct (pair_le x y) eqn:Hxy.
    + constructor; [by constructor|].
      constructor; [done|].
      eapply Forall_impl; [exact Hy|]. intros z Hz. simpl in Hz.
      by eapply pair_le_trans.
    + constructor; [by apply IH|].
      rewrite pq_emplace_perm. constructor; [|done].
      by apply pair_le_total.
Qed.

Lemma pq_sorted_top d c pq d' c' :
  pq_sorted ((d, c) :: pq) → (d', c') ∈ pq → d ≤ d'.
Proof.
  intros Hs Hin. apply StronglySorted_inv in Hs as [_ Hall].
  rewrite Forall_forall in Hall. apply Hall in Hin.
  by apply pair_le_fst in Hin.
Qed.

(** ** The network and the transient search state *)

Lemma same_network_refl g : same_network g g.
Proof. done. Qed.

Lemma same_network_trans g1 g2 g3 :
  same_network g1 g2 → same_network g2 g3 → same_network g1 g3.
Proof. unfold same_network. congruence. Qed.

Lemma same_network_init g : same_network g (init_locations g).
Proof.
  unfold same_network, init_locations.
  rewrite <- list_fmap_compose. apply list_fmap_ext. by intros _ [] _.
Qed.

Lemma same_network_length g g' : same_network g g' → length g = length g'.
Proof.
  unfold same_network, init_locations. intros H.
  apply (f_equal length) in H. by rewrite !length_fmap in H.
Qed.

Lemma same_network_lookup g g' i l :
  same_network g g' → g !! i = Some l →
  ∃ l', g' !! i = Some l' ∧ getId l' = getId l ∧ getCode l' = getCode l
        ∧ HasParking l' = HasParking l ∧ getAdj l' = getAdj l.
Proof.
  unfold same_network, init_locations. intros H Hl.
  apply (f_equal (λ x, x !! i)) in H. rewrite !list_lookup_fmap, Hl in H.
  destruct (g' !! i) as [l'|]; [|done].
  exists l'. destruct l, l'. simpl in *. by simplify_eq.
Qed.

Lemma same_network_insert g v l p d :
  g !! v = Some l →
  same_network g (<[v := setParent p (setDistance d l)]> g).
Proof.
  unfold same_network, init_locations. intros Hl.
  rewrite list_fmap_insert. symmetry. apply list_insert_id.
  rewrite list_lookup_fmap, Hl. by destruct l.
Qed.

Lemma same_network_insert_distance g v l d :
  g !! v = Some l → same_network g (<[v := setDistance d l]> g).
Proof.
  unfold same_network, init_locations. intros Hl.
  rewrite list_fmap_insert. symmetry. apply list_insert_id.
  rewrite list_lookup_fmap, Hl. by destruct l.
Qed.

Lemma same_network_ids g g' : same_network g g' → getId <$> g = getId <$> g'.
Proof.
  unfold same_network, init_locations. intros H.
  apply (f_equal (fmap getId)) in H.
  rewrite <- !list_fmap_compose in H.
  etrans; [|etrans; [exact H|]]; apply list_fmap_ext; by intros _ [] _.
Qed.

Lemma findLocation_Some g c i l :
  findLocation g c = Some (i, l) →
  g !! i = Some l ∧ getId l = c.
Proof. unfold findLocation. rewrite list_find_Some. naive_solver. Qed.

Lemma findLocation_same_network g g' c i l :
  same_network g g' → findLocation g c = Some (i, l) →
  ∃ l', findLocation g' c = Some (i, l') ∧ getAdj l' = getAdj l.
Proof.
  intros Hs Hf. unfold findLocation in *.
  apply list_find_Some in Hf as (Hl & Hid & Hfirst).
  destruct (same_network_lookup _ _ _ _ Hs Hl) as (l' & Hl' & Hid' & _ & _ & Hadj).
  exists l'. split; [|done].
  apply list_find_Some. split_and!; [done|congruence|].
  intros j y Hy Hj.
  assert (same_network g' g) as Hs' by done.
  destruct (same_network_lookup _ _ _ _ Hs' Hy) as (y' & Hy' & Hidy & _).
  rewrite <- Hidy. by eapply Hfirst.
Qed.

Lemma findLocation_unique g v l :
  NoDup (getId <$> g) → g !! v = Some l → findLocation g (getId l) = Some (v, l).
Proof.
  intros Hnd Hl. unfold findLocation. apply list_find_Some.
  split_and!; [done..|].
  intros j y Hy Hj Heq.
  assert (j = v); [|lia].
  eapply NoDup_lookup; [exact Hnd|..].
  - rewrite list_lookup_fmap, Hy. done.
  - rewrite list_lookup_fmap, Hl. simpl. by rewrite Heq.
Qed.

(** ** Invariants of the search that do not depend on the costs *)

Section search_invariant.
Context (isDriving : bool) (blockedNodes : gset Z)
        (blockedSegments : gset (Z * Z)).
Context (P : Graph → Prop).

(** What one successful relaxation has to preserve. *)
Definition relaxation_preserves : Prop :=
  ∀ g ci cur road dst newDist,
    P g → g !! ci = Some cur → getId cur ∉ blockedNodes →
    road ∈ getAdj cur → edgeWeightOf isDriving road ≠ INF →
    g !! getDestination road = Some dst →
    (getId cur, getId dst) ∉ blockedSegments →
    newDist < getDistance dst →
    P (<[getDestination road :=
           setParent (Some road) (setDistance newDist dst)]> g).

Hypothesis Hstep : relaxation_preserves.

Lemma relax_roads_preserves currentDist roads :
  ∀ g pq g' pq' ci cur,
    P g → g !! ci = Some cur → getId cur ∉ blockedNodes →
    roads ⊆ getAdj cur →
    relax_roads isDriving blockedSegments currentDist (getId cur) roads g pq
      = Some (g', pq') →
    P g' ∧ same_network g g'.
Proof.
  induction roads as [|road rest IH]; intros g pq g' pq' ci cur HP Hcur Hnb Hsub Hrun;
    simpl in Hrun.
  { by simplify_eq. }
  assert (road ∈ getAdj cur) as Hroad by set_solver.
  assert (rest ⊆ getAdj cur) as Hrest by set_solver.
  case_decide as Hw; [exact (IH _ _ _ _ _ _ HP Hcur Hnb Hrest Hrun)|].
  destruct (g !! getDestination road) as [dst|] eqn:Hdst; [|done].
  case_decide as Hbs; [exact (IH _ _ _ _ _ _ HP Hcur Hnb Hrest Hrun)|].
  case_decide as Hlt; [|exact (IH _ _ _ _ _ _ HP Hcur Hnb Hrest Hrun)].
  pose proof (same_network_insert g _ dst (Some road)
                (wrap (currentDist + edgeWeightOf isDriving road)) Hdst) as Hsame.
  destruct (same_network_lookup _ _ _ _ Hsame Hcur)
    as (cur' & Hcur' & Hid & _ & _ & Hadj).
  rewrite <- Hid in Hrun.
  assert (P (<[getDestination road := setParent (Some road)
               (setDistance (wrap (currentDist + edgeWeightOf isDriving road)) dst)]> g))
    as HP1 by exact (Hstep g ci cur road dst _ HP Hcur Hnb Hroad Hw Hdst Hbs Hlt).
  rewrite <- Hid in Hnb. rewrite <- Hadj in Hrest.
  destruct (IH _ _ _ _ _ _ HP1 Hcur' Hnb Hrest Hrun) as [HP' Hsame'].
  split; [done|]. by eapply same_network_trans.
Qed.

Lemma search_loop_preserves fuel :
  ∀ g pq g',
    P g →
    search_loop fuel isDriving blockedNodes blockedSegments g pq = Some g' →
    P g' ∧ same_network g g'.
Proof.
  induction fuel as [|fuel IH]; intros g pq g' HP Hrun;
    destruct pq as [|[currentDist currentNodeId] pq]; simpl in Hrun;
    [by simplify_eq|done|by simplify_eq|].
  destruct (findLocation g currentNodeId) as [[ci cur]|] eqn:Hfind; [|done].
  apply findLocation_Some in Hfind as [Hcur Hid].
  case_decide; [exact (IH _ _ _ HP Hrun)|].
  case_decide as Hnb; [exact (IH _ _ _ HP Hrun)|].
  destruct (relax_roads _ _ _ _ _ _ _) as [[g1 pq1]|] eqn:Hrelax; [|done].
  rewrite <- Hid in Hrelax, Hnb.
  destruct (relax_roads_preserves _ _ _ _ _ _ _ _ HP Hcur Hnb (reflexivity _) Hrelax)
    as [HP1 Hs1].
  destruct (IH _ _ _ HP1 Hrun) as [HP' Hs'].
  split; [done|]. by eapply same_network_trans.
Qed.
End search_invariant.

(** ** Paths, their segments, and the chain of parent roads *)

Lemma path_segments_snoc p y x :
  last p = Some y → path_segments (p ++ [x]) = path_segments p ++ [(y, x)].
Proof.
  induction p as [|a [|b q] IH]; intros Hlast; simpl in *.
  - done.
  - by simplify_eq.
  - f_equal. by apply IH.
Qed.

Lemma id_at_lookup g i l : g !! i = Some l → id_at g i = getId l.
Proof. unfold id_at. by intros ->. Qed.

Lemma id_at_same_network g g' i : same_network g g' → id_at g i = id_at g' i.
Proof.
  intros Hs. unfold id_at.
  apply same_network_ids in Hs. apply (f_equal (λ x, x !! i)) in Hs.
  rewrite !list_lookup_fmap in Hs.
  destruct (g !! i), (g' !! i); by simplify_eq/=.
Qed.

Lemma reconstruct_Some g s fuel :
  ∀ v bs0 path path' bs',
    reconstruct fuel g s v bs0 path = Some (path', bs') →
    ∃ rs e le,
      parent_chain g v rs e ∧ g !! e = Some le
      ∧ (getParent le = None ∨ getId le = s)
      ∧ Forall (λ r, is_Some (g !! getOrigin r) ∧ is_Some (g !! getDestination r)) rs
      ∧ (length rs ≤ fuel)%nat
      ∧ path' = path ++ ((λ r, id_at g (getOrigin r)) <$> rs)
      ∧ bs' = list_to_set (road_segment g <$> rs) ∪ bs0.
Proof.
  induction fuel as [|fuel IH]; intros v bs0 path path' bs' Hrun; simpl in Hrun.
  - destruct (g !! v) as [dst|] eqn:Hv; [|done].
    destruct (getParent dst) as [road|] eqn:Hp.
    + case_decide as Hid; [|done]. simplify_eq.
      exists [], v, dst. split_and!; [constructor|done|by right|done|done|..].
      * by rewrite app_nil_r.
      * simpl. set_solver.
    + simplify_eq. exists [], v, dst.
      split_and!; [constructor|done|by left|done|done|..].
      * by rewrite app_nil_r.
      * simpl. set_solver.
  - destruct (g !! v) as [dst|] eqn:Hv; [|done].
    destruct (getParent dst) as [road|] eqn:Hp.
    + case_decide as Hid.
      { simplify_eq. exists [], v, dst.
        split_and!; [constructor|done|by right|done|simpl; lia|..].
        - by rewrite app_nil_r.
        - simpl. set_solver. }
      destruct (g !! getOrigin road) as [o|] eqn:Ho; [|done].
      destruct (g !! getDestination road) as [d|] eqn:Hd; [|done].
      apply IH in Hrun as (rs & e & le & Hchain & He & Hstop & Hall & Hlen & -> & ->).
      exists (road :: rs), e, le.
      split_and!; [by econstructor|done|done| |simpl; lia|..].
      * constructor; [|done]. rewrite Ho, Hd. eauto.
      * rewrite <- app_assoc. simpl. by rewrite (id_at_lookup _ _ _ Ho).
      * simpl. unfold road_segment at 2.
        rewrite (id_at_lookup _ _ _ Ho), (id_at_lookup _ _ _ Hd). set_solver.
    + simplify_eq. exists [], v, dst.
      split_and!; [constructor|done|by left|done|simpl; lia|..].
      * by rewrite app_nil_r.
      * simpl. set_solver.
Qed.

(** What a successful call went through. *)
Lemma dijkstra_Some fuel g s d isDriving bn bs r :
  dijkstra fuel g s d isDriving bn bs = Some r →
  ∃ si source g2 di dst,
    findLocation (init_locations g) s = Some (si, source)
    ∧ search_loop fuel isDriving bn bs
        (<[si := setDistance 0 source]> (init_locations g)) [(0, s)] = Some g2
    ∧ findLocation g2 d = Some (di, dst)
    ∧ res_graph r = g2
    ∧ ((getDistance dst = INF ∧ r = mkResult [] 0 bs g2)
       ∨ (getDistance dst ≠ INF
          ∧ ∃ path bs',
              reconstruct fuel g2 s di bs [getId dst] = Some (path, bs')
              ∧ r = mkResult (reverse path) (getDistance dst) bs' g2)).
Proof.
  unfold dijkstra. intros H.
  destruct (findLocation (init_locations g) s) as [[si source]|]; [|done].
  simpl in H.
  destruct (search_loop _ _ _ _ _ _) as [g2|] eqn:Hloop; [|done].
  destruct (findLocation g2 d) as [[di dst]|] eqn:Hd; [|done].
  exists si, source, g2, di, dst. split_and!; [done..| |].
  - case_decide; [by simplify_eq|].
    by destruct (reconstruct _ _ _ _ _ _) as [[??]|]; simplify_eq.
  - case_decide; [left; by simplify_eq|right].
    split; [done|].
    destruct (reconstruct _ _ _ _ _ _) as [[path bs']|]; [|done].
    exists path, bs'. by simplify_eq.
Qed.

Lemma wf_roads_same_network g g' : same_network g g' → wf_roads g → wf_roads g'.
Proof.
  intros Hs Hwf i l r Hl Hr.
  assert (same_network g' g) as Hs' by done.
  destruct (same_network_lookup _ _ _ _ Hs' Hl) as (l0 & Hl0 & _ & _ & _ & Hadj).
  eapply Hwf; [exact Hl0|]. by rewrite Hadj.
Qed.

Lemma start_graph_lookup g si source v l :
  findLocation (init_locations g) (getId source) = Some (si, source) →
  start_graph g si source !! v = Some l →
  getParent l = None
  ∧ ((v = si ∧ getDistance l = 0) ∨ (v ≠ si ∧ getDistance l = INF)).
Proof.
  intros Hf Hl. apply findLocation_Some in Hf as [Hsrc _].
  unfold start_graph in Hl.
  apply list_lookup_insert_Some in Hl as [(-> & <- & _)|[Hne Hl]].
  - unfold init_locations in Hsrc. rewrite list_lookup_fmap in Hsrc.
    destruct (g !! v) as [l0|]; simplify_eq/=. split; [done|by left].
  - unfold init_locations in Hl. rewrite list_lookup_fmap in Hl.
    destruct (g !! v) as [l0|]; simplify_eq/=. split; [done|by right].
Qed.

Lemma start_graph_same_network g si source :
  findLocation (init_locations g) (getId source) = Some (si, source) →
  same_network g (start_graph g si source).
Proof.
  intros Hf. apply findLocation_Some in Hf as [Hsrc _].
  eapply same_network_trans; [apply same_network_init|].
  by apply same_network_insert_distance.
Qed.

Section structure.
Context (isDriving : bool) (blockedNodes : gset Z)
        (blockedSegments : gset (Z * Z)).

(** Every parent road was relaxed: it is usable in this mode, leaves a
    location that is not blocked and is not a blocked segment. *)
Definition parent_relaxed (g : Graph) : Prop :=
  ∀ v l r, g !! v = Some l → getParent l = Some r →
    getDestination r = v
    ∧ edgeWeightOf isDriving r ≠ INF
    ∧ ∃ lo, g !! getOrigin r = Some lo ∧ r ∈ getAdj lo
            ∧ (getId lo ∉ blockedNodes)
            ∧ ((getId lo, getId l) ∉ blockedSegments).

Lemma parent_arrives_step :
  relaxation_preserves isDriving blockedNodes blockedSegments parent_arrives.
Proof.
  intros g ci cur road dst newDist HP Hcur Hnb Hroad Hw Hdst Hbs Hlt v l r Hl Hp.
  apply list_lookup_insert_Some in Hl as [(<- & <- & _)|[Hne Hl]].
  - simpl in Hp. by simplify_eq.
  - by eapply HP.
Qed.

Lemma parent_relaxed_step :
  relaxation_preserves isDriving blockedNodes blockedSegments
    (λ g, wf_roads g ∧ parent_relaxed g).
Proof.
  intros g ci cur road dst newDist [Hwf HP] Hcur Hnb Hroad Hw Hdst Hbs Hlt.
  pose proof (same_network_insert g _ dst (Some road) newDist Hdst) as Hsame.
  split; [by eapply wf_roads_same_network|].
  intros v l r Hl Hp.
  apply list_lookup_insert_Some in Hl as [(<- & <- & _)|[Hne Hl]].
  - simpl in Hp. simplify_eq. split_and!; [done..|].
    rewrite (Hwf _ _ _ Hcur Hroad).
    destruct (same_network_lookup _ _ _ _ Hsame Hcur)
      as (cur' & Hcur' & Hid & _ & _ & Hadj).
    exists cur'. rewrite Hid, Hadj. by simpl.
  - destruct (HP _ _ _ Hl Hp) as (Hd & Hw' & lo & Hlo & Hin & Hnb' & Hbs').
    split_and!; [done..|].
    destruct (same_network_lookup _ _ _ _ Hsame Hlo)
      as (lo' & Hlo' & Hid & _ & _ & Hadj).
    exists lo'. by rewrite Hid, Hadj.
Qed.

Lemma chain_segments g v rs e :
  parent_arrives g → parent_chain g v rs e →
  path_segments (reverse (id_at g v :: ((λ r, id_at g (getOrigin r)) <$> rs)))
  = reverse (road_segment g <$> rs).
Proof.
  intros HP Hchain. induction Hchain as [v|v l r rs e Hl Hp Hchain IH]; [done|].
  rewrite reverse_cons. cbn [fmap list_fmap].
  erewrite path_segments_snoc; last first.
  { rewrite last_reverse. done. }
  rewrite IH, reverse_cons. do 2 f_equal.
  unfold road_segment. by rewrite (HP _ _ _ Hl Hp).
Qed.

Lemma chain_relaxed g v rs e :
  parent_relaxed g → parent_chain g v rs e →
  Forall (λ r, ((road_segment g r).1 ∉ blockedNodes)
               ∧ (road_segment g r ∉ blockedSegments)) rs.
Proof.
  intros HP Hchain. induction Hchain as [v|v l r rs e Hl Hp Hchain IH]; [done|].
  constructor; [|done].
  destruct (HP _ _ _ Hl Hp) as (Hd & _ & lo & Hlo & _ & Hnb & Hbs).
  unfold road_segment. simpl.
  rewrite (id_at_lookup _ _ _ Hlo), Hd, (id_at_lookup _ _ _ Hl). done.
Qed.

(** The segments of a returned path are the segments of the parent roads
    that the reconstruction followed, and the reconstruction inserts
    exactly those into [blockedSegments]. *)
Lemma dijkstra_path_roads fuel g s d r :
  dijkstra fuel g s d isDriving blockedNodes blockedSegments = Some r →
  ∃ di rs e,
    parent_arrives (res_graph r)
    ∧ (wf_roads g → parent_relaxed (res_graph r))
    ∧ same_network g (res_graph r)
    ∧ (res_path r ≠ [] → parent_chain (res_graph r) di rs e)
    ∧ path_segments (res_path r) = reverse (road_segment (res_graph r) <$> rs)
    ∧ res_blockedSegments r
      = list_to_set (road_segment (res_graph r) <$> rs) ∪ blockedSegments.
Proof.
  intros Hrun.
  apply dijkstra_Some in Hrun
    as (si & source & g2 & di & dst & Hsrc & Hloop & Hdst & Hg & Hres).
  pose proof Hsrc as Hsrc'.
  apply findLocation_Some in Hsrc' as [_ Hsid]. rewrite <- Hsid in Hsrc.
  pose proof (start_graph_same_network _ _ _ Hsrc) as Hsame0.
  assert (parent_arrives g2 ∧ same_network (start_graph g si source) g2)
    as [HPA Hsame1].
  { eapply search_loop_preserves; [apply parent_arrives_step| |exact Hloop].
    intros v l r0 Hl Hp.
    destruct (start_graph_lookup _ _ _ _ _ Hsrc Hl) as [Hnone _]. congruence. }
  assert (wf_roads g → parent_relaxed g2) as HPR.
  { intros Hwf.
    eapply (search_loop_preserves _ _ _ (λ g, wf_roads g ∧ parent_relaxed g));
      [apply parent_relaxed_step| |exact Hloop].
    split; [by eapply wf_roads_same_network|].
    intros v l r0 Hl Hp.
    destruct (start_graph_lookup _ _ _ _ _ Hsrc Hl) as [Hnone _]. congruence. }
  rewrite Hg.
  destruct Hres as [[_ ->]|(_ & path & bs' & Hrec & ->)]; simpl.
  - exists di, [], di. split_and!; [done|done|by eapply same_network_trans|done|done|].
    simpl. set_solver.
  - apply reconstruct_Some in Hrec
      as (rs & e & le & Hchain & He & Hstop & _ & _ & -> & ->).
    exists di, rs, e.
    split_and!; [done|done|by eapply same_network_trans|done| |done].
    apply findLocation_Some in Hdst as [Hdi _].
    simpl. rewrite <- (id_at_lookup _ _ _ Hdi).
    by eapply chain_segments.
Qed.
End structure.

Lemma reconstruct_unfold fuel g s v bs path :
  reconstruct fuel g s v bs path =
  match g !! v with
  | None => None
  | Some dst =>
      match getParent dst with
      | None => Some (path, bs)
      | Some road =>
          if decide (getId dst = s) then Some (path, bs)
          else
            match fuel with
            | O => None
            | S fuel' =>
                match g !! getOrigin road, g !! getDestination road with
                | Some o, Some d =>
                    reconstruct fuel' g s (getOrigin road)
                      ({[ (getId o, getId d) ]} ∪ bs) (path ++ [getId o])
                | _, _ => None
                end
            end
      end
  end.
Proof. by destruct fuel. Qed.

(** The number of iterations of the reconstruction loop is the number of
    identifiers it pushes; any fuel of at least that much gives the same
    result. *)
Lemma reconstruct_steps g s k :
  ∀ v bs0 path path' bs',
    reconstruct k g s v bs0 path = Some (path', bs') →
    ∃ j, (j ≤ k)%nat ∧ length path' = (length path + j)%nat
         ∧ ∀ k', (j ≤ k')%nat → reconstruct k' g s v bs0 path = Some (path', bs').
Proof.
  induction k as [|k IH]; intros v bs0 path path' bs' Hrun;
    rewrite reconstruct_unfold in Hrun.
  - destruct (g !! v) as [dst|] eqn:Hv; [|done].
    destruct (getParent dst) as [road|] eqn:Hp.
    + case_decide as Hid; [|done]. simplify_eq.
      exists 0%nat. split_and!; [lia|lia|].
      intros k' _. rewrite reconstruct_unfold, Hv, Hp. by rewrite decide_True.
    + simplify_eq. exists 0%nat. split_and!; [lia|lia|].
      intros k' _. by rewrite reconstruct_unfold, Hv, Hp.
  - destruct (g !! v) as [dst|] eqn:Hv; [|done].
    destruct (getParent dst) as [road|] eqn:Hp.
    + case_decide as Hid.
      { simplify_eq. exists 0%nat. split_and!; [lia|lia|].
        intros k' _. rewrite reconstruct_unfold, Hv, Hp. by rewrite decide_True. }
      destruct (g !! getOrigin road) as [o|] eqn:Ho; [|done].
      destruct (g !! getDestination road) as [d|] eqn:Hd; [|done].
      apply IH in Hrun as (j & Hj & Hlen & Hmono).
      exists (S j). split_and!; [lia|rewrite Hlen, length_app; simpl; lia|].
      intros [|k'] Hk'; [lia|].
      rewrite reconstruct_unfold, Hv, Hp, decide_False, Ho, Hd by done.
      apply Hmono. lia.
    + simplify_eq. exists 0%nat. split_and!; [lia|lia|].
      intros k' _. by rewrite reconstruct_unfold, Hv, Hp.
Qed.

Lemma chain_reverse {A} (f : nat → A) g v rs e :
  parent_arrives g → parent_chain g v rs e →
  reverse (f v :: ((λ r, f (getOrigin r)) <$> rs))
  = f e :: ((λ r, f (getDestination r)) <$> reverse rs).
Proof.
  intros HP Hchain. induction Hchain as [v|v l r rs e Hl Hp Hchain IH]; [done|].
  rewrite reverse_cons. cbn [fmap list_fmap]. rewrite IH.
  rewrite (reverse_cons rs r), fmap_app. simpl.
  by rewrite (HP _ _ _ Hl Hp).
Qed.

Lemma route_cost_app isDriving rs1 rs2 :
  route_cost isDriving (rs1 ++ rs2)
  = route_cost isDriving rs1 + route_cost isDriving rs2.
Proof. induction rs1 as [|r rs1 IH]; simpl; lia. Qed.

Lemma route_cost_reverse isDriving rs :
  route_cost isDriving (reverse rs) = route_cost isDriving rs.
Proof.
  induction rs as [|r rs IH]; [done|].
  rewrite reverse_cons, route_cost_app, IH. simpl. lia.
Qed.


(** ** The invariant of the search on a network with bounded,
       non-negative costs *)

Lemma sum_degrees g :
  ∀ pre,
    sum_list_with (degree (pre ++ g)) (seq (length pre) (length g))
    = sum_list_with (λ l, length (getAdj l)) g.
Proof.
  induction g as [|x g IH]; intros pre; [done|].
  change (sum_list_with (degree (pre ++ x :: g)) (seq (length pre) (length (x :: g))))
    with (degree (pre ++ x :: g) (length pre)
          + sum_list_with (degree (pre ++ x :: g)) (seq (S (length pre)) (length g)))%nat.
  change (sum_list_with (λ l, length (getAdj l)) (x :: g))
    with (length (getAdj x) + sum_list_with (λ l, length (getAdj l)) g)%nat.
  f_equal.
  - unfold degree. by rewrite list_lookup_middle.
  - rewrite (cons_middle x pre g), app_assoc.
    replace (S (length pre)) with (length (pre ++ [x]))
      by (rewrite length_app; simpl; lia).
    apply IH.
Qed.

Lemma pending_nil g : pending g [] = sum_list_with (λ l, length (getAdj l)) g.
Proof. unfold pending. rewrite <- (sum_degrees g []). done. Qed.

Lemma NoDup_bounded_length (l : list nat) (n : nat) :
  NoDup l → (∀ x, x ∈ l → (x < n)%nat) → (length l ≤ n)%nat.
Proof.
  intros Hnd Hlt.
  rewrite <- (length_seq n 0). apply submseteq_length, NoDup_submseteq; [done|].
  intros x Hx. apply elem_of_seq. specialize (Hlt x Hx). lia.
Qed.

Section dijkstra_invariant.
Context (isDriving : bool) (blockedNodes : gset Z)
        (blockedSegments : gset (Z * Z)).
Context (g0 : Graph) (W : Z) (si : nat).

Hypothesis Hids : NoDup (getId <$> g0).
Hypothesis Hwf : wf_roads g0.
Hypothesis Hdest : ∀ i l r,
  g0 !! i = Some l → r ∈ getAdj l → (getDestination r < length g0)%nat.
Hypothesis Hcost : ∀ i l r,
  g0 !! i = Some l → r ∈ getAdj l →
  edgeWeightOf isDriving r = INF ∨ 0 ≤ edgeWeightOf isDriving r ≤ W.
Hypothesis HW : 0 ≤ W.
Hypothesis Hrange : Z.of_nat (length g0) * W < INF.

(** [settled] lists the locations popped with an up-to-date distance,
    the latest first; [m] is the distance of the latest one. *)
Record search_inv (g : Graph) (pq : list (Z * Z)) (settled : list nat) (m : Z)
  : Prop := {
  inv_net : same_network g0 g;
  inv_settled_nodup : NoDup settled;
  inv_settled_lt : ∀ u, u ∈ settled → (u < length g0)%nat;
  inv_m : 0 ≤ m ≤ Z.of_nat (pred (length settled)) * W;
  inv_sorted : pq_sorted pq;
  inv_pq_nodup : NoDup pq;
  inv_pq : ∀ d c, (d, c) ∈ pq →
    m ≤ d ≤ Z.of_nat (length settled) * W
    ∧ ∃ v l, g !! v = Some l ∧ getId l = c ∧ getDistance l ≤ d;
  inv_open : ∀ v l,
    g !! v = Some l → getDistance l ≠ INF → v ∉ settled →
    (getDistance l, getId l) ∈ pq;
  inv_closed : ∀ u l,
    u ∈ settled → g !! u = Some l →
    0 ≤ getDistance l ≤ m ∧ (getDistance l, getId l) ∉ pq;
  inv_source : ∃ l, g !! si = Some l ∧ getDistance l = 0 ∧ getParent l = None;
  inv_parent_none : ∀ v l,
    g !! v = Some l → getParent l = None → v = si ∨ getDistance l = INF;
  inv_parent : ∀ v l r,
    g !! v = Some l → getParent l = Some r →
    getDestination r = v ∧ v ≠ si
    ∧ edgeWeightOf isDriving r ≠ INF ∧ getDistance l ≠ INF
    ∧ ∃ lo, g !! getOrigin r = Some lo ∧ r ∈ getAdj lo
            ∧ getOrigin r ∈ settled
            ∧ getDistance l = getDistance lo + edgeWeightOf isDriving r
            ∧ (getId lo ∉ blockedNodes)
            ∧ ((getId lo, getId l) ∉ blockedSegments)
            ∧ ∀ s1 s2, settled = s1 ++ v :: s2 → getOrigin r ∈ s2
}.

Lemma net_lookup g v l :
  same_network g0 g → g !! v = Some l →
  ∃ l0, g0 !! v = Some l0 ∧ getId l0 = getId l ∧ getAdj l0 = getAdj l.
Proof.
  intros Hs Hl. assert (same_network g g0) as Hs' by done.
  destruct (same_network_lookup _ _ _ _ Hs' Hl) as (l0 & ? & ? & _ & _ & ?).
  by exists l0.
Qed.

Lemma net_ids_inj g v l v' l' :
  same_network g0 g → g !! v = Some l → g !! v' = Some l' →
  getId l = getId l' → v = v'.
Proof.
  intros Hs Hl Hl' Heq.
  destruct (net_lookup _ _ _ Hs Hl) as (l0 & Hl0 & Hid & _).
  destruct (net_lookup _ _ _ Hs Hl') as (l0' & Hl0' & Hid' & _).
  eapply NoDup_lookup; [exact Hids|..]; rewrite list_lookup_fmap.
  - by rewrite Hl0.
  - rewrite Hl0'. simpl. congruence.
Qed.

Lemma net_find g v l :
  same_network g0 g → g !! v = Some l → findLocation g (getId l) = Some (v, l).
Proof.
  intros Hs Hl. apply findLocation_unique; [|done].
  by rewrite <- (same_network_ids _ _ Hs).
Qed.

Lemma net_road g v l r :
  same_network g0 g → g !! v = Some l → r ∈ getAdj l →
  getOrigin r = v
  ∧ is_Some (g !! getDestination r)
  ∧ (edgeWeightOf isDriving r = INF ∨ 0 ≤ edgeWeightOf isDriving r ≤ W).
Proof.
  intros Hs Hl Hr.
  destruct (net_lookup _ _ _ Hs Hl) as (l0 & Hl0 & _ & Hadj).
  rewrite <- Hadj in Hr. split_and!.
  - by eapply Hwf.
  - apply lookup_lt_is_Some. rewrite <- (same_network_length _ _ Hs).
    by eapply Hdest.
  - by eapply Hcost.
Qed.

Lemma search_inv_start g source :
  same_network g g0 →
  findLocation (init_locations g) (getId source) = Some (si, source) →
  search_inv (start_graph g si source) [(0, getId source)] [] 0.
Proof.
  intros Hnet Hf.
  pose proof (start_graph_same_network _ _ _ Hf) as Hs.
  pose proof Hf as Hf'. apply findLocation_Some in Hf' as [Hsrc _].
  assert (start_graph g si source !! si = Some (setDistance 0 source)) as Hsi.
  { unfold start_graph. apply list_lookup_insert_eq. by eapply lookup_lt_Some. }
  split.
  - eapply same_network_trans; [|exact Hs]. done.
  - constructor.
  - intros u Hu. by apply elem_of_nil in Hu.
  - simpl. lia.
  - repeat constructor.
  - repeat constructor. by intros ?%elem_of_nil.
  - intros d c Hin. apply list_elem_of_singleton in Hin. simplify_eq.
    split; [simpl; lia|]. eexists _, _. split_and!; [exact Hsi|done|done].
  - intros v l Hl Hfin _.
    destruct (start_graph_lookup _ _ _ _ _ Hf Hl) as [_ [[-> Hd]|[_ Hd]]]; [|done].
    rewrite Hsi in Hl. simplify_eq. simpl. apply list_elem_of_here.
  - intros u l Hu. by apply elem_of_nil in Hu.
  - eexists. split_and!; [exact Hsi|done|].
    destruct (start_graph_lookup _ _ _ _ _ Hf Hsi) as [Hp _]. exact Hp.
  - intros v l Hl _.
    destruct (start_graph_lookup _ _ _ _ _ Hf Hl) as [_ [[-> _]|[_ Hd]]]; auto.
  - intros v l r Hl Hp.
    destruct (start_graph_lookup _ _ _ _ _ Hf Hl) as [Hnone _]. congruence.
Qed.

(** An entry at the top of the queue names the location it was pushed
    for. *)
Lemma search_inv_top g d c pq settled m u lu :
  search_inv g ((d, c) :: pq) settled m →
  findLocation g c = Some (u, lu) →
  g !! u = Some lu ∧ getId lu = c ∧ getDistance lu ≤ d
  ∧ m ≤ d ≤ Z.of_nat (length settled) * W.
Proof.
  intros Hinv Hf. apply findLocation_Some in Hf as [Hu Hid].
  destruct (inv_pq _ _ _ _ Hinv d c) as (Hb & v & l & Hl & Hidl & Hd);
    [apply list_elem_of_here|].
  assert (v = u) as ->.
  { eapply (net_ids_inj g); [by eapply inv_net|done..|congruence]. }
  by simplify_eq.
Qed.

(** Popping an entry that is out of date. *)
Lemma search_inv_stale g d c pq settled m u lu :
  search_inv g ((d, c) :: pq) settled m →
  findLocation g c = Some (u, lu) →
  d > getDistance lu →
  search_inv g pq settled m.
Proof.
  intros Hinv Hf Hgt.
  destruct (search_inv_top _ _ _ _ _ _ _ _ Hinv Hf) as (Hu & Hid & _ & _).
  destruct Hinv as [Hnet Hnd Hlt Hm Hsorted Hpqnd Hpq Hopen Hclosed Hsrc Hpn Hp].
  split; try done.
  - by apply StronglySorted_inv in Hsorted as [? _].
  - by apply NoDup_cons in Hpqnd as [_ ?].
  - intros d' c' Hin. apply Hpq. by apply list_elem_of_further.
  - intros v l Hl Hfin Hv.
    specialize (Hopen v l Hl Hfin Hv).
    apply elem_of_cons in Hopen as [Heq|?]; [|done].
    simplify_eq.
    assert (v = u) as -> by (by eapply (net_ids_inj g)).
    simplify_eq. lia.
  - intros x l Hx Hl. destruct (Hclosed x l Hx Hl) as [? Hnin].
    split; [done|]. intros Hin. apply Hnin. by apply list_elem_of_further.
Qed.

(** Popping an up-to-date entry settles its location. *)
Lemma search_inv_settle g d c pq settled m u lu :
  search_inv g ((d, c) :: pq) settled m →
  findLocation g c = Some (u, lu) →
  ¬ d > getDistance lu →
  search_inv g pq (u :: settled) d ∧ (u ∉ settled) ∧ getDistance lu = d.
Proof.
  intros Hinv Hf Hgt.
  destruct (search_inv_top _ _ _ _ _ _ _ _ Hinv Hf) as (Hu & Hid & Hle & Hmd & HdW).
  assert (getDistance lu = d) as Hd by lia.
  destruct Hinv as [Hnet Hnd Hlt Hm Hsorted Hpqnd Hpq Hopen Hclosed Hsrc Hpn Hp].
  assert (u ∉ settled) as Hnew.
  { intros Hin. destruct (Hclosed u lu Hin Hu) as [_ Hnin].
    apply Hnin. rewrite Hd, Hid. apply list_elem_of_here. }
  apply NoDup_cons in Hpqnd as [Hhead Hpqnd].
  split_and!; [|done..]. split; try done.
  - by constructor.
  - intros x [->|Hx]%elem_of_cons; [|by apply Hlt].
    rewrite (same_network_length _ _ Hnet). by eapply lookup_lt_Some.
  - simpl. lia.
  - by apply StronglySorted_inv in Hsorted as [? _].
  - intros d' c' Hin.
    destruct (Hpq d' c') as [Hb Hex]; [by apply list_elem_of_further|].
    split; [|done]. split; [by eapply pq_sorted_top|].
    simpl length. nia.
  - intros v l Hl Hfin Hv.
    apply not_elem_of_cons in Hv as [Hvu Hv].
    specialize (Hopen v l Hl Hfin Hv).
    apply elem_of_cons in Hopen as [Heq|?]; [|done].
    simplify_eq. exfalso. apply Hvu. by eapply (net_ids_inj g).
  - intros x l [->|Hx]%elem_of_cons Hl.
    + rewrite Hu in Hl. injection Hl as <-. split; [lia|by rewrite Hd, Hid].
    + destruct (Hclosed x l Hx Hl) as [? Hnin].
      split; [lia|]. intros Hin. apply Hnin. by apply list_elem_of_further.
  - intros v l r Hl Hpar.
    destruct (Hp v l r Hl Hpar)
      as (? & ? & ? & ? & lo & ? & ? & Hos & ? & ? & ? & Hbefore).
    split_and!; [done..|]. exists lo. split_and!; try done.
    + by apply list_elem_of_further.
    + intros [|x s1] s2 Heq; simplify_eq/=; [done|]. by eapply Hbefore.
Qed.

(** The tentative distance computed for a road out of the location being
    settled stays within the range of [int]. *)
Lemma relax_bound g pq settled d u lu road :
  search_inv g pq (u :: settled) d →
  g !! u = Some lu → road ∈ getAdj lu →
  edgeWeightOf isDriving road ≠ INF →
  wrap (d + edgeWeightOf isDriving road) = d + edgeWeightOf isDriving road
  ∧ d ≤ d + edgeWeightOf isDriving road
      ≤ Z.of_nat (length (u :: settled)) * W
  ∧ d + edgeWeightOf isDriving road < INF.
Proof.
  intros Hinv Hu Hroad Hw.
  destruct (net_road g u lu road (inv_net _ _ _ _ Hinv) Hu Hroad)
    as (_ & _ & [?|Hwb]); [done|].
  pose proof (inv_m _ _ _ _ Hinv) as Hm. simpl in Hm.
  pose proof (NoDup_bounded_length _ _ (inv_settled_nodup _ _ _ _ Hinv)
                (inv_settled_lt _ _ _ _ Hinv)) as Hlen.
  simpl length in *.
  assert (d + edgeWeightOf isDriving road ≤ Z.of_nat (S (length settled)) * W)
    as Hle by nia.
  assert (Z.of_nat (S (length settled)) * W ≤ Z.of_nat (length g0) * W)
    as Hle' by nia.
  split_and!; [|lia..].
  apply wrap_small. unfold INF in *. lia.
Qed.

(** One successful relaxation. *)
Lemma search_inv_relax g pq settled d u lu road dst :
  search_inv g pq (u :: settled) d →
  g !! u = Some lu → getDistance lu = d → getId lu ∉ blockedNodes →
  road ∈ getAdj lu → edgeWeightOf isDriving road ≠ INF →
  g !! getDestination road = Some dst →
  (getId lu, getId dst) ∉ blockedSegments →
  wrap (d + edgeWeightOf isDriving road) < getDistance dst →
  (getDestination road ∉ u :: settled)
  ∧ search_inv
      (<[getDestination road :=
           setParent (Some road)
             (setDistance (wrap (d + edgeWeightOf isDriving road)) dst)]> g)
      (pq_emplace (wrap (d + edgeWeightOf isDriving road), getId dst) pq)
      (u :: settled) d.
Proof.
  intros Hinv Hu Hdu Hnb Hroad Hw Hdst Hbs Hlt.
  destruct (relax_bound _ _ _ _ _ _ _ Hinv Hu Hroad Hw) as (Hwrap & Hnd & Hfin).
  rewrite Hwrap in *.
  set (nd := d + edgeWeightOf isDriving road) in *.
  set (v := getDestination road) in *.
  destruct (net_road g u lu road (inv_net _ _ _ _ Hinv) Hu Hroad)
    as (Horigin & _ & _).
  destruct Hinv as [Hnet Hsnd Hslt Hm Hsorted Hpqnd Hpq Hopen Hclosed Hsrc Hpn Hp].
  assert (v ∉ u :: settled) as Hv.
  { intros Hin. destruct (Hclosed v dst Hin Hdst) as [? _]. lia. }
  assert (v ≠ si) as Hvsi.
  { intros ->. destruct Hsrc as (ls & Hls & Hd0 & _). simplify_eq. lia. }
  assert (v ≠ u) as Hvu.
  { intros ->. apply Hv, list_elem_of_here. }
  assert ((v < length g)%nat) as Hvlen by (by eapply lookup_lt_Some).
  set (dst' := setParent (Some road) (setDistance nd dst)).
  assert (<[v := dst']> g !! v = Some dst') as Hv'
    by (by apply list_lookup_insert_eq).
  assert (same_network g (<[v := dst']> g)) as Hsame
    by (by apply same_network_insert).
  split; [done|]. split; try done.
  - by eapply same_network_trans.
  - by apply pq_emplace_sorted.
  - apply NoDup_pq_emplace; [|done].
    intros Hin. destruct (Hpq _ _ Hin) as (_ & v' & l' & Hl' & Hid' & Hd').
    assert (v' = v) as -> by (by eapply (net_ids_inj g)).
    simplify_eq. lia.
  - intros d' c' [Heq|Hin]%elem_of_pq_emplace.
    + simplify_eq. split; [lia|]. exists v, dst'. by split_and!.
    + destruct (Hpq _ _ Hin) as (Hb & v' & l' & Hl' & Hid' & Hd').
      split; [done|].
      destruct (decide (v' = v)) as [->|Hne].
      * simplify_eq. exists v, dst'. split_and!; [done|done|simpl; lia].
      * exists v', l'. by rewrite list_lookup_insert_ne.
  - intros x l Hl Hxfin Hx. apply elem_of_pq_emplace.
    apply list_lookup_insert_Some in Hl as [(<- & <- & _)|[Hne Hl]].
    + by left.
    + right. by apply (Hopen x).
  - intros x l Hx Hl.
    assert (v ≠ x) as Hne by (by intros ->).
    rewrite list_lookup_insert_ne in Hl by done.
    destruct (Hclosed x l Hx Hl) as [? Hnin]. split; [done|].
    intros [Heq|Hin]%elem_of_pq_emplace; [|done].
    simplify_eq. apply Hne. symmetry. by eapply (net_ids_inj g).
  - destruct Hsrc as (ls & Hls & ? & ?). exists ls.
    by rewrite list_lookup_insert_ne.
  - intros x l Hl Hnone.
    apply list_lookup_insert_Some in Hl as [(<- & <- & _)|[Hne Hl]]; [done|].
    by eapply Hpn.
  - intros x l r Hl Hpar.
    apply list_lookup_insert_Some in Hl as [(<- & <- & _)|[Hne Hl]].
    + simpl in Hpar. simplify_eq. split_and!; [done|done|done|simpl; lia|].
      exists lu.
      split_and!; [by rewrite list_lookup_insert_ne|done|apply list_elem_of_here|
                   done|done|done|].
      intros s1 s2 Heq. exfalso. apply Hv. rewrite Heq. set_solver.
    + destruct (Hp x l r Hl Hpar)
        as (? & ? & ? & ? & lo & Hlo & ? & Hos & ? & ? & ? & Hbefore).
      split_and!; [done..|]. exists lo.
      split_and!; [|done..].
      rewrite list_lookup_insert_ne; [done|].
      intros Heq. apply Hv. by rewrite Heq.
Qed.

Definition finite_at (g : Graph) (v : nat) : Prop :=
  ∃ l, g !! v = Some l ∧ getDistance l ≠ INF.

(** The [for] loop over the roads of the location being settled. *)
Lemma relax_roads_inv settled d u lu roads :
  ∀ g pq,
    search_inv g pq (u :: settled) d →
    g !! u = Some lu → getDistance lu = d → getId lu ∉ blockedNodes →
    roads ⊆ getAdj lu →
    ∃ g' pq',
      relax_roads isDriving blockedSegments d (getId lu) roads g pq
        = Some (g', pq')
      ∧ search_inv g' pq' (u :: settled) d
      ∧ g' !! u = Some lu
      ∧ (length pq' ≤ length pq + length roads)%nat
      ∧ (∀ x, finite_at g x → finite_at g' x)
      ∧ (∀ road, road ∈ roads →
           edgeWeightOf isDriving road ≠ INF →
           (getId lu, id_at g0 (getDestination road)) ∉ blockedSegments →
           finite_at g' (getDestination road)).
Proof.
  induction roads as [|road rest IH]; intros g pq Hinv Hu Hdu Hnb Hsub.
  { exists g, pq. split_and!; [done|done|done|simpl; lia|done|].
    intros road Hin. by apply elem_of_nil in Hin. }
  assert (road ∈ getAdj lu) as Hroad by set_solver.
  assert (rest ⊆ getAdj lu) as Hrest by set_solver.
  simpl. case_decide as Hw.
  { destruct (IH g pq Hinv Hu Hdu Hnb Hrest)
      as (g' & pq' & Hrun & Hinv' & Hu' & Hlen & Hmono & Hcl).
    exists g', pq'. split_and!; [done|done|done|simpl; lia|done|].
    intros r [->|Hin]%elem_of_cons; [done|by apply Hcl]. }
  destruct (net_road g u lu road (inv_net _ _ _ _ Hinv) Hu Hroad)
    as (_ & [dst Hdst] & _).
  rewrite Hdst.
  assert (id_at g0 (getDestination road) = getId dst) as Hdid.
  { rewrite (id_at_same_network _ _ _ (inv_net _ _ _ _ Hinv)).
    by apply id_at_lookup. }
  case_decide as Hbs.
  { destruct (IH g pq Hinv Hu Hdu Hnb Hrest)
      as (g' & pq' & Hrun & Hinv' & Hu' & Hlen & Hmono & Hcl).
    exists g', pq'. split_and!; [done|done|done|simpl; lia|done|].
    intros r [->|Hin]%elem_of_cons; [|by apply Hcl].
    intros _ Hn. by rewrite Hdid in Hn. }
  destruct (relax_bound _ _ _ _ _ _ _ Hinv Hu Hroad Hw) as (Hwrap & Hnd & Hfin).
  case_decide as Hlt.
  - destruct (search_inv_relax _ _ _ _ _ _ _ _ Hinv Hu Hdu Hnb Hroad Hw Hdst Hbs Hlt)
      as [Hv Hinv1].
    assert (getDestination road ≠ u) as Hvu.
    { intros Heq. apply Hv. rewrite Heq. apply list_elem_of_here. }
    set (g1 := <[getDestination road := _]> g) in *.
    assert (g1 !! u = Some lu) as Hu1.
    { unfold g1. by rewrite list_lookup_insert_ne. }
    assert (finite_at g1 (getDestination road)) as Hfin1.
    { eexists. split.
      - unfold g1. apply list_lookup_insert_eq. by eapply lookup_lt_Some.
      - simpl. lia. }
    assert (∀ x, finite_at g x → finite_at g1 x) as Hmono1.
    { intros x (l & Hl & Hlfin).
      destruct (decide (x = getDestination road)) as [->|Hne]; [done|].
      exists l. unfold g1. by rewrite list_lookup_insert_ne. }
    destruct (IH g1 _ Hinv1 Hu1 Hdu Hnb Hrest)
      as (g' & pq' & Hrun & Hinv' & Hu' & Hlen & Hmono & Hcl).
    exists g', pq'. split_and!; [done|done|done| |by auto|].
    + rewrite length_pq_emplace in Hlen. simpl. lia.
    + intros r [->|Hin]%elem_of_cons; [by auto|by apply Hcl].
  - destruct (IH g pq Hinv Hu Hdu Hnb Hrest)
      as (g' & pq' & Hrun & Hinv' & Hu' & Hlen & Hmono & Hcl).
    exists g', pq'. split_and!; [done|done|done|simpl; lia|done|].
    intros r [->|Hin]%elem_of_cons; [|by apply Hcl].
    intros _ _. apply Hmono. exists dst. split; [done|]. lia.
Qed.

(** *** Termination measure *)

Lemma pending_settle_aux u settled (l : list nat) :
  u ∉ settled → NoDup l →
  (sum_list_with (λ i, if decide (i ∈ u :: settled) then 0 else degree g0 i) l
   + (if decide (u ∈ l) then degree g0 u else 0)
   = sum_list_with (λ i, if decide (i ∈ settled) then 0 else degree g0 i) l)%nat.
Proof.
  intros Hu. induction l as [|x l IH]; intros Hnd.
  { rewrite (decide_False (P := u ∈ [])) by apply not_elem_of_nil. done. }
  apply NoDup_cons in Hnd as [Hx Hnd]. specialize (IH Hnd).
  change (sum_list_with ?f (x :: l)) with (f x + sum_list_with f l)%nat.
  cbv beta.
  destruct (decide (x = u)) as [->|Hne].
  - rewrite (decide_True (P := u ∈ u :: settled)) by apply list_elem_of_here.
    rewrite (decide_True (P := u ∈ u :: l)) by apply list_elem_of_here.
    rewrite (decide_False (P := u ∈ settled)) by done.
    rewrite (decide_False (P := u ∈ l)) in IH by done. lia.
  - rewrite (decide_ext (x ∈ u :: settled) (x ∈ settled))
      by (rewrite elem_of_cons; naive_solver).
    rewrite (decide_ext (u ∈ x :: l) (u ∈ l))
      by (rewrite elem_of_cons; naive_solver).
    lia.
Qed.

Lemma pending_settle u settled :
  u ∉ settled → (u < length g0)%nat →
  (pending g0 (u :: settled) + degree g0 u = pending g0 settled)%nat.
Proof.
  intros Hu Hlt. unfold pending.
  rewrite <- (pending_settle_aux u settled (seq 0 (length g0)) Hu (NoDup_seq _ _)).
  rewrite decide_True; [done|]. apply elem_of_seq. lia.
Qed.

(** *** The [while] loop *)

(** Every usable road out of a settled, unblocked location leads to a
    location with a finite distance. *)
Definition relaxed_from (g : Graph) (settled : list nat) : Prop :=
  ∀ u l0 road,
    u ∈ settled → g0 !! u = Some l0 → getId l0 ∉ blockedNodes →
    road ∈ getAdj l0 → edgeWeightOf isDriving road ≠ INF →
    (getId l0, id_at g0 (getDestination road)) ∉ blockedSegments →
    finite_at g (getDestination road).

Lemma search_loop_inv fuel :
  ∀ g pq settled m,
    search_inv g pq settled m → relaxed_from g settled →
    (length pq + pending g0 settled ≤ fuel)%nat →
    ∃ g' settled' m',
      search_loop fuel isDriving blockedNodes blockedSegments g pq = Some g'
      ∧ search_inv g' [] settled' m'
      ∧ relaxed_from g' settled'.
Proof.
  induction fuel as [|fuel IH]; intros g pq settled m Hinv Hrel Hfuel.
  { destruct pq; [|simpl in Hfuel; lia]. by exists g, settled, m. }
  destruct pq as [|[d c] pq]; [by exists g, settled, m|].
  simpl in Hfuel. simpl.
  destruct (inv_pq _ _ _ _ Hinv d c) as (_ & u & lu & Hu & Hid & _);
    [apply list_elem_of_here|].
  pose proof (net_find g u lu (inv_net _ _ _ _ Hinv) Hu) as Hfind.
  rewrite Hid in Hfind. rewrite Hfind.
  case_decide as Hstale.
  { apply (IH g pq settled m); [by eapply search_inv_stale|done|lia]. }
  destruct (search_inv_settle _ _ _ _ _ _ _ _ Hinv Hfind Hstale)
    as (Hinv1 & Hnew & Hd).
  destruct (net_lookup g u lu (inv_net _ _ _ _ Hinv) Hu) as (l0 & Hl0 & Hid0 & Hadj0).
  assert ((u < length g0)%nat) as Hult by (by eapply lookup_lt_Some).
  pose proof (pending_settle u settled Hnew Hult) as Hpend.
  assert (degree g0 u = length (getAdj lu)) as Hdeg.
  { unfold degree. by rewrite Hl0, <- Hadj0. }
  case_decide as Hblocked.
  { apply (IH g pq (u :: settled) d); [done| |lia].
    intros x lx road [->|Hx]%elem_of_cons Hlx Hnb; [|by eapply Hrel].
    simplify_eq. exfalso. apply Hnb. by rewrite Hid0. }
  rewrite <- Hid in Hblocked. rewrite <- Hid.
  destruct (relax_roads_inv settled d u lu (getAdj lu) g pq Hinv1 Hu Hd Hblocked
              (reflexivity _))
    as (g' & pq' & Hrun & Hinv' & Hu' & Hlen & Hmono & Hcl).
  rewrite Hrun.
  apply (IH g' pq' (u :: settled) d); [done| |lia].
  intros x lx road [->|Hx]%elem_of_cons Hlx Hnb Hroad Hw Hbs.
  - simplify_eq. apply Hcl; [by rewrite <- Hadj0|done|by rewrite <- Hid0].
  - apply Hmono. by eapply Hrel.
Qed.

(** *** The parent chain of a settled location *)

Lemma settled_finite g pq settled m u l :
  search_inv g pq settled m → u ∈ settled → g !! u = Some l →
  0 ≤ getDistance l < INF.
Proof.
  intros Hinv Hu Hl.
  destruct (inv_closed _ _ _ _ Hinv u l Hu Hl) as [Hd _].
  pose proof (inv_m _ _ _ _ Hinv) as Hm.
  pose proof (NoDup_bounded_length _ _ (inv_settled_nodup _ _ _ _ Hinv)
                (inv_settled_lt _ _ _ _ Hinv)) as Hlen.
  assert (Z.of_nat (pred (length settled)) * W ≤ Z.of_nat (length g0) * W) by nia.
  lia.
Qed.

Lemma settled_lookup g pq settled m u :
  search_inv g pq settled m → u ∈ settled → is_Some (g !! u).
Proof.
  intros Hinv Hu. apply lookup_lt_is_Some.
  rewrite <- (same_network_length _ _ (inv_net _ _ _ _ Hinv)).
  by eapply inv_settled_lt.
Qed.

Lemma chain_route g pq settled m v rs e :
  search_inv g pq settled m → parent_chain g v rs e →
  ∀ s1 s2, settled = s1 ++ v :: s2 →
    route g0 e (reverse rs) v
    ∧ Forall (usable isDriving blockedNodes blockedSegments g0) rs
    ∧ (∀ le lv, g !! e = Some le → g !! v = Some lv →
         getDistance lv = getDistance le + route_cost isDriving rs)
    ∧ (getOrigin <$> rs) ⊆ s2
    ∧ NoDup (v :: (getOrigin <$> rs))
    ∧ (length rs ≤ length s2)%nat
    ∧ e ∈ settled.
Proof.
  intros Hinv Hchain.
  induction Hchain as [v|v l r rs e Hl Hp Hchain IH]; intros s1 s2 Hsplit.
  { assert (v ∈ settled) as Hv by (rewrite Hsplit; set_solver).
    split_and!.
    - constructor. by eapply inv_settled_lt.
    - done.
    - intros le lv ??. simplify_eq. simpl. lia.
    - simpl. set_solver.
    - simpl. apply NoDup_singleton.
    - simpl. lia.
    - done. }
  destruct (inv_parent _ _ _ _ Hinv v l r Hl Hp)
    as (Hd & Hvsi & Hw & Hfin & lo & Hlo & Hr & Hos & Hdist & Hnb & Hbs & Hbefore).
  specialize (Hbefore s1 s2 Hsplit).
  destruct (list_elem_of_split _ _ Hbefore) as (t1 & t2 & Ht).
  destruct (IH (s1 ++ v :: t1) t2) as (Hroute & Huse & Hsum & Hsub & Hnd & Hlen & He).
  { rewrite Hsplit, Ht, <- app_assoc. done. }
  destruct (net_lookup g _ lo (inv_net _ _ _ _ Hinv) Hlo) as (lo0 & Hlo0 & Hido & Hadjo).
  destruct (net_lookup g _ l (inv_net _ _ _ _ Hinv) Hl) as (l0 & Hl0 & Hidl & _).
  assert (v ∉ s2) as Hvs2.
  { pose proof (inv_settled_nodup _ _ _ _ Hinv) as Hnds.
    rewrite Hsplit in Hnds. apply NoDup_app in Hnds as (_ & _ & Hnds).
    by apply NoDup_cons in Hnds as [? _]. }
  split_and!.
  - rewrite reverse_cons. rewrite <- Hd.
    eapply route_snoc; [exact Hroute|exact Hlo0|by rewrite Hadjo].
  - constructor; [|done]. split_and!; [done|..].
    + by rewrite (id_at_lookup _ _ _ Hlo0), Hido.
    + unfold road_segment.
      by rewrite (id_at_lookup _ _ _ Hlo0), Hd, (id_at_lookup _ _ _ Hl0), Hido, Hidl.
  - intros le lv Hle Hlv. simplify_eq. simpl.
    rewrite Hdist, (Hsum le lo Hle Hlo). lia.
  - simpl. intros x [->|Hx]%elem_of_cons; [done|].
    rewrite Ht. apply Hsub in Hx. set_solver.
  - simpl. constructor; [|done].
    intros [Heq|Hx]%elem_of_cons.
    + apply Hvs2. by rewrite Heq.
    + apply Hvs2. rewrite Ht. apply Hsub in Hx. set_solver.
  - rewrite Ht. rewrite length_app. simpl. lia.
  - done.
Qed.

(** The reconstruction loop reaches the source before its fuel runs
    out. *)
Lemma reconstruct_total g pq settled m sourceId :
  search_inv g pq settled m →
  ∀ k v s1 s2 bs0 path,
    settled = s1 ++ v :: s2 → (length s2 ≤ k)%nat →
    is_Some (reconstruct k g sourceId v bs0 path).
Proof.
  intros Hinv. induction k as [|k IH]; intros v s1 s2 bs0 path Hsplit Hlen;
    rewrite reconstruct_unfold.
  - assert (v ∈ settled) as Hv by (rewrite Hsplit; set_solver).
    destruct (settled_lookup _ _ _ _ _ Hinv Hv) as [l Hl]. rewrite Hl.
    destruct (getParent l) as [r|] eqn:Hp; [|done].
    case_decide; [done|].
    destruct (inv_parent _ _ _ _ Hinv v l r Hl Hp)
      as (_ & _ & _ & _ & lo & _ & _ & _ & _ & _ & _ & Hbefore).
    specialize (Hbefore s1 s2 Hsplit).
    destruct s2; [by apply elem_of_nil in Hbefore|simpl in Hlen; lia].
  - assert (v ∈ settled) as Hv by (rewrite Hsplit; set_solver).
    destruct (settled_lookup _ _ _ _ _ Hinv Hv) as [l Hl]. rewrite Hl.
    destruct (getParent l) as [r|] eqn:Hp; [|done].
    case_decide; [done|].
    destruct (inv_parent _ _ _ _ Hinv v l r Hl Hp)
      as (Hd & _ & _ & _ & lo & Hlo & _ & _ & _ & _ & _ & Hbefore).
    specialize (Hbefore s1 s2 Hsplit).
    rewrite Hlo, Hd, Hl.
    destruct (list_elem_of_split _ _ Hbefore) as (t1 & t2 & Ht).
    apply (IH _ (s1 ++ v :: t1) t2).
    + rewrite Hsplit, Ht, <- app_assoc. done.
    + rewrite Ht, length_app in Hlen. simpl in Hlen. lia.
Qed.

(** *** After the loop *)

Lemma finished_settled g settled m v :
  search_inv g [] settled m → finite_at g v → v ∈ settled.
Proof.
  intros Hinv (l & Hl & Hfin).
  destruct (decide (v ∈ settled)) as [|Hn]; [done|].
  pose proof (inv_open _ _ _ _ Hinv v l Hl Hfin Hn) as Hin.
  by apply elem_of_nil in Hin.
Qed.

(** Every location that a usable route reaches ends with a finite
    distance. *)
Lemma route_finite g settled m rs v :
  search_inv g [] settled m → relaxed_from g settled →
  route g0 si rs v →
  Forall (usable isDriving blockedNodes blockedSegments g0) rs →
  finite_at g v.
Proof.
  intros Hinv Hrel Hroute. remember si as u eqn:Hu.
  induction Hroute as [v Hv|u rs x lx r Hroute IH Hx Hr]; intros Huse.
  - destruct (inv_source _ _ _ _ Hinv) as (l & Hl & Hd & _).
    exists l. split; [by subst|]. rewrite Hd. done.
  - apply Forall_app in Huse as [Huse Hr'].
    apply Forall_singleton in Hr' as (Hw & Hnb & Hbs).
    specialize (IH Hu Huse).
    pose proof (finished_settled _ _ _ _ Hinv IH) as Hxs.
    pose proof (Hwf _ _ _ Hx Hr) as Ho.
    unfold road_segment in Hbs. rewrite Ho, (id_at_lookup _ _ _ Hx) in Hbs, Hnb.
    by eapply Hrel.
Qed.

(** The search on a well-formed network with bounded non-negative costs:
    it returns; the result is empty exactly when no usable route exists;
    otherwise it is a usable route whose cost is the returned total. *)
Theorem dijkstra_spec fuel sourceId destId ls di ld :
  findLocation g0 sourceId = Some (si, ls) →
  findLocation g0 destId = Some (di, ld) →
  (enough_fuel g0 ≤ fuel)%nat →
  ∃ r rs,
    dijkstra fuel g0 sourceId destId isDriving blockedNodes blockedSegments
      = Some r
    ∧ same_network g0 (res_graph r)
    ∧ res_blockedSegments r
      = list_to_set (road_segment g0 <$> rs) ∪ blockedSegments
    ∧ ((res_path r = [] ∧ res_cost r = 0 ∧ rs = []
        ∧ (∀ l, res_graph r !! di = Some l → getDistance l = INF)
        ∧ ∀ rs', route g0 si rs' di →
            ¬ Forall (usable isDriving blockedNodes blockedSegments g0) rs')
       ∨ (route g0 si rs di
          ∧ (∃ l, res_graph r !! di = Some l ∧ getDistance l = res_cost r)
          ∧ Forall (usable isDriving blockedNodes blockedSegments g0) rs
          ∧ res_path r = route_ids g0 si rs
          ∧ res_cost r = route_cost isDriving rs
          ∧ 0 ≤ res_cost r < INF
          ∧ NoDup (route_nodes si rs)
          ∧ parent_chain (res_graph r) di (reverse rs) si
          ∧ (length rs < length g0)%nat
          ∧ ∀ k, (length rs ≤ k)%nat →
              reconstruct k (res_graph r) sourceId di blockedSegments [destId]
              = Some (reverse (res_path r), res_blockedSegments r))).
Proof.
  intros Hsrc Hdst Hfuel. unfold dijkstra.
  destruct (findLocation_same_network _ _ _ _ _ (same_network_init g0) Hsrc)
    as (source & Hsrc0 & _).
  rewrite Hsrc0. cbv zeta.
  pose proof Hsrc0 as Hsid. apply findLocation_Some in Hsid as [_ Hsid].
  rewrite <- Hsid in Hsrc0.
  pose proof (search_inv_start g0 source (same_network_refl _) Hsrc0) as Hinv0.
  simpl pq_emplace. fold (start_graph g0 si source).
  rewrite <- Hsid.
  destruct (search_loop_inv fuel _ _ _ _ Hinv0) as (g' & settled & m & Hloop & Hinv & Hrel).
  { intros u l0 road Hu. by apply elem_of_nil in Hu. }
  { unfold enough_fuel in Hfuel. rewrite pending_nil. simpl. lia. }
  rewrite Hloop. rewrite Hsid.
  pose proof (inv_net _ _ _ _ Hinv) as Hnet.
  destruct (findLocation_same_network _ _ _ _ _ Hnet Hdst) as (ld' & Hdst' & _).
  rewrite Hdst'.
  pose proof Hdst' as Hdi. apply findLocation_Some in Hdi as [Hdi Hdid].
  case_decide as Hinf.
  { exists (mkResult [] 0 blockedSegments g'), []. simpl.
    split_and!; [done|done|set_solver|]. left. split_and!; [done..| |].
    { intros l Hl. by simplify_eq. }
    intros rs' Hroute Huse.
    destruct (route_finite _ _ _ _ _ Hinv Hrel Hroute Huse) as (l & Hl & Hfin).
    simplify_eq. }
  assert (di ∈ settled) as Hdis.
  { eapply finished_settled; [done|]. by exists ld'. }
  destruct (list_elem_of_split _ _ Hdis) as (s1 & s2 & Hsplit).
  pose proof (NoDup_bounded_length _ _ (inv_settled_nodup _ _ _ _ Hinv)
                (inv_settled_lt _ _ _ _ Hinv)) as Hslen.
  assert ((length s2 < length g0)%nat) as Hs2.
  { rewrite Hsplit, length_app in Hslen. simpl in Hslen. lia. }
  destruct (reconstruct_total _ _ _ _ sourceId Hinv fuel di s1 s2 blockedSegments
              [getId ld'] Hsplit) as [[path bs'] Hrec].
  { unfold enough_fuel in Hfuel. lia. }
  rewrite Hrec.
  destruct (reconstruct_steps _ _ _ _ _ _ _ _ Hrec) as (j & _ & Hj & Hmono).
  apply reconstruct_Some in Hrec
    as (rsb & e & le & Hchain & He & Hstop & _ & _ & -> & ->).
  destruct (chain_route _ _ _ _ _ _ _ Hinv Hchain s1 s2 Hsplit)
    as (Hroute & Huse & Hsum & Hsub & Hnd & Hlen & Hes).
  destruct (inv_source _ _ _ _ Hinv) as (lsrc & Hlsrc & Hd0 & Hp0).
  assert (getId lsrc = sourceId) as Hlsid.
  { apply findLocation_Some in Hsrc as [Hls <-].
    destruct (same_network_lookup _ _ _ _ Hnet Hls) as (l' & Hl' & Hid' & _).
    by simplify_eq. }
  assert (e = si) as ->.
  { destruct Hstop as [Hnone|Hid].
    - destruct (inv_parent_none _ _ _ _ Hinv e le He Hnone) as [|Hd]; [done|].
      pose proof (settled_finite _ _ _ _ _ _ Hinv Hes He). lia.
    - eapply (net_ids_inj g'); [done..|congruence]. }
  assert (parent_arrives g') as Harr.
  { intros v l r Hl Hp. by destruct (inv_parent _ _ _ _ Hinv v l r Hl Hp) as [? _]. }
  exists (mkResult (reverse ([getId ld'] ++ ((λ r, id_at g' (getOrigin r)) <$> rsb)))
            (getDistance ld')
            (list_to_set (road_segment g' <$> rsb) ∪ blockedSegments) g'),
         (reverse rsb).
  simpl. split_and!; [done|done| |right].
  - f_equal. apply set_eq. intros seg.
    rewrite !elem_of_list_to_set, !list_elem_of_fmap.
    setoid_rewrite elem_of_reverse.
    unfold road_segment.
    by setoid_rewrite (id_at_same_network _ _ _ Hnet).
  - assert (getDistance ld' = route_cost isDriving rsb) as Hcost'.
    { rewrite (Hsum lsrc ld' Hlsrc Hdi), Hd0. lia. }
    split_and!.
    + done.
    + by exists ld'.
    + by apply Forall_reverse.
    + rewrite <- (id_at_lookup _ _ _ Hdi).
      rewrite (chain_reverse (id_at g') _ _ _ _ Harr Hchain).
      unfold route_ids. rewrite (id_at_same_network _ _ si Hnet).
      f_equal. apply list_fmap_ext. intros _ r _.
      by rewrite (id_at_same_network _ _ _ Hnet).
    + by rewrite route_cost_reverse.
    + pose proof (settled_finite _ _ _ _ _ _ Hinv Hdis Hdi). lia.
    + pose proof (settled_finite _ _ _ _ _ _ Hinv Hdis Hdi). lia.
    + refine (eq_ind _ NoDup _ _ (chain_reverse (λ x, x) _ _ _ _ Harr Hchain)).
      by rewrite reverse_Permutation.
    + by rewrite reverse_involutive.
    + rewrite length_reverse. lia.
    + intros k Hk. rewrite length_reverse in Hk.
      rewrite reverse_involutive, <- Hdid. apply Hmono.
      rewrite length_app, length_fmap in Hj. simpl in Hj. lia.
Qed.

(** *** Optimality *)

(** Every usable road out of a settled, unblocked location has been
    relaxed: the distance at its end is at most the distance at its origin
    plus its cost. *)
Definition relaxed_le (g : Graph) (settled : list nat) : Prop :=
  ∀ u lu road,
    u ∈ settled → g !! u = Some lu → getId lu ∉ blockedNodes →
    road ∈ getAdj lu → edgeWeightOf isDriving road ≠ INF →
    (getId lu, id_at g0 (getDestination road)) ∉ blockedSegments →
    ∃ ld, g !! getDestination road = Some ld
          ∧ getDistance ld ≤ getDistance lu + edgeWeightOf isDriving road.

(** The [for] loop never raises a distance, leaves the settled locations
    alone and relaxes every usable road it visits. *)
Lemma relax_roads_le settled d u lu roads :
  ∀ g pq g' pq',
    search_inv g pq (u :: settled) d →
    g !! u = Some lu → getDistance lu = d → getId lu ∉ blockedNodes →
    roads ⊆ getAdj lu →
    relax_roads isDriving blockedSegments d (getId lu) roads g pq
      = Some (g', pq') →
    search_inv g' pq' (u :: settled) d
    ∧ (∀ x l, g !! x = Some l →
         ∃ l', g' !! x = Some l' ∧ getDistance l' ≤ getDistance l
               ∧ (x ∈ u :: settled → l' = l))
    ∧ (∀ road, road ∈ roads →
         edgeWeightOf isDriving road ≠ INF →
         (getId lu, id_at g0 (getDestination road)) ∉ blockedSegments →
         ∃ ld, g' !! getDestination road = Some ld
               ∧ getDistance ld ≤ d + edgeWeightOf isDriving road).
Proof.
  induction roads as [|road rest IH]; intros g pq g' pq' Hinv Hu Hdu Hnb Hsub Hrun.
  { simpl in Hrun. simplify_eq. split_and!; [done| |].
    - intros x l Hl. exists l. by split_and!.
    - intros road Hin. by apply elem_of_nil in Hin. }
  assert (road ∈ getAdj lu) as Hroad by set_solver.
  assert (rest ⊆ getAdj lu) as Hrest by set_solver.
  simpl in Hrun. case_decide as Hw.
  { destruct (IH g pq g' pq' Hinv Hu Hdu Hnb Hrest Hrun) as (Hinv' & Hmono & Hcl).
    split_and!; [done..|].
    intros r [->|Hin]%elem_of_cons; [done|by apply Hcl]. }
  destruct (g !! getDestination road) as [dst|] eqn:Hdst; [|done].
  assert (id_at g0 (getDestination road) = getId dst) as Hdid.
  { rewrite (id_at_same_network _ _ _ (inv_net _ _ _ _ Hinv)).
    by apply id_at_lookup. }
  case_decide as Hbs.
  { destruct (IH g pq g' pq' Hinv Hu Hdu Hnb Hrest Hrun) as (Hinv' & Hmono & Hcl).
    split_and!; [done..|].
    intros r [->|Hin]%elem_of_cons; [|by apply Hcl].
    intros _ Hn. by rewrite Hdid in Hn. }
  destruct (relax_bound _ _ _ _ _ _ _ Hinv Hu Hroad Hw) as (Hwrap & Hnd & Hfin).
  case_decide as Hlt.
  - destruct (search_inv_relax _ _ _ _ _ _ _ _ Hinv Hu Hdu Hnb Hroad Hw Hdst Hbs Hlt)
      as [Hv Hinv1].
    assert (getDestination road ≠ u) as Hvu.
    { intros Heq. apply Hv. rewrite Heq. apply list_elem_of_here. }
    set (g1 := <[getDestination road := _]> g) in *.
    assert (g1 !! u = Some lu) as Hu1.
    { unfold g1. by rewrite list_lookup_insert_ne. }
    destruct (IH g1 _ g' pq' Hinv1 Hu1 Hdu Hnb Hrest Hrun) as (Hinv' & Hmono & Hcl).
    assert (∃ ld, g' !! getDestination road = Some ld
                  ∧ getDistance ld ≤ d + edgeWeightOf isDriving road) as Hnow.
    { destruct (Hmono (getDestination road)
                  (setParent (Some road)
                     (setDistance (wrap (d + edgeWeightOf isDriving road)) dst)))
        as (ld & Hld & Hle & _).
      - unfold g1. apply list_lookup_insert_eq. by eapply lookup_lt_Some.
      - exists ld. split; [done|]. simpl in Hle. lia. }
    split_and!; [done| |].
    + intros x l Hl.
      destruct (decide (x = getDestination road)) as [->|Hne].
      * destruct Hnow as (ld & Hld & Hle). exists ld.
        split_and!; [done| |by intros ?].
        rewrite Hdst in Hl. injection Hl as <-. lia.
      * apply Hmono. unfold g1. by rewrite list_lookup_insert_ne.
    + intros r [->|Hin]%elem_of_cons; [by intros _ _|by apply Hcl].
  - destruct (IH g pq g' pq' Hinv Hu Hdu Hnb Hrest Hrun) as (Hinv' & Hmono & Hcl).
    split_and!; [done..|].
    intros r [->|Hin]%elem_of_cons; [|by apply Hcl].
    intros _ _. destruct (Hmono _ _ Hdst) as (ld & Hld & Hle & _).
    exists ld. split; [done|]. lia.
Qed.

Lemma search_loop_le fuel :
  ∀ g pq settled m g',
    search_inv g pq settled m → relaxed_le g settled →
    search_loop fuel isDriving blockedNodes blockedSegments g pq = Some g' →
    ∃ settled' m', search_inv g' [] settled' m' ∧ relaxed_le g' settled'.
Proof.
  induction fuel as [|fuel IH]; intros g pq settled m g' Hinv Hrel Hrun.
  { destruct pq as [|[??] ?]; [|done]. simpl in Hrun. simplify_eq.
    by exists settled, m. }
  destruct pq as [|[d c] pq].
  { simpl in Hrun. simplify_eq. by exists settled, m. }
  simpl in Hrun.
  destruct (inv_pq _ _ _ _ Hinv d c) as (_ & u & lu & Hu & Hid & _);
    [apply list_elem_of_here|].
  pose proof (net_find g u lu (inv_net _ _ _ _ Hinv) Hu) as Hfind.
  rewrite Hid in Hfind. rewrite Hfind in Hrun.
  case_decide as Hstale.
  { apply (IH g pq settled m g'); [by eapply search_inv_stale|done|done]. }
  destruct (search_inv_settle _ _ _ _ _ _ _ _ Hinv Hfind Hstale)
    as (Hinv1 & Hnew & Hd).
  case_decide as Hblocked.
  { apply (IH g pq (u :: settled) d g'); [done| |done].
    intros x lx road [->|Hx]%elem_of_cons Hlx Hnb; [|by eapply Hrel].
    rewrite Hu in Hlx. injection Hlx as <-. by rewrite Hid in Hnb. }
  rewrite <- Hid in Hblocked, Hrun.
  destruct (relax_roads _ _ _ _ _ _ _) as [[g1 pq1]|] eqn:Hrelax; [|done].
  destruct (relax_roads_le settled d u lu (getAdj lu) g pq g1 pq1 Hinv1 Hu Hd
              Hblocked (reflexivity _) Hrelax) as (Hinv' & Hmono & Hcl).
  apply (IH g1 pq1 (u :: settled) d g'); [done| |done].
  intros x lx road Hx Hlx Hnb Hroad Hw Hbs.
  destruct (settled_lookup _ _ _ _ _ Hinv1 Hx) as [lx0 Hlx0].
  destruct (Hmono _ _ Hlx0) as (lx' & Hlx' & _ & Hsame).
  specialize (Hsame Hx). simplify_eq.
  apply elem_of_cons in Hx as [->|Hx].
  - simplify_eq. by apply Hcl.
  - destruct (Hrel x lx road Hx Hlx0 Hnb Hroad Hw Hbs) as (ld & Hld & Hle).
    destruct (Hmono _ _ Hld) as (ld' & Hld' & Hle' & _).
    exists ld'. split; [done|]. lia.
Qed.

(** After the loop, the distance of a location is at most the cost of any
    usable route that leads to it from the source. *)
Lemma route_le g settled m rs v :
  search_inv g [] settled m → relaxed_le g settled →
  route g0 si rs v →
  Forall (usable isDriving blockedNodes blockedSegments g0) rs →
  ∃ l, g !! v = Some l ∧ getDistance l ≠ INF
       ∧ getDistance l ≤ route_cost isDriving rs.
Proof.
  intros Hinv Hrel Hroute. remember si as u eqn:Hu.
  induction Hroute as [v Hv|u rs x lx r Hroute IH Hx Hr]; intros Huse.
  - destruct (inv_source _ _ _ _ Hinv) as (l & Hl & Hd & _).
    exists l. subst. split_and!; [done|by rewrite Hd|simpl; lia].
  - apply Forall_app in Huse as [Huse Hr'].
    apply Forall_singleton in Hr' as (Hw & Hnb & Hbs).
    destruct (IH Hu Huse) as (l & Hl & Hfin & Hle).
    assert (x ∈ settled) as Hxs.
    { eapply finished_settled; [done|]. by exists l. }
    destruct (net_lookup g x l (inv_net _ _ _ _ Hinv) Hl) as (l0 & Hl0 & Hid0 & Hadj0).
    rewrite Hx in Hl0. injection Hl0 as <-.
    unfold road_segment in Hbs.
    rewrite (Hwf _ _ _ Hx Hr), (id_at_lookup _ _ _ Hx), Hid0 in Hbs, Hnb.
    rewrite Hadj0 in Hr.
    destruct (Hrel _ l r Hxs Hl Hnb Hr Hw Hbs) as (ld & Hld & Hled).
    destruct (net_road g _ l r (inv_net _ _ _ _ Hinv) Hl Hr) as (_ & _ & [?|Hwb]);
      [done|].
    destruct (inv_closed _ _ _ _ Hinv _ l Hxs Hl) as [Hdl _].
    pose proof (inv_m _ _ _ _ Hinv) as Hm.
    pose proof (NoDup_bounded_length _ _ (inv_settled_nodup _ _ _ _ Hinv)
                  (inv_settled_lt _ _ _ _ Hinv)) as Hlen.
    assert (length settled ≠ 0%nat) as Hne0.
    { intros H0. apply length_zero_iff_nil in H0. rewrite H0 in Hxs.
      by apply elem_of_nil in Hxs. }
    exists ld. split_and!; [done| |rewrite route_cost_app; simpl; lia].
    assert (getDistance ld ≤ Z.of_nat (length g0) * W) by nia.
    lia.
Qed.

(** The returned total is at most the cost of any usable route from the
    source to the destination. *)
Lemma dijkstra_shortest fuel sourceId destId ls di ld r rs :
  findLocation g0 sourceId = Some (si, ls) →
  findLocation g0 destId = Some (di, ld) →
  dijkstra fuel g0 sourceId destId isDriving blockedNodes blockedSegments
    = Some r →
  route g0 si rs di →
  Forall (usable isDriving blockedNodes blockedSegments g0) rs →
  res_path r ≠ [] ∧ res_cost r ≤ route_cost isDriving rs.
Proof.
  intros Hsrc Hdst Hrun Hroute Huse.
  apply dijkstra_Some in Hrun
    as (si' & source & g2 & di' & dst & Hsrc0 & Hloop & Hdst2 & Hg & Hres).
  destruct (findLocation_same_network _ _ _ _ _ (same_network_init g0) Hsrc)
    as (source' & Hsrc' & _).
  rewrite Hsrc' in Hsrc0. injection Hsrc0 as <- <-.
  pose proof Hsrc' as Hsid. apply findLocation_Some in Hsid as [_ Hsid].
  rewrite <- Hsid in Hsrc'.
  pose proof (search_inv_start g0 source' (same_network_refl _) Hsrc') as Hinv0.
  rewrite <- Hsid in Hloop.
  destruct (search_loop_le fuel _ _ _ _ g2 Hinv0) as (settled & m & Hinv & Hrel).
  { intros u lu road Hu. by apply elem_of_nil in Hu. }
  { exact Hloop. }
  destruct (findLocation_same_network _ _ _ _ _ (inv_net _ _ _ _ Hinv) Hdst)
    as (ld' & Hdst' & _).
  rewrite Hdst' in Hdst2. injection Hdst2 as <- <-.
  apply findLocation_Some in Hdst' as [Hdi _].
  destruct (route_le _ _ _ _ _ Hinv Hrel Hroute Huse) as (l & Hl & Hfin & Hle).
  simplify_eq.
  destruct Hres as [[Hinf _]|(_ & path & bs' & Hrec & ->)]; [done|]. simpl.
  split; [|done].
  apply reconstruct_Some in Hrec as (rsb & e & le & _ & _ & _ & _ & _ & -> & _).
  intros Hnil. apply (f_equal length) in Hnil.
  rewrite length_reverse, length_app in Hnil. simpl in Hnil. lia.
Qed.
End dijkstra_invariant.

(** ** Well-formed networks *)

Lemma network_ok_road isDriving W g i l r :
  network_ok isDriving W g → g !! i = Some l → r ∈ getAdj l →
  road_ok isDriving W g i r.
Proof.
  intros (_ & Hall & _) Hl Hr.
  assert (seq 0 (length g) !! i = Some i) as Hi.
  { apply lookup_seq. split; [done|]. by eapply lookup_lt_Some. }
  pose proof (Forall2_lookup_lr _ _ _ _ _ _ Hall Hi Hl) as Hroads.
  rewrite Forall_forall in Hroads. by apply Hroads.
Qed.

Lemma network_ok_wf_roads isDriving W g : network_ok isDriving W g → wf_roads g.
Proof.
  intros Hok i l r Hl Hr. by destruct (network_ok_road _ _ _ _ _ _ Hok Hl Hr).
Qed.

(** [dijkstra_spec] for a well-formed network. *)
Lemma dijkstra_spec_ok isDriving blockedNodes blockedSegments g W fuel
    sourceId destId si ls di ld :
  network_ok isDriving W g →
  findLocation g sourceId = Some (si, ls) →
  findLocation g destId = Some (di, ld) →
  (enough_fuel g ≤ fuel)%nat →
  ∃ r rs,
    dijkstra fuel g sourceId destId isDriving blockedNodes blockedSegments = Some r
    ∧ same_network g (res_graph r)
    ∧ res_blockedSegments r = list_to_set (road_segment g <$> rs) ∪ blockedSegments
    ∧ ((res_path r = [] ∧ res_cost r = 0 ∧ rs = []
        ∧ (∀ l, res_graph r !! di = Some l → getDistance l = INF)
        ∧ ∀ rs', route g si rs' di →
            ¬ Forall (usable isDriving blockedNodes blockedSegments g) rs')
       ∨ (route g si rs di
          ∧ (∃ l, res_graph r !! di = Some l ∧ getDistance l = res_cost r)
          ∧ Forall (usable isDriving blockedNodes blockedSegments g) rs
          ∧ res_path r = route_ids g si rs
          ∧ res_cost r = route_cost isDriving rs
          ∧ 0 ≤ res_cost r < INF
          ∧ NoDup (route_nodes si rs)
          ∧ parent_chain (res_graph r) di (reverse rs) si
          ∧ (length rs < length g)%nat
          ∧ ∀ k, (length rs ≤ k)%nat →
              reconstruct k (res_graph r) sourceId di blockedSegments [destId]
              = Some (reverse (res_path r), res_blockedSegments r))).
Proof.
  intros Hok. pose proof Hok as (Hids & _ & HW & Hrange).
  apply (dijkstra_spec isDriving blockedNodes blockedSegments g W si); try done.
  - by eapply network_ok_wf_roads.
  - intros i l r Hl Hr. by destruct (network_ok_road _ _ _ _ _ _ Hok Hl Hr) as (_ & ? & _).
  - intros i l r Hl Hr. by destruct (network_ok_road _ _ _ _ _ _ Hok Hl Hr) as (_ & _ & ?).
Qed.

(** *** The construction interface keeps roads in place *)

Lemma roads_in_place_nil : roads_in_place [].
Proof. by intros i l r ?. Qed.

Lemma addLocation_roads_in_place g i c p :
  roads_in_place g → roads_in_place (addLocation g i c p).
Proof.
  intros Hg j l r Hl Hr. unfold addLocation in *. rewrite length_app. simpl.
  apply lookup_app_Some in Hl as [Hl|[Hge Hl]].
  - destruct (Hg j l r Hl Hr). split; [done|lia].
  - apply list_lookup_singleton_Some in Hl as [_ <-]. simpl in Hr.
    by apply elem_of_nil in Hr.
Qed.

Lemma addRoadTo_roads_in_place g f t d w :
  roads_in_place g → (t < length g)%nat →
  roads_in_place (alter (addRoadTo (mkRoad f t d w)) f g).
Proof.
  intros Hg Ht j l r Hl Hr. rewrite length_alter.
  rewrite list_lookup_alter in Hl. case_decide as Hfj.
  - subst j. destruct (g !! f) as [l0|] eqn:Hl0; [|done].
    simpl in Hl. injection Hl as <-. simpl in Hr.
    apply elem_of_app in Hr as [Hr|Hr%list_elem_of_singleton].
    + by eapply Hg.
    + by subst r.
  - by eapply Hg.
Qed.

Lemma addRoad_roads_in_place g from to d w :
  roads_in_place g →
  (∀ f, from = Some f → (f < length g)%nat) →
  (∀ t, to = Some t → (t < length g)%nat) →
  roads_in_place (addRoad g from to d w).
Proof.
  intros Hg Hf Ht. unfold addRoad.
  destruct from as [f|]; [|done]. destruct to as [t|]; [|done].
  apply addRoadTo_roads_in_place.
  - apply addRoadTo_roads_in_place; auto.
  - rewrite length_alter. auto.
Qed.

Lemma findLocationByCode_lt g c f :
  fst <$> findLocationByCode g c = Some f → (f < length g)%nat.
Proof.
  unfold findLocationByCode.
  destruct (list_find _ g) as [[i l]|] eqn:Hf; [|done].
  intros [= <-]. apply list_find_Some in Hf as (Hl & _). by eapply lookup_lt_Some.
Qed.

(** [loadDistances] adds a road between the locations it finds by code. *)
Lemma addRoad_by_code_roads_in_place g a b d w :
  roads_in_place g →
  roads_in_place
    (addRoad g (fst <$> findLocationByCode g a) (fst <$> findLocationByCode g b) d w).
Proof.
  intros Hg. apply addRoad_roads_in_place; [done|..];
    intros f Hf; by eapply findLocationByCode_lt.
Qed.

Lemma roads_in_place_wf_roads g : roads_in_place g → wf_roads g.
Proof. intros Hg i l r Hl Hr. by destruct (Hg i l r Hl Hr). Qed.

(** ** The result does not depend on the transient state *)

Lemma dijkstra_same_network fuel g g' s d isDriving bn bs :
  same_network g g' →
  dijkstra fuel g' s d isDriving bn bs = dijkstra fuel g s d isDriving bn bs.
Proof. unfold dijkstra, same_network. by intros ->. Qed.

Lemma dijkstra_res_network fuel g s d isDriving bn bs r :
  dijkstra fuel g s d isDriving bn bs = Some r → same_network g (res_graph r).
Proof.
  intros Hrun. by destruct (dijkstra_path_roads _ _ _ _ _ _ _ _ Hrun)
    as (? & ? & ? & _ & _ & ? & _).
Qed.

(** ** Segments and positions of a path *)

Lemma path_segments_lookup p i a b :
  p !! i = Some a → p !! S i = Some b → (a, b) ∈ path_segments p.
Proof.
  revert i. induction p as [|x [|y q] IH]; intros i Ha Hb; [done|..].
  - by destruct i.
  - destruct i as [|i]; simpl in *.
    + simplify_eq. apply list_elem_of_here.
    + apply list_elem_of_further. by eapply IH.
Qed.

Lemma route_ids_snoc g u rs r :
  route_ids g u (rs ++ [r]) = route_ids g u rs ++ [id_at g (getDestination r)].
Proof. unfold route_ids. by rewrite fmap_app. Qed.

Lemma route_last g u rs v :
  route g u rs v → last (route_ids g u rs) = Some (id_at g v).
Proof.
  induction 1 as [v Hv|u rs x lx r Hroute IH Hx Hr]; [done|].
  by rewrite route_ids_snoc, last_snoc.
Qed.


Lemma route_segments g u rs v :
  route g u rs v → wf_roads g →
  path_segments (route_ids g u rs) = road_segment g <$> rs.
Proof.
  intros Hroute Hwf.
  induction Hroute as [v Hv|u rs x lx r Hroute IH Hx Hr]; [done|].
  rewrite route_ids_snoc, fmap_app.
  erewrite path_segments_snoc; [|by eapply route_last].
  rewrite IH. simpl. unfold road_segment. by rewrite (Hwf _ _ _ Hx Hr).
Qed.

(** ** Facts used by several claims *)

Lemma route_nil_inv g u v : route g u [] v → u = v.
Proof.
  intros Hroute. inversion Hroute as [|? rs ? ? ? ? ? ? Heq]; [done|].
  by destruct rs.
Qed.


(** No road of a returned path leaves a blocked location; this needs no
    assumption on costs or identifiers. *)
Lemma dijkstra_path_avoids_blocked_origins fuel g s d isDriving bn bs r :
  wf_roads g →
  dijkstra fuel g s d isDriving bn bs = Some r →
  ∀ i x, res_path r !! i = Some x → (S i < length (res_path r))%nat → x ∉ bn.
Proof.
  intros Hwf Hrun i x Hx Hi.
  destruct (lookup_lt_is_Some_2 _ _ Hi) as [y Hy].
  pose proof (path_segments_lookup _ _ _ _ Hx Hy) as Hin.
  destruct (dijkstra_path_roads _ _ _ _ _ _ _ _ Hrun)
    as (di & rs & e & _ & Hrel & _ & Hchain & Hsegs & _).
  assert (res_path r ≠ []) as Hne by (intros Heq; by rewrite Heq in Hx).
  rewrite Hsegs, elem_of_reverse, list_elem_of_fmap in Hin.
  destruct Hin as (road & Heq & Hroad).
  pose proof (chain_relaxed _ _ _ _ _ _ _ (Hrel Hwf) (Hchain Hne)) as Hall.
  rewrite Forall_forall in Hall. destruct (Hall _ Hroad) as [Hnb _].
  by rewrite <- Heq in Hnb.
Qed.

(** Two calls in sequence that share [blockedSegments] never return paths
    with a common directed segment; this needs no assumption on costs or
    identifiers. *)
Lemma sequential_calls_disjoint fuel1 fuel2 g s d isDriving bn bs r1 r2 :
  wf_roads g →
  dijkstra fuel1 g s d isDriving bn bs = Some r1 →
  dijkstra fuel2 (res_graph r1) s d isDriving bn (res_blockedSegments r1) = Some r2 →
  ∀ seg, seg ∈ path_segments (res_path r1) → seg ∉ path_segments (res_path r2).
Proof.
  intros Hwf Hrun1 Hrun2 seg Hin1 Hin2.
  destruct (dijkstra_path_roads _ _ _ _ _ _ _ _ Hrun1)
    as (di1 & rs1 & e1 & _ & _ & Hnet1 & _ & Hsegs1 & Hbs1).
  destruct (dijkstra_path_roads _ _ _ _ _ _ _ _ Hrun2)
    as (di2 & rs2 & e2 & _ & Hrel2 & _ & Hchain2 & Hsegs2 & _).
  assert (seg ∈ res_blockedSegments r1) as Hblocked.
  { rewrite Hbs1. rewrite Hsegs1, elem_of_reverse in Hin1. set_solver. }
  assert (res_path r2 ≠ []) as Hne.
  { intros Heq. rewrite Heq in Hin2. by apply elem_of_nil in Hin2. }
  rewrite Hsegs2, elem_of_reverse, list_elem_of_fmap in Hin2.
  destruct Hin2 as (road & -> & Hroad).
  pose proof (chain_relaxed _ _ _ _ _ _ _
                (Hrel2 (wf_roads_same_network _ _ Hnet1 Hwf)) (Hchain2 Hne)) as Hall.
  rewrite Forall_forall in Hall. by destruct (Hall _ Hroad) as [_ Hnot].
Qed.

(** Any earlier search, whatever its query, leaves a graph on which later
    searches behave as on the original one. *)
Lemma dijkstra_after_any_search fuel g s0 d0 m0 bn0 bs0 r0 s d isDriving bn bs :
  dijkstra fuel g s0 d0 m0 bn0 bs0 = Some r0 →
  dijkstra fuel (res_graph r0) s d isDriving bn bs
  = dijkstra fuel g s d isDriving bn bs.
Proof. intros Hrun. by eapply dijkstra_same_network, dijkstra_res_network. Qed.

(** ** EnvironmentallyFriendlyRoute *)

Section eco.
Context (fuel : nat) (g : Graph) (sourceId destId maxWalkingTime : Z)
        (avoidNodes : gset Z) (avoidSegments : gset (Z * Z)).

Local Abbreviation feasible :=
  (feasible_candidate fuel g sourceId destId maxWalkingTime avoidNodes
     avoidSegments).

Lemma eco_step_avoidSegments p st st' :
  eco_step fuel sourceId destId maxWalkingTime avoidNodes p st = Some st' →
  eco_avoidSegments st' = eco_avoidSegments st.
Proof.
  unfold eco_step. intros Hstep.
  destruct (negb (HasParking p) || _ || _); [by simplify_eq|].
  destruct (dijkstra _ _ _ _ _ _ _) as [dr|]; [|done].
  destruct (res_path dr); [by simplify_eq|].
  simpl in Hstep.
  destruct (dijkstra _ _ _ _ _ _ _) as [wr|]; [|done].
  destruct (res_path wr); [by simplify_eq|].
  repeat case_decide; by simplify_eq.
Qed.

Lemma eco_loop_avoidSegments ps st st' :
  eco_loop fuel sourceId destId maxWalkingTime avoidNodes ps st = Some st' →
  eco_avoidSegments st' = eco_avoidSegments st.
Proof.
  revert st. induction ps as [|p ps IH]; intros st Hloop; simpl in Hloop.
  - by simplify_eq.
  - destruct (eco_step _ _ _ _ _ _ _) as [st1|] eqn:Hstep; [|done].
    rewrite (IH _ Hloop). by eapply eco_step_avoidSegments.
Qed.

(** The loop invariant: the graph is still the same network, the caller's
    set is untouched, the best result (if any) is a feasible candidate
    among the locations visited so far, and none of those beats it. *)
Definition eco_inv (visited : list Location) (st : EcoState) : Prop :=
  same_network g (eco_graph st)
  ∧ eco_avoidSegments st = avoidSegments
  ∧ (bestDrive st ≠ [] →
     ∃ p, p ∈ visited ∧ getId p = bestParking st
          ∧ feasible p (bestDrive st) (bestWalk st) (bestTotalTime st)
              (bestWalkingTime st))
  ∧ ∀ q drive walk total walkt,
      q ∈ visited → feasible q drive walk total walkt →
      ¬ (total < bestTotalTime st
         ∨ (total = bestTotalTime st ∧ walkt < bestWalkingTime st)).

Lemma eco_inv_skip visited p st :
  eco_inv visited st →
  (∀ drive walk total walkt, ¬ feasible p drive walk total walkt) →
  eco_inv (visited ++ [p]) st.
Proof.
  intros (Hnet & Havoid & Hbest & Hopt) Hno. split_and!; [done..| |].
  - intros Hne. destruct (Hbest Hne) as (p0 & ? & ? & ?).
    exists p0. split_and!; [set_solver|done..].
  - intros q drive walk total walkt [Hq|Hq%list_elem_of_singleton]%elem_of_app Hf.
    + by eapply Hopt.
    + subst q. by destruct (Hno _ _ _ _ Hf).
Qed.

Lemma eco_step_inv visited p st st' :
  eco_inv visited st →
  eco_step fuel sourceId destId maxWalkingTime avoidNodes p st = Some st' →
  eco_inv (visited ++ [p]) st'.
Proof.
  intros Hinv Hstep. pose proof Hinv as (Hnet & Havoid & Hbest & Hopt).
  unfold eco_step in Hstep.
  destruct (HasParking p) eqn:Hpark; simpl in Hstep; last first.
  { simplify_eq. apply eco_inv_skip; [done|].
    intros ???? (? & _). congruence. }
  case_bool_decide as Hps; simpl in Hstep.
  { simplify_eq. apply eco_inv_skip; [done|]. by intros ???? (_ & ? & _). }
  case_bool_decide as Hpd; simpl in Hstep.
  { simplify_eq. apply eco_inv_skip; [done|]. by intros ???? (_ & _ & ? & _). }
  rewrite (dijkstra_same_network _ _ _ _ _ _ _ _ Hnet), Havoid in Hstep.
  destruct (dijkstra fuel g sourceId (getId p) true avoidNodes avoidSegments)
    as [dr|] eqn:Hdr; [|done].
  pose proof (dijkstra_res_network _ _ _ _ _ _ _ _ Hdr) as Hnet1.
  destruct (res_path dr) as [|x drive] eqn:Hdrive.
  { simplify_eq.
    apply (eco_inv_skip visited p (eco_with_graph (res_graph dr) st)).
    - by split_and!.
    - intros ???? (_ & _ & _ & dr' & wr' & Hdr' & Hne & _). by simplify_eq. }
  simpl in Hstep.
  rewrite (dijkstra_same_network _ _ _ _ _ _ _ _ Hnet1) in Hstep.
  destruct (dijkstra fuel g (getId p) destId false avoidNodes
              (res_blockedSegments dr)) as [wr|] eqn:Hwr; [|done].
  pose proof (dijkstra_res_network _ _ _ _ _ _ _ _ Hwr) as Hnet2.
  destruct (res_path wr) as [|y walk] eqn:Hwalk.
  { simplify_eq.
    apply (eco_inv_skip visited p
             (eco_with_graph (res_graph wr) (eco_with_graph (res_graph dr) st))).
    - by split_and!.
    - intros ???? (_ & _ & _ & dr' & wr' & Hdr' & _ & Hwr' & Hne & _).
      by simplify_eq. }
  simpl in Hstep.
  assert (∀ drive' walk' total walkt,
            feasible p drive' walk' total walkt →
            total = wrap (res_cost dr + res_cost wr) ∧ walkt = res_cost wr
            ∧ Z.max 0 (wrap (res_cost wr - maxWalkingTime)) = 0) as Hdet.
  { intros ???? (_ & _ & _ & dr' & wr' & Hdr' & _ & Hwr' & _ & _ & _ & ? & ? & ?).
    by simplify_eq. }
  case_decide as Hexceed; last first.
  { simplify_eq.
    assert (eco_inv (visited ++ [p])
              (eco_with_graph (res_graph wr) (eco_with_graph (res_graph dr) st)))
      as (? & ? & ? & ?).
    { apply eco_inv_skip; [by split_and!|].
      intros ???? Hf. by destruct (Hdet _ _ _ _ Hf) as (_ & _ & ?). }
    by split_and!. }
  case_decide as Hbetter; simplify_eq; split_and!; simpl; try done.
  - intros _. exists p. split_and!; [set_solver|done|].
    split_and!; [done..|]. exists dr, wr. rewrite Hdrive, Hwalk. by split_and!.
  - intros q drive' walk' total walkt
      [Hq|Hq%list_elem_of_singleton]%elem_of_app Hf.
    + specialize (Hopt q _ _ _ _ Hq Hf). lia.
    + subst q. destruct (Hdet _ _ _ _ Hf) as (-> & -> & _). lia.
  - intros Hne. destruct (Hbest Hne) as (p0 & ? & ? & ?).
    exists p0. split_and!; [set_solver|done..].
  - intros q drive' walk' total walkt
      [Hq|Hq%list_elem_of_singleton]%elem_of_app Hf.
    + by eapply Hopt.
    + subst q. by destruct (Hdet _ _ _ _ Hf) as (-> & -> & _).
Qed.

Lemma eco_loop_inv ps :
  ∀ visited st st',
    eco_inv visited st →
    eco_loop fuel sourceId destId maxWalkingTime avoidNodes ps st = Some st' →
    eco_inv (visited ++ ps) st'.
Proof.
  induction ps as [|p ps IH]; intros visited st st' Hinv Hloop; simpl in Hloop.
  - simplify_eq. by rewrite app_nil_r.
  - destruct (eco_step _ _ _ _ _ _ _) as [st1|] eqn:Hstep; [|done].
    rewrite (cons_middle p visited ps), app_assoc.
    eapply IH; [|done]. by eapply eco_step_inv.
Qed.
End eco.

Lemma EnvironmentallyFriendlyRoute_Some fuel g s d maxWalkingTime bn bs st :
  EnvironmentallyFriendlyRoute fuel g s d maxWalkingTime bn bs = Some st →
  ∃ st0,
    eco_loop fuel s d maxWalkingTime bn g (mkEco g bs INF INF [] [] (-1) [])
      = Some st0
    ∧ eco_graph st = eco_graph st0
    ∧ eco_avoidSegments st = eco_avoidSegments st0
    ∧ bestTotalTime st = bestTotalTime st0
    ∧ bestWalkingTime st = bestWalkingTime st0
    ∧ bestDrive st = bestDrive st0 ∧ bestWalk st = bestWalk st0
    ∧ bestParking st = bestParking st0.
Proof.
  unfold EnvironmentallyFriendlyRoute. intros Hrun.
  destruct (eco_loop _ _ _ _ _ _ _) as [st0|]; [|done].
  exists st0. split; [done|]. case_decide; by simplify_eq.
Qed.

(** The planner returns.

    On a network that is well-formed for both modes and contains the source
    and the destination, every search of the planner returns, and so does
    the planner. *)

Lemma eco_step_returns W fuel g s d maxWalkingTime bn si ls di ld p st :
  network_ok true W g → network_ok false W g →
  findLocation g s = Some (si, ls) →
  findLocation g d = Some (di, ld) →
  (enough_fuel g ≤ fuel)%nat →
  p ∈ g → same_network g (eco_graph st) →
  ∃ st', eco_step fuel s d maxWalkingTime bn p st = Some st'
         ∧ same_network g (eco_graph st').
Proof.
  intros Hdrive Hwalk Hsrc Hdst Hfuel Hp Hnet. unfold eco_step.
  destruct (negb (HasParking p) || _ || _); [by exists st|].
  apply list_elem_of_lookup in Hp as [pi Hpi].
  pose proof Hdrive as (Hids & _).
  pose proof (findLocation_unique _ _ _ Hids Hpi) as Hfind.
  rewrite (dijkstra_same_network _ _ _ _ _ _ _ _ Hnet).
  destruct (dijkstra_spec_ok true bn (eco_avoidSegments st) g W fuel s (getId p)
              si ls pi p Hdrive Hsrc Hfind Hfuel)
    as (dr & _ & -> & Hnet1 & _).
  destruct (res_path dr); [by eexists|]. simpl.
  rewrite (dijkstra_same_network _ _ _ _ _ _ _ _ Hnet1).
  destruct (dijkstra_spec_ok false bn (res_blockedSegments dr) g W fuel (getId p) d
              pi p di ld Hwalk Hfind Hdst Hfuel)
    as (wr & _ & -> & Hnet2 & _).
  destruct (res_path wr); [by eexists|].
  repeat case_decide; by eexists.
Qed.

Lemma EnvironmentallyFriendlyRoute_returns W fuel g s d maxWalkingTime bn bs
    si ls di ld :
  network_ok true W g → network_ok false W g →
  findLocation g s = Some (si, ls) →
  findLocation g d = Some (di, ld) →
  (enough_fuel g ≤ fuel)%nat →
  is_Some (EnvironmentallyFriendlyRoute fuel g s d maxWalkingTime bn bs).
Proof.
  intros Hdrive Hwalk Hsrc Hdst Hfuel. unfold EnvironmentallyFriendlyRoute.
  assert (∀ ps st, ps ⊆ g → same_network g (eco_graph st) →
            is_Some (eco_loop fuel s d maxWalkingTime bn ps st)) as Hloop.
  { induction ps as [|p ps IH]; intros st Hsub Hnet; simpl; [done|].
    destruct (eco_step_returns W fuel g s d maxWalkingTime bn si ls di ld p st)
      as (st' & -> & Hnet'); [done..|set_solver|done|].
    apply IH; [set_solver|done]. }
  destruct (Hloop g (mkEco g bs INF INF [] [] (-1) [])) as [st ->]; done.
Qed.

(** ** writeOutputFile *)

(** The suggestions case runs its loop for [i = 0] and [i = 1] whatever
    the size of [output.suggestions]: with exactly one suggestion the second
    iteration reads [output.suggestions[1]], past the end of the vector. *)
Lemma writeOutputFile_single_suggestion output s :
  out_TypeOfInput output = 2 →
  out_hasSuggestions output = true →
  out_suggestions output = [s] →
  writeOutputFile output = None.
Proof.
  intros Htype Hsugg Hlist. unfold writeOutputFile.
  rewrite Htype, Hsugg, Hlist. simpl.
  rewrite !andb_false_r. simpl.
  by destruct (write_suggestion [s] 0).
Qed.

(** With two suggestions or more the loop stays in bounds and writes two
    of them. *)
Lemma write_suggestions_in_bounds suggestions :
  (2 ≤ length suggestions)%nat → is_Some (write_suggestions suggestions 0 2).
Proof.
  destruct suggestions as [|s1 [|s2 rest]]; simpl; [lia..|]. intros _. eauto.
Qed.

(** * The specification, claim by claim *)

Example example_plain_query :
  (λ r, (res_path r, res_cost r)) <$> dijkstra 10 example_network 1 3 true ∅ ∅
  = Some ([1; 2; 3], 9).
Proof. reflexivity. Qed.



(** C2: after a call that returns a non-empty path, every directed
    (origin, destination) identifier pair of two consecutive elements of the
    path is a member of the caller's [blockedSegments]. *)
Theorem dijkstra_blocks_traversed_segments fuel g s d isDriving bn bs r :
  dijkstra fuel g s d isDriving bn bs = Some r →
  res_path r ≠ [] →
  ∀ a b, (a, b) ∈ path_segments (res_path r) → (a, b) ∈ res_blockedSegments r.
Proof.
  intros Hrun _ a b Hin.
  destruct (dijkstra_path_roads _ _ _ _ _ _ _ _ Hrun)
    as (di & rs & e & _ & _ & _ & _ & Hsegs & ->).
  rewrite Hsegs, elem_of_reverse in Hin.
  apply elem_of_union_l, elem_of_list_to_set. done.
Qed.

Lemma dijkstra_blocks_traversed_segments_witness :
  from_option
    (λ r, res_path r ≠ [] ∧
          ∀ a b, (a, b) ∈ path_segments (res_path r) →
                 (a, b) ∈ res_blockedSegments r)
    False (dijkstra 10 example_network 1 3 true ∅ ∅).
Proof.
  destruct (dijkstra 10 example_network 1 3 true ∅ ∅) as [r|] eqn:E; simpl.
  - assert (res_path r ≠ []) as Hne.
    { vm_compute in E. by injection E as <-. }
    split; [done|].
    exact (dijkstra_blocks_traversed_segments _ _ _ _ _ _ _ _ E Hne).
  - vm_compute in E. discriminate.
Defined.

(** C3 fails as stated when source and destination coincide: the first
    path has no edge to exclude, no other route exists, and the second call
    returns the same single-node path again instead of "no path". *)
Lemma second_call_repeats_single_node_path :
  res_path <$> dijkstra 5 lone_network 1 1 true ∅ ∅ = Some [1]
  ∧ from_option
      (λ r1, res_path <$> dijkstra 5 (res_graph r1) 1 1 true ∅
                            (res_blockedSegments r1) = Some [1])
      False (dijkstra 5 lone_network 1 1 true ∅ ∅)
  ∧ ∀ rs, route lone_network 0 rs 0 → rs = [].
Proof.
  split_and!; [reflexivity|reflexivity|].
  intros rs Hroute. inversion Hroute as [|u rs' x lx r _ Hx Hr]; [done|].
  exfalso. destruct x as [|x]; [|done].
  simpl in Hx. injection Hx as <-. simpl in Hr. by apply elem_of_nil in Hr.
Qed.

(** C3, amended: on a well-formed network with bounded non-negative costs
    and for a source different from the destination, two calls in sequence
    that share [blockedSegments] both return; the paths have no directed
    segment in common; a non-empty first path is never returned again; and
    when no route avoids the segments blocked after the first call (those of
    the first path and the caller's), the second call returns the empty
    result. *)
Theorem second_call_avoids_first_path isDriving W g fuel s d si ls di ld bn bs :
  network_ok isDriving W g →
  findLocation g s = Some (si, ls) →
  findLocation g d = Some (di, ld) →
  s ≠ d →
  (enough_fuel g ≤ fuel)%nat →
  ∃ r1 r2,
    dijkstra fuel g s d isDriving bn bs = Some r1
    ∧ dijkstra fuel (res_graph r1) s d isDriving bn (res_blockedSegments r1)
      = Some r2
    ∧ res_blockedSegments r1 = list_to_set (path_segments (res_path r1)) ∪ bs
    ∧ (∀ seg, seg ∈ path_segments (res_path r1) →
              seg ∉ path_segments (res_path r2))
    ∧ (res_path r1 ≠ [] → res_path r2 ≠ res_path r1)
    ∧ ((∀ rs, route g si rs di →
              ¬ Forall (usable isDriving bn (res_blockedSegments r1) g) rs) →
       res_path r2 = []).
Proof.
  intros Hok Hsrc Hdst Hsd Hfuel.
  pose proof (network_ok_wf_roads _ _ _ Hok) as Hwf.
  destruct (dijkstra_spec_ok isDriving bn bs g W fuel s d si ls di ld
              Hok Hsrc Hdst Hfuel)
    as (r1 & rs1 & Hrun1 & Hnet1 & Hbs1 & Hcase1).
  destruct (dijkstra_spec_ok isDriving bn (res_blockedSegments r1) g W fuel
              s d si ls di ld Hok Hsrc Hdst Hfuel)
    as (r2 & rs2 & Hrun2 & _ & _ & Hcase2).
  exists r1, r2.
  assert (path_segments (res_path r1) = road_segment g <$> rs1) as Hsegs1.
  { destruct Hcase1 as [(-> & _ & -> & _)|(Hroute & _ & _ & -> & _)]; [done|].
    by eapply route_segments. }
  assert (∀ seg, seg ∈ path_segments (res_path r1) →
                 seg ∉ path_segments (res_path r2)) as Hdisj.
  { intros seg Hin1 Hin2.
    assert (seg ∈ res_blockedSegments r1) as Hblocked.
    { rewrite Hbs1, <- Hsegs1. set_solver. }
    destruct Hcase2 as [(Hp2 & _)|(Hroute2 & _ & Huse2 & Hp2 & _)].
    - rewrite Hp2 in Hin2. by apply elem_of_nil in Hin2.
    - rewrite Hp2, (route_segments _ _ _ _ Hroute2 Hwf) in Hin2.
      apply list_elem_of_fmap in Hin2 as (road & -> & Hroad).
      rewrite Forall_forall in Huse2.
      by destruct (Huse2 road Hroad) as (_ & _ & Hnot). }
  split_and!; [done| |by rewrite Hsegs1|done| |].
  - by rewrite (dijkstra_same_network _ _ _ _ _ _ _ _ Hnet1).
  - intros Hne Heq.
    destruct Hcase1 as [(Hp1 & _)|(Hroute1 & _ & _ & Hp1 & _)]; [done|].
    destruct rs1 as [|road rs1].
    + apply route_nil_inv in Hroute1 as ->.
      apply findLocation_Some in Hsrc as [Hsi Hsid].
      apply findLocation_Some in Hdst as [Hdi Hdid]. by simplify_eq.
    + apply (Hdisj (road_segment g road)).
      * rewrite Hsegs1. set_solver.
      * rewrite Heq, Hsegs1. set_solver.
  - intros Hnone.
    destruct Hcase2 as [(Hp2 & _)|(Hroute2 & _ & Huse2 & _)]; [done|].
    by destruct (Hnone rs2 Hroute2).
Qed.

Lemma second_call_avoids_first_path_witness :
  ∃ r1 r2,
    dijkstra 10 example_network 1 3 true ∅ ∅ = Some r1
    ∧ dijkstra 10 (res_graph r1) 1 3 true ∅ (res_blockedSegments r1) = Some r2
    ∧ res_blockedSegments r1 = list_to_set (path_segments (res_path r1)) ∪ ∅
    ∧ (∀ seg, seg ∈ path_segments (res_path r1) →
              seg ∉ path_segments (res_path r2))
    ∧ (res_path r1 ≠ [] → res_path r2 ≠ res_path r1)
    ∧ ((∀ rs, route example_network 0 rs 2 →
              ¬ Forall (usable true ∅ (res_blockedSegments r1) example_network) rs) →
       res_path r2 = []).
Proof.
  eapply (second_call_avoids_first_path true 5 example_network 10 1 3).
  - compute_done.
  - reflexivity.
  - reflexivity.
  - lia.
  - vm_compute. lia.
Defined.

(** Blocking B, the only connector, leaves no path from A to C. *)
Example example_blocked_connector :
  (λ r, (res_path r, res_cost r)) <$> dijkstra 10 example_network 1 3 true {[2]} ∅
  = Some ([], 0).
Proof. reflexivity. Qed.

Example example_alternative_query :
  from_option
    (λ r1, (λ r2, (res_path r2, res_cost r2)) <$>
             dijkstra 10 (res_graph r1) 1 3 true ∅ (res_blockedSegments r1))
    None (dijkstra 10 example_network 1 3 true ∅ ∅)
  = Some ([], 0).
Proof. reflexivity. Qed.

(** C4 fails as stated: a destination in [blockedNodes] is still relaxed
    into and returned.  On the example network, with C blocked, the query
    A -> C returns the path A, B, C. *)
Lemma blocked_destination_still_reached :
  3 ∈ ({[3]} : gset Z)
  ∧ res_path <$> dijkstra 10 example_network 1 3 true {[3]} ∅ = Some [1; 2; 3].
Proof. split; [set_solver|reflexivity]. Qed.

(** C4, amended: blocking is one-directional.  On a well-formed network
    with bounded non-negative costs, no element of the returned path other
    than its last one is a member of [blockedNodes], and the result is
    empty exactly when no route from the source to the destination exists
    whose roads have a cost in the selected mode, are not blocked segments
    and do not leave a blocked location.  Whether the destination itself is
    a member of [blockedNodes] plays no role. *)
Theorem blocked_nodes_are_never_left isDriving W g fuel s d si ls di ld bn bs :
  network_ok isDriving W g →
  findLocation g s = Some (si, ls) →
  findLocation g d = Some (di, ld) →
  (enough_fuel g ≤ fuel)%nat →
  ∃ r, dijkstra fuel g s d isDriving bn bs = Some r
       ∧ (∀ i x, res_path r !! i = Some x →
                 (S i < length (res_path r))%nat → x ∉ bn)
       ∧ (res_path r = [] ↔
          ¬ ∃ rs, route g si rs di ∧ Forall (usable isDriving bn bs g) rs).
Proof.
  intros Hok Hsrc Hdst Hfuel.
  destruct (dijkstra_spec_ok isDriving bn bs g W fuel s d si ls di ld
              Hok Hsrc Hdst Hfuel)
    as (r & rs & Hrun & _ & _ & Hcases).
  exists r. split_and!; [done| |].
  - eapply dijkstra_path_avoids_blocked_origins; [|done].
    by eapply network_ok_wf_roads.
  - destruct Hcases as [(Hp & _ & _ & _ & Hnone)|(Hroute & _ & Huse & Hp & _)].
    + split; [|done]. intros _ (rs' & Hroute' & Huse'). by eapply Hnone.
    + split.
      * intros Hnil. by rewrite Hp in Hnil.
      * intros Hnone. exfalso. apply Hnone. by exists rs.
Qed.

Lemma blocked_nodes_are_never_left_witness :
  ∃ r, dijkstra 10 example_network 1 3 true {[3]} ∅ = Some r
       ∧ (∀ i x, res_path r !! i = Some x →
                 (S i < length (res_path r))%nat → x ∉ ({[3]} : gset Z))
       ∧ (res_path r = [] ↔
          ¬ ∃ rs, route example_network 0 rs 2
                  ∧ Forall (usable true {[3]} ∅ example_network) rs).
Proof.
  eapply (blocked_nodes_are_never_left true 5 example_network 10 1 3).
  - compute_done.
  - reflexivity.
  - reflexivity.
  - vm_compute. lia.
Defined.

(** C5: when [EnvironmentallyFriendlyRoute] returns a best result, the
    chosen transfer node is a location of the graph that has parking and
    differs from source and destination, both its legs exist and its walk is
    within the budget; and no feasible candidate has a strictly lower total
    time, or the same total time and a strictly lower walking time. *)
Theorem eco_best_is_optimal fuel g s d maxWalkingTime bn bs st :
  EnvironmentallyFriendlyRoute fuel g s d maxWalkingTime bn bs = Some st →
  bestDrive st ≠ [] →
  (∃ p, p ∈ g ∧ getId p = bestParking st ∧ HasParking p = true
        ∧ bestParking st ≠ s ∧ bestParking st ≠ d
        ∧ feasible_candidate fuel g s d maxWalkingTime bn bs p
            (bestDrive st) (bestWalk st) (bestTotalTime st) (bestWalkingTime st))
  ∧ ∀ q drive walk total walkt,
      q ∈ g →
      feasible_candidate fuel g s d maxWalkingTime bn bs q drive walk total walkt →
      ¬ total < bestTotalTime st
      ∧ ¬ (total = bestTotalTime st ∧ walkt < bestWalkingTime st).
Proof.
  intros Hrun Hne.
  apply EnvironmentallyFriendlyRoute_Some in Hrun
    as (st0 & Hloop & _ & _ & Ht & Hw & Hd & Hwk & Hp).
  assert (eco_inv fuel g s d maxWalkingTime bn bs [] (mkEco g bs INF INF [] [] (-1) []))
    as Hinv0.
  { split_and!; [done|done|done|]. intros q ???? Hq. by apply elem_of_nil in Hq. }
  pose proof (eco_loop_inv _ _ _ _ _ _ _ _ _ _ _ Hinv0 Hloop)
    as (_ & _ & Hbest & Hopt).
  rewrite Ht, Hw, Hd, Hwk, Hp. rewrite Hd in Hne. simpl in Hbest, Hopt. split.
  - destruct (Hbest Hne) as (p & Hin & Hid & Hf).
    exists p. pose proof Hf as (? & ? & ? & _).
    split_and!; try done; by rewrite <- Hid.
  - intros q drive walk total walkt Hq Hf.
    specialize (Hopt q _ _ _ _ Hq Hf). split; intros ?; apply Hopt; auto.
Qed.

Lemma eco_best_is_optimal_witness :
  from_option
    (λ st,
       (∃ p, p ∈ example_network ∧ getId p = bestParking st
             ∧ HasParking p = true ∧ bestParking st ≠ 1 ∧ bestParking st ≠ 3
             ∧ feasible_candidate 10 example_network 1 3 25 ∅ ∅ p
                 (bestDrive st) (bestWalk st) (bestTotalTime st)
                 (bestWalkingTime st))
       ∧ ∀ q drive walk total walkt,
           q ∈ example_network →
           feasible_candidate 10 example_network 1 3 25 ∅ ∅ q drive walk total walkt →
           ¬ total < bestTotalTime st
           ∧ ¬ (total = bestTotalTime st ∧ walkt < bestWalkingTime st))
    False (EnvironmentallyFriendlyRoute 10 example_network 1 3 25 ∅ ∅).
Proof.
  destruct (EnvironmentallyFriendlyRoute 10 example_network 1 3 25 ∅ ∅)
    as [st|] eqn:E; simpl.
  - apply (eco_best_is_optimal _ _ _ _ _ _ _ _ E).
    vm_compute in E. by injection E as <-.
  - vm_compute in E. discriminate.
Defined.

Example example_eco_query :
  (λ st, (bestDrive st, bestWalk st, bestParking st, bestTotalTime st,
          bestWalkingTime st, suggestions st))
    <$> EnvironmentallyFriendlyRoute 10 example_network 1 3 25 ∅ ∅
  = Some ([1; 2], [2; 3], 2, 8, 3, []).
Proof. reflexivity. Qed.

Example example_eco_suggestion :
  (λ st, (bestDrive st, bestParking st, suggestions st))
    <$> EnvironmentallyFriendlyRoute 10 example_network 1 3 1 ∅ ∅
  = Some ([], -1, [mkSuggestion [1; 2] [2; 3] 2 8 3 2]).
Proof. reflexivity. Qed.

(** C6 fails on the code.  The eco query of the specification's scenario
    with a walking budget of 1 minute yields exactly one suggestion;
    [planEnvironmentallyFriendlyRoute] hands it to [writeOutputFile], which
    reads past the end of the suggestion list. *)
Theorem eco_single_suggestion_reads_out_of_bounds :
  (suggestions <$> EnvironmentallyFriendlyRoute 10 example_network 1 3 1 ∅ ∅
   = Some [mkSuggestion [1; 2] [2; 3] 2 8 3 2])
  ∧ writeOutputFile
      (mkOutput 1 3 ([1; 2], 5) ([2; 3], 3) 2 8 2 true
         [mkSuggestion [1; 2] [2; 3] 2 8 3 2] 1) = None
  ∧ planEnvironmentallyFriendlyRoute 10 example_network
      (mkInput 1 3 ∅ ∅ 1 (-1) 2) = None.
Proof. split_and!; reflexivity. Qed.

(** C7: [EnvironmentallyFriendlyRoute] leaves the caller's [avoidSegments]
    as it found it; the segments that the searches insert go to the copy
    made for each candidate. *)
Theorem eco_preserves_avoidSegments fuel g s d maxWalkingTime bn bs st :
  EnvironmentallyFriendlyRoute fuel g s d maxWalkingTime bn bs = Some st →
  eco_avoidSegments st = bs.
Proof.
  intros Hrun.
  apply EnvironmentallyFriendlyRoute_Some in Hrun as (st0 & Hloop & _ & -> & _).
  by rewrite (eco_loop_avoidSegments _ _ _ _ _ _ _ _ Hloop).
Qed.

Lemma eco_preserves_avoidSegments_witness :
  from_option (λ st, eco_avoidSegments st = {[(7, 8)]}) False
    (EnvironmentallyFriendlyRoute 10 example_network 1 3 25 ∅ {[(7, 8)]}).
Proof.
  destruct (EnvironmentallyFriendlyRoute 10 example_network 1 3 25 ∅ {[(7, 8)]})
    as [st|] eqn:E; simpl.
  - exact (eco_preserves_avoidSegments _ _ _ _ _ _ _ _ E).
  - vm_compute in E. discriminate.
Defined.

(** The searches of that call do insert segments into the copies. *)
Example example_eco_copy_is_mutated :
  res_blockedSegments <$> dijkstra 10 example_network 1 2 true ∅ {[(7, 8)]}
  = Some ({[(1, 2); (7, 8)]} : gset (Z * Z)).
Proof. compute_done. Qed.





(** A search that has emptied the queue does so with more iterations
    allowed as well, and leaves the same state. *)
Lemma search_loop_more_fuel fuel :
  ∀ fuel' isDriving bn bs g pq g',
    search_loop fuel isDriving bn bs g pq = Some g' →
    (fuel ≤ fuel')%nat →
    search_loop fuel' isDriving bn bs g pq = Some g'.
Proof.
  induction fuel as [|fuel IH]; intros fuel' isDriving bn bs g pq g' H Hle.
  - destruct pq as [|[cd cid] pq']; [|done]. by destruct fuel'.
  - destruct pq as [|[cd cid] pq']; [by destruct fuel'|].
    destruct fuel' as [|fuel']; [lia|].
    simpl in H |- *.
    destruct (findLocation g cid) as [[? cur]|]; [|done].
    repeat case_decide; try (apply IH; [done|lia]).
    destruct (relax_roads _ _ _ _ _ _ _) as [[g1 pq1]|]; [|done].
    apply IH; [done|lia].
Qed.
(** Two locations whose parent roads start at each other keep the
    reconstruction loop running: it returns for no number of iterations. *)
Lemma reconstruct_parent_cycle g s u v lu lv ru rv :
  g !! u = Some lu → g !! v = Some lv →
  getParent lu = Some ru → getParent lv = Some rv →
  getOrigin ru = v → getOrigin rv = u →
  getId lu ≠ s → getId lv ≠ s →
  ∀ k bs path,
    reconstruct k g s u bs path = None ∧ reconstruct k g s v bs path = None.
Proof.
  intros Hu Hv Hpu Hpv Hou Hov Hidu Hidv k.
  induction k as [|k IH]; intros bs path.
  - split; simpl.
    + rewrite Hu, Hpu. by rewrite decide_False.
    + rewrite Hv, Hpv. by rewrite decide_False.
  - split; simpl.
    + rewrite Hu, Hpu. rewrite decide_False by done. rewrite Hou, Hv.
      destruct (g !! getDestination ru); [|done]. apply IH.
    + rewrite Hv, Hpv. rewrite decide_False by done. rewrite Hov, Hu.
      destruct (g !! getDestination rv); [|done]. apply IH.
Qed.

(** C10 fails as stated when two locations carry the same identifier, which
    [addLocation] and [loadLocations] accept.  In the network below every
    cost is 1, and the search from 1 leaves location C (3) with the finite
    distance 2.  The entry (1, 2) that the relaxation of B2 put into the
    queue is looked up as B, the first location with identifier 2, so the
    roads of B are relaxed although B was not reached: C gets the road from
    B as its parent and B the road from C.  The parent roads lead from C
    back to C, the reconstruction loop returns for no number of iterations,
    and neither does the call. *)
Lemma parent_chain_cycles_on_duplicate_id :
  loadData (Some duplicate_id_locations_txt) (Some duplicate_id_distances_txt) []
  = Some duplicate_id_network
  ∧ getId <$> duplicate_id_network = [1; 2; 2; 3]
  ∧ (∀ isDriving,
       Forall2 (λ i l, Forall (road_ok isDriving 1 duplicate_id_network i) (getAdj l))
         (seq 0 (length duplicate_id_network)) duplicate_id_network)
  ∧ (∃ source g2 dst,
       findLocation (init_locations duplicate_id_network) 1 = Some (0%nat, source)
       ∧ search_loop 4 true ∅ ∅ (start_graph duplicate_id_network 0 source) [(0, 1)]
         = Some g2
       ∧ findLocation g2 3 = Some (3%nat, dst)
       ∧ getDistance dst = 2
       ∧ (∃ r1 r2, parent_chain g2 3 [r1; r2] 3)
       ∧ ∀ k bs path, reconstruct k g2 1 3 bs path = None)
  ∧ ∀ fuel, dijkstra fuel duplicate_id_network 1 3 true ∅ ∅ = None.
Proof.
  destruct (findLocation (init_locations duplicate_id_network) 1)
    as [[si source]|] eqn:Hsrc; [|vm_compute in Hsrc; discriminate].
  assert (si = 0%nat) as ->.
  { vm_compute in Hsrc. by injection Hsrc as <- _. }
  destruct (search_loop 4 true ∅ ∅ (start_graph duplicate_id_network 0 source) [(0, 1)])
    as [g2|] eqn:Hloop.
  2:{ vm_compute in Hsrc. injection Hsrc as <-. vm_compute in Hloop. discriminate. }
  assert (∃ lb lc rb rc,
    findLocation g2 3 = Some (3%nat, lc)
    ∧ g2 !! 1%nat = Some lb ∧ g2 !! 3%nat = Some lc
    ∧ getParent lb = Some rb ∧ getParent lc = Some rc
    ∧ getOrigin rb = 3%nat ∧ getOrigin rc = 1%nat
    ∧ getId lb = 2 ∧ getId lc = 3 ∧ getDistance lc = 2)
    as (lb & lc & rb & rc & Hdst & Hb & Hc & Hpb & Hpc & Hob & Hoc & Hidb & Hidc & Hdist).
  { vm_compute in Hsrc. injection Hsrc as <-. vm_compute in Hloop.
    injection Hloop as <-. eexists _, _, _, _. split_and!; reflexivity. }
  assert (∀ k bs path, reconstruct k g2 1 3 bs path = None) as Hrec.
  { intros k bs path.
    refine (proj1 (reconstruct_parent_cycle g2 1 3 1 lc lb rc rb
                     Hc Hb Hpc Hpb Hoc Hob _ _ k bs path)); lia. }
  split_and!.
  - reflexivity.
  - reflexivity.
  - intros [|]; compute_done.
  - exists source, g2, lc. split_and!; [done|done|done|done| |done].
    exists rc, rb.
    eapply parent_chain_cons; [exact Hc|exact Hpc|]. rewrite Hoc.
    eapply parent_chain_cons; [exact Hb|exact Hpb|]. rewrite Hob.
    apply parent_chain_nil.
  - intros fuel.
    destruct (dijkstra fuel duplicate_id_network 1 3 true ∅ ∅) as [r|] eqn:E;
      [exfalso|done].
    apply dijkstra_Some in E
      as (si & source' & g2' & di & dst & Hsrc' & Hloop' & Hdst' & _ & Hcase).
    rewrite Hsrc in Hsrc'. injection Hsrc' as <- <-.
    destruct (decide (4 ≤ fuel)%nat) as [Hfuel|Hfuel].
    + unfold start_graph in Hloop.
      rewrite (search_loop_more_fuel _ _ _ _ _ _ _ _ Hloop Hfuel) in Hloop'.
      injection Hloop' as <-.
      rewrite Hdst in Hdst'. injection Hdst' as <- <-.
      destruct Hcase as [[Hinf _]|(_ & path & bs' & Hrun & _)].
      * rewrite Hdist in Hinf. discriminate.
      * by rewrite Hrec in Hrun.
    + vm_compute in Hsrc. injection Hsrc as <-.
      destruct fuel as [|[|[|[|k]]]]; [..|lia]; vm_compute in Hloop'; discriminate.
Qed.

(** C10, amended: on a well-formed network (unique identifiers, every road
    stored at its origin) with bounded non-negative costs, when the
    destination ends with a finite distance the parent roads lead from the
    destination back to the source without visiting a location twice, in
    fewer steps than there are locations; the reconstruction loop returns
    within that many iterations. *)
Theorem parent_chain_acyclic isDriving W g fuel s d si ls di ld bn bs :
  network_ok isDriving W g →
  findLocation g s = Some (si, ls) →
  findLocation g d = Some (di, ld) →
  (enough_fuel g ≤ fuel)%nat →
  ∃ r, dijkstra fuel g s d isDriving bn bs = Some r
       ∧ ∀ l, res_graph r !! di = Some l → getDistance l ≠ INF →
           ∃ chain,
             parent_chain (res_graph r) di chain si
             ∧ NoDup (di :: (getOrigin <$> chain))
             ∧ (length chain < length g)%nat
             ∧ ∀ k, (length chain ≤ k)%nat →
                 reconstruct k (res_graph r) s di bs [d]
                 = Some (reverse (res_path r), res_blockedSegments r).
Proof.
  intros Hok Hsrc Hdst Hfuel.
  destruct (dijkstra_spec_ok isDriving bn bs g W fuel s d si ls di ld
              Hok Hsrc Hdst Hfuel)
    as (r & rs & Hrun & _ & _ & Hcases).
  exists r. split; [done|]. intros l Hl Hfin.
  destruct Hcases as [(_ & _ & _ & Hinf & _)|Hsome]; [by specialize (Hinf l Hl)|].
  destruct Hsome as (_ & _ & _ & _ & _ & _ & Hnd & Hchain & Hlen & Hrec).
  destruct (dijkstra_path_roads _ _ _ _ _ _ _ _ Hrun) as (_ & _ & _ & Harr & _).
  exists (reverse rs). rewrite length_reverse. split_and!; [done| |done|done].
  rewrite <- reverse_Permutation.
  refine (eq_ind _ NoDup _ _ (eq_sym (chain_reverse (λ x, x) _ _ _ _ Harr Hchain))).
  by rewrite reverse_involutive.
Qed.

Lemma parent_chain_acyclic_witness :
  ∃ r, dijkstra 10 example_network 1 3 true ∅ ∅ = Some r
       ∧ ∀ l, res_graph r !! 2%nat = Some l → getDistance l ≠ INF →
           ∃ chain,
             parent_chain (res_graph r) 2 chain 0
             ∧ NoDup (2%nat :: (getOrigin <$> chain))
             ∧ (length chain < length example_network)%nat
             ∧ ∀ k, (length chain ≤ k)%nat →
                 reconstruct k (res_graph r) 1 2 ∅ [3]
                 = Some (reverse (res_path r), res_blockedSegments r).
Proof.
  eapply (parent_chain_acyclic true 5 example_network 10 1 3).
  - compute_done.
  - reflexivity.
  - reflexivity.
  - vm_compute. lia.
Defined.

(** * Further properties of the code *)

(** ** Graph.cpp: the construction interface *)

(** X1: looking a location up after [addLocation].  An identifier that was
    present still resolves to the same, earlier location, so a location
    added under a used identifier is never found; a new identifier resolves
    to the added location, which has no roads; the same holds for the lookup
    by code. *)
Theorem findLocation_addLocation g i c p :
  (∀ j, findLocation (addLocation g i c p) j
        = match findLocation g j with
          | Some found => Some found
          | None =>
              if decide (i = j)
              then Some (length g, mkLocation i c p [] None 0) else None
          end)
  ∧ (∀ k, findLocationByCode (addLocation g i c p) k
          = match findLocationByCode g k with
            | Some found => Some found
            | None =>
                if decide (c = k)
                then Some (length g, mkLocation i c p [] None 0) else None
            end).
Proof.
  unfold findLocation, findLocationByCode, addLocation. split.
  - intros j. destruct (list_find _ g) as [[n l]|] eqn:Hfind.
    + by apply list_find_app_l.
    + rewrite list_find_app_r by done. simpl.
      by destruct (decide _).
  - intros k. destruct (list_find _ g) as [[n l]|] eqn:Hfind.
    + by apply list_find_app_l.
    + rewrite list_find_app_r by done. simpl.
      by destruct (decide _).
Qed.

Lemma addRoad_lookup g f t d w i :
  addRoad g (Some f) (Some t) d w !! i
  = (λ l, mkLocation (getId l) (getCode l) (HasParking l)
            (getAdj l ++ (if decide (i = f) then [mkRoad f t d w] else [])
                      ++ (if decide (i = t) then [mkRoad t f d w] else []))
            (getParent l) (getDistance l)) <$> g !! i.
Proof.
  unfold addRoad. cbv zeta.
  destruct (decide (i = t)) as [->|Hit].
  - rewrite list_lookup_alter_eq.
    destruct (decide (t = f)) as [->|Htf].
    + rewrite list_lookup_alter_eq. destruct (g !! f); [|done]. simpl.
      unfold addRoadTo. simpl. by rewrite <- app_assoc.
    + rewrite list_lookup_alter_ne by done. by destruct (g !! t).
  - rewrite list_lookup_alter_ne by done.
    destruct (decide (i = f)) as [->|Hif].
    + rewrite list_lookup_alter_eq. by destruct (g !! f).
    + rewrite list_lookup_alter_ne by done.
      destruct (g !! i) as [[]|]; [|done]. simpl. by rewrite app_nil_r.
Qed.

(** X2: what [addRoad] changes.  With a null end it changes nothing.
    Otherwise the road is appended to the adjacency list of [from], its
    mirror image with the same two costs to that of [to] (both to the same
    list when the ends coincide), and nothing else changes: no location is
    added or removed, and identifiers, codes, parking flags and search state
    stay as they are. *)
Theorem addRoad_adds_both_directions g from to d w :
  match from, to with
  | Some f, Some t =>
      ∀ i, addRoad g from to d w !! i
           = (λ l, mkLocation (getId l) (getCode l) (HasParking l)
                     (getAdj l
                      ++ (if decide (i = f) then [mkRoad f t d w] else [])
                      ++ (if decide (i = t) then [mkRoad t f d w] else []))
                     (getParent l) (getDistance l)) <$> g !! i
  | _, _ => addRoad g from to d w = g
  end.
Proof.
  destruct from as [f|], to as [t|]; try done.
  intros i. apply addRoad_lookup.
Qed.

Lemma addLocation_roads_paired g i c p :
  roads_paired g → roads_paired (addLocation g i c p).
Proof.
  intros Hg j l r Hl Hr. unfold addLocation in *.
  apply lookup_app_Some in Hl as [Hl|[Hge Hl]].
  - destruct (Hg j l r Hl Hr) as (l' & Hl' & Hin).
    exists l'. split; [|done]. by apply lookup_app_l_Some.
  - apply list_lookup_singleton_Some in Hl as [_ <-]. simpl in Hr.
    by apply elem_of_nil in Hr.
Qed.

Lemma addRoad_roads_paired g f t d w :
  (f < length g)%nat → (t < length g)%nat →
  roads_paired g → roads_paired (addRoad g (Some f) (Some t) d w).
Proof.
  intros Hf Ht Hg j l r Hl Hr.
  rewrite addRoad_lookup in Hl.
  destruct (g !! j) as [l0|] eqn:Hl0; [|done]. simpl in Hl.
  injection Hl as <-. simpl in Hr.
  assert (∀ k lk x, g !! k = Some lk → x ∈ getAdj lk →
            ∃ l', addRoad g (Some f) (Some t) d w !! k = Some l'
                  ∧ x ∈ getAdj l') as Hkeep.
  { intros k lk x Hk Hx. rewrite addRoad_lookup, Hk. simpl.
    eexists. split; [done|]. simpl. set_solver. }
  rewrite !elem_of_app in Hr. destruct Hr as [Hr|[Hr|Hr]].
  - destruct (Hg j l0 r Hl0 Hr) as (l' & Hl' & Hin). by eapply Hkeep.
  - case_decide as Hjf; [|by apply elem_of_nil in Hr].
    apply list_elem_of_singleton in Hr. subst.
    cbn [getDestination getDrivingTime getWalkingTime].
    destruct (lookup_lt_is_Some_2 _ _ Ht) as [lt Hlt].
    rewrite addRoad_lookup, Hlt. simpl. eexists. split; [done|]. simpl.
    rewrite (decide_True (P := t = t)) by done. set_solver.
  - case_decide as Hjt; [|by apply elem_of_nil in Hr].
    apply list_elem_of_singleton in Hr. subst.
    cbn [getDestination getDrivingTime getWalkingTime].
    destruct (lookup_lt_is_Some_2 _ _ Hf) as [lf Hlf].
    rewrite addRoad_lookup, Hlf. simpl. eexists. split; [done|]. simpl.
    rewrite (decide_True (P := f = f)) by done. set_solver.
Qed.

(** ** FileManager.cpp: the loaders *)

(** A property that the loop body keeps is kept by the loop. *)
Lemma while_getline_inv {A} (P : A → Prop) delim body fuel :
  (∀ line a a', P a → body line a = Some a' → P a') →
  ∀ inp line (a a' : A),
    P a → while_getline fuel delim body inp line a = Some a' → P a'.
Proof.
  intros Hbody. induction fuel as [|fuel IH]; intros inp line a a' Ha Hrun;
    simpl in Hrun; [done|].
  destruct (getline delim inp line) as [[inp' line'] [|]]; [|by simplify_eq].
  destruct (body line' a) as [a1|] eqn:Hb; [|done].
  eapply IH; [|exact Hrun]. by eapply Hbody.
Qed.

Lemma roads_added_refl g : roads_added g g.
Proof.
  apply Forall2_same_length_lookup_2; [done|].
  intros i l l' Hl Hl'. simplify_eq. exists []. rewrite app_nil_r. by destruct l.
Qed.

Lemma roads_added_trans g1 g2 g3 :
  roads_added g1 g2 → roads_added g2 g3 → roads_added g1 g3.
Proof.
  intros H12 H23. eapply Forall2_trans; [|exact H12|exact H23].
  intros l1 l2 l3 [e1 ->] [e2 ->]. simpl. exists (e1 ++ e2).
  by rewrite app_assoc.
Qed.

Lemma addRoad_roads_added g from to d w : roads_added g (addRoad g from to d w).
Proof.
  destruct from as [f|], to as [t|]; try apply roads_added_refl.
  apply Forall2_same_length_lookup_2.
  - unfold addRoad. by rewrite !length_alter.
  - intros i l l' Hl Hl'. rewrite addRoad_lookup, Hl in Hl'. simpl in Hl'.
    injection Hl' as <-. eauto.
Qed.

Lemma stoi_range str z : stoi str = Some z → -2147483648 ≤ z ≤ 2147483647.
Proof.
  unfold stoi. destruct (read_sign _) as [negative s].
  destruct (read_number s) as [n|]; [|done].
  case_decide; [|done]. by intros [= <-].
Qed.

Lemma loadLocations_row_Some line g g' :
  loadLocations_row line g = Some g' →
  g' = g
  ∨ ∃ id code parking,
      g' = addLocation g id code parking ∧ code ≠ EmptyString
      ∧ -2147483648 ≤ id ≤ 2147483647.
Proof.
  unfold loadLocations_row.
  destruct (getline _ _ _) as [[ss1 name] ok1].
  destruct (getline _ _ _) as [[ss2 idStr] ok2].
  destruct (getline _ _ _) as [[ss3 code] ok3].
  destruct (getline _ _ _) as [[ss4 parkingStr] ok4].
  case_bool_decide as Hid; simpl; [intros; simplify_eq; by left|].
  case_bool_decide as Hcode; simpl; [intros; simplify_eq; by left|].
  case_bool_decide as Hpark; simpl; [intros; simplify_eq; by left|].
  destruct (stoi idStr) as [id|] eqn:Hstoi; [|done].
  intros [= <-]. right. exists id, code, (bool_decide (parkingStr = "1")).
  split_and!; [done|done|by eapply stoi_range..].
Qed.

Lemma findLocationByCode_Some g c i l :
  findLocationByCode g c = Some (i, l) → g !! i = Some l ∧ getCode l = c.
Proof. unfold findLocationByCode. rewrite list_find_Some. naive_solver. Qed.

Lemma loadDistances_row_Some line g g' :
  loadDistances_row line g = Some g' →
  g' = g
  ∨ ∃ loc1 loc2 d w,
      g' = addRoad g (Some loc1) (Some loc2) d w
      ∧ (loc1 < length g)%nat ∧ (loc2 < length g)%nat
      ∧ -2147483648 ≤ d ≤ 2147483647 ∧ -2147483648 ≤ w ≤ 2147483647.
Proof.
  unfold loadDistances_row.
  destruct (getline _ _ _) as [[ss1 loc1Code] ok1].
  destruct (getline _ _ _) as [[ss2 loc2Code] ok2].
  destruct (getline _ _ _) as [[ss3 drivingStr] ok3].
  destruct (getline _ _ _) as [[ss4 walkingStr] ok4].
  destruct (_ || _); [intros; simplify_eq; by left|].
  destruct (findLocationByCode g loc1Code) as [[loc1 l1]|] eqn:H1;
    [|intros; simplify_eq; by left].
  destruct (findLocationByCode g loc2Code) as [[loc2 l2]|] eqn:H2;
    [|intros; simplify_eq; by left].
  apply findLocationByCode_Some in H1 as [H1 _].
  apply findLocationByCode_Some in H2 as [H2 _].
  apply lookup_lt_Some in H1, H2.
  destruct (if bool_decide (drivingStr = "X") then Some INF else stoi drivingStr)
    as [d|] eqn:Hd; [|done].
  destruct (stoi walkingStr) as [w|] eqn:Hw; [|done].
  intros [= <-]. right. exists loc1, loc2, d, w.
  split_and!; [done|done|done|..|by eapply stoi_range|by eapply stoi_range].
  - case_bool_decide; [by simplify_eq|by eapply stoi_range].
  - case_bool_decide; [by simplify_eq|by eapply stoi_range].
Qed.

(** X3: [loadLocations] only appends.  Whatever the file holds, the
    locations that were there stay as they are and in place; every location
    it adds has a non-empty code, an identifier in the range of [int] and no
    road; a file that cannot be opened leaves the graph as it is. *)
Theorem loadLocations_appends file g g' :
  loadLocations file g = Some g' →
  (file = None → g' = g)
  ∧ ∃ new,
      g' = g ++ new
      ∧ Forall (λ l, getCode l ≠ EmptyString
                     ∧ -2147483648 ≤ getId l ≤ 2147483647
                     ∧ getAdj l = [] ∧ getParent l = None) new.
Proof.
  intros Hload. split.
  { intros ->. simpl in Hload. by simplify_eq. }
  destruct file as [text|]; unfold loadLocations in Hload; last first.
  { simplify_eq. exists []. by rewrite app_nil_r. }
  destruct (getline _ _ _) as [[inp line] ok].
  revert Hload.
  apply (while_getline_inv
           (λ g', ∃ new, g' = g ++ new
                  ∧ Forall (λ l, getCode l ≠ EmptyString
                                 ∧ -2147483648 ≤ getId l ≤ 2147483647
                                 ∧ getAdj l = [] ∧ getParent l = None) new)).
  - intros row g1 g2 (new & -> & Hnew) Hrow.
    apply loadLocations_row_Some in Hrow
      as [->|(id & code & parking & -> & Hcode & Hid)]; [by exists new|].
    exists (new ++ [mkLocation id code parking [] None 0]).
    unfold addLocation. rewrite app_assoc. split; [done|].
    apply Forall_app. split; [done|]. by apply Forall_singleton.
  - exists []. by rewrite app_nil_r.
Qed.

(** The two example files load to the example network. *)
Example example_loadData :
  loadData (Some example_locations_txt) (Some example_distances_txt) []
  = Some example_network.
Proof. reflexivity. Qed.

Lemma loadLocations_appends_witness :
  (Some example_locations_txt = None
   → addLocation (addLocation (addLocation [] 1 "A" false) 2 "B" true) 3 "C" false
     = [])
  ∧ ∃ new,
      addLocation (addLocation (addLocation [] 1 "A" false) 2 "B" true) 3 "C" false
      = [] ++ new
      ∧ Forall (λ l, getCode l ≠ EmptyString
                     ∧ -2147483648 ≤ getId l ≤ 2147483647
                     ∧ getAdj l = [] ∧ getParent l = None) new.
Proof.
  apply (loadLocations_appends (Some example_locations_txt) []). reflexivity.
Defined.

Lemma roads_added_lookup g g' i l :
  roads_added g g' → g !! i = Some l →
  ∃ l' extra, g' !! i = Some l' ∧ identity l' = identity l
              ∧ getAdj l' = getAdj l ++ extra.
Proof.
  intros Hadd Hl.
  destruct (Forall2_lookup_l _ _ _ _ _ Hadd Hl) as (l' & Hl' & extra & ->).
  by eexists _, extra.
Qed.

Lemma roads_added_findLocation g g' c :
  roads_added g g' →
  fst <$> findLocation g' c = fst <$> findLocation g c.
Proof.
  intros Hadd. unfold findLocation.
  induction Hadd as [|l l' g g' [extra ->] Hadd IH]; [done|].
  simpl. case_decide; [done|].
  destruct (list_find _ g) as [[??]|], (list_find _ g') as [[??]|];
    simpl in *; congruence.
Qed.

(** X4: [loadDistances] adds roads and nothing else.  Whatever the file
    holds, the graph keeps its locations, in place and with their
    identifiers, codes and parking flags, so every lookup by identifier
    finds the same location as before; adjacency lists only grow at the
    end. *)
Theorem loadDistances_keeps_locations file g g' :
  loadDistances file g = Some g' →
  roads_added g g'
  ∧ identity <$> g' = identity <$> g
  ∧ ∀ c, fst <$> findLocation g' c = fst <$> findLocation g c.
Proof.
  intros Hload.
  assert (roads_added g g') as Hadd.
  { destruct file as [text|]; unfold loadDistances in Hload; last first.
    { simplify_eq. apply roads_added_refl. }
    destruct (getline _ _ _) as [[inp line] ok]. revert Hload.
    apply (while_getline_inv (roads_added g)); [|apply roads_added_refl].
    intros row g1 g2 Hg1 Hrow.
    apply loadDistances_row_Some in Hrow as [->|(f & t & d & w & -> & _)];
      [done|].
    eapply roads_added_trans; [exact Hg1|apply addRoad_roads_added]. }
  split_and!; [done| |intros c; by apply roads_added_findLocation].
  clear Hload. induction Hadd as [|l l' g g' [extra ->] Hadd IH]; [done|].
  rewrite !fmap_cons. by f_equal.
Qed.

Lemma loadDistances_keeps_locations_witness :
  roads_added
    (addLocation (addLocation (addLocation [] 1 "A" false) 2 "B" true) 3 "C" false)
    example_network
  ∧ identity <$> example_network
    = identity <$>
        addLocation (addLocation (addLocation [] 1 "A" false) 2 "B" true) 3 "C" false
  ∧ ∀ c, fst <$> findLocation example_network c
         = fst <$> findLocation
                     (addLocation (addLocation (addLocation [] 1 "A" false) 2 "B" true)
                        3 "C" false) c.
Proof.
  apply (loadDistances_keeps_locations (Some example_distances_txt)). reflexivity.
Defined.

Lemma loadLocations_network file g g' :
  loadLocations file g = Some g' →
  roads_in_place g ∧ roads_paired g ∧ int_costs g →
  roads_in_place g' ∧ roads_paired g' ∧ int_costs g'.
Proof.
  intros Hload Hg.
  destruct file as [text|]; unfold loadLocations in Hload; [|by simplify_eq].
  destruct (getline _ _ _) as [[inp line] ok]. revert Hload.
  apply (while_getline_inv
           (λ g, roads_in_place g ∧ roads_paired g ∧ int_costs g)); [|done].
  intros row g1 g2 (Hplace & Hpaired & Hint) Hrow.
  apply loadLocations_row_Some in Hrow as [->|(id & code & parking & -> & _)];
    [done|].
  split_and!.
  - by apply addLocation_roads_in_place.
  - by apply addLocation_roads_paired.
  - intros i l r Hl Hr. unfold addLocation in Hl.
    apply lookup_app_Some in Hl as [Hl|[_ Hl]]; [by eapply Hint|].
    apply list_lookup_singleton_Some in Hl as [_ <-]. simpl in Hr.
    by apply elem_of_nil in Hr.
Qed.

Lemma loadDistances_network file g g' :
  loadDistances file g = Some g' →
  roads_in_place g ∧ roads_paired g ∧ int_costs g →
  roads_in_place g' ∧ roads_paired g' ∧ int_costs g'.
Proof.
  intros Hload Hg.
  destruct file as [text|]; unfold loadDistances in Hload; [|by simplify_eq].
  destruct (getline _ _ _) as [[inp line] ok]. revert Hload.
  apply (while_getline_inv
           (λ g, roads_in_place g ∧ roads_paired g ∧ int_costs g)); [|done].
  intros row g1 g2 (Hplace & Hpaired & Hint) Hrow.
  apply loadDistances_row_Some in Hrow
    as [->|(f & t & d & w & -> & Hf & Ht & Hd & Hw)]; [done|].
  split_and!.
  - apply addRoad_roads_in_place; [done|by intros ? [= <-]..].
  - by apply addRoad_roads_paired.
  - intros i l r Hl Hr. rewrite addRoad_lookup in Hl.
    destruct (g1 !! i) as [l0|] eqn:Hl0; [|done]. simpl in Hl.
    injection Hl as <-. simpl in Hr.
    rewrite !elem_of_app in Hr. destruct Hr as [Hr|[Hr|Hr]].
    + by eapply Hint.
    + case_decide; [|by apply elem_of_nil in Hr].
      apply list_elem_of_singleton in Hr. by subst.
    + case_decide; [|by apply elem_of_nil in Hr].
      apply list_elem_of_singleton in Hr. by subst.
Qed.

(** X5: the network that [loadData] builds.  Starting from the empty graph,
    whatever the two files hold, every road is stored in the adjacency list
    of its origin and ends at a location of the graph, every road has its
    mirror image with the same driving and walking cost at its other end,
    and both costs are values of type [int]. *)
Theorem loadData_network locations distances g :
  loadData locations distances [] = Some g →
  roads_in_place g ∧ roads_paired g ∧ int_costs g.
Proof.
  unfold loadData. intros Hload.
  destruct (loadLocations locations []) as [g1|] eqn:Hlocs; [|done].
  eapply loadDistances_network; [exact Hload|].
  eapply loadLocations_network; [exact Hlocs|].
  split_and!; by intros i l r ?.
Qed.

Lemma loadData_network_witness :
  roads_in_place example_network ∧ roads_paired example_network
  ∧ int_costs example_network.
Proof.
  apply (loadData_network (Some example_locations_txt)
           (Some example_distances_txt)).
  reflexivity.
Defined.

(** ** Graph.cpp: dijkstra *)

Lemma dijkstra_shortest_ok isDriving bn bs g W fuel s d si ls di ld r rs :
  network_ok isDriving W g →
  findLocation g s = Some (si, ls) →
  findLocation g d = Some (di, ld) →
  dijkstra fuel g s d isDriving bn bs = Some r →
  route g si rs di →
  Forall (usable isDriving bn bs g) rs →
  res_path r ≠ [] ∧ res_cost r ≤ route_cost isDriving rs.
Proof.
  intros Hok. pose proof Hok as (Hids & _ & HW & Hrange).
  apply (dijkstra_shortest isDriving bn bs g W si); try done.
  - by eapply network_ok_wf_roads.
  - intros i l r0 Hl Hr. by destruct (network_ok_road _ _ _ _ _ _ Hok Hl Hr) as (_ & ? & _).
  - intros i l r0 Hl Hr. by destruct (network_ok_road _ _ _ _ _ _ Hok Hl Hr) as (_ & _ & ?).
Qed.

(** X6: [dijkstra] returns a cheapest route.  On a well-formed network with
    bounded non-negative costs, whenever some route from the source to the
    destination avoids the blocked nodes and segments, the call returns a
    route that does so too, and no such route costs less than the returned
    total. *)
Theorem dijkstra_returns_cheapest_route isDriving W g fuel s d si ls di ld bn bs rs :
  network_ok isDriving W g →
  findLocation g s = Some (si, ls) →
  findLocation g d = Some (di, ld) →
  (enough_fuel g ≤ fuel)%nat →
  route g si rs di →
  Forall (usable isDriving bn bs g) rs →
  ∃ r rs0,
    dijkstra fuel g s d isDriving bn bs = Some r
    ∧ route g si rs0 di
    ∧ Forall (usable isDriving bn bs g) rs0
    ∧ res_path r = route_ids g si rs0
    ∧ res_cost r = route_cost isDriving rs0
    ∧ route_cost isDriving rs0 ≤ route_cost isDriving rs.
Proof.
  intros Hok Hsrc Hdst Hfuel Hroute Huse.
  destruct (dijkstra_spec_ok isDriving bn bs g W fuel s d si ls di ld
              Hok Hsrc Hdst Hfuel) as (r & rs0 & Hrun & _ & _ & Hcases).
  destruct (dijkstra_shortest_ok _ _ _ _ _ _ _ _ _ _ _ _ _ _
              Hok Hsrc Hdst Hrun Hroute Huse) as [Hne Hle].
  destruct Hcases as [(Hnil & _)|(Hroute0 & _ & Huse0 & Hpath & Hcost & _)];
    [done|].
  exists r, rs0. split_and!; try done. by rewrite <- Hcost.
Qed.

Lemma detour_direct_route : route detour_network 0 [mkRoad 0 2 10 30] 2.
Proof.
  change (route detour_network 0 ([] ++ [mkRoad 0 2 10 30])
            (getDestination (mkRoad 0 2 10 30))).
  eapply route_snoc with (x := 0%nat).
  - constructor. simpl. lia.
  - reflexivity.
  - simpl. set_solver.
Qed.

Lemma dijkstra_returns_cheapest_route_witness :
  ∃ r rs0,
    dijkstra 20 detour_network 1 3 true ∅ ∅ = Some r
    ∧ route detour_network 0 rs0 2
    ∧ Forall (usable true ∅ ∅ detour_network) rs0
    ∧ res_path r = route_ids detour_network 0 rs0
    ∧ res_cost r = route_cost true rs0
    ∧ route_cost true rs0 ≤ route_cost true [mkRoad 0 2 10 30].
Proof.
  eapply (dijkstra_returns_cheapest_route true 10 detour_network 20 1 3).
  - compute_done.
  - reflexivity.
  - reflexivity.
  - vm_compute. lia.
  - exact detour_direct_route.
  - repeat constructor; set_solver.
Defined.

Example example_detour_query :
  (λ r, (res_path r, res_cost r)) <$> dijkstra 20 detour_network 1 3 true ∅ ∅
  = Some ([1; 2; 3], 7).
Proof. reflexivity. Qed.

Lemma findLocation_None g c : findLocation g c = None ↔ c ∉ getId <$> g.
Proof.
  unfold findLocation. rewrite list_find_None, Forall_forall, list_elem_of_fmap.
  split.
  - intros Hall (l & -> & Hl). by apply (Hall l).
  - intros Hno l Hl Heq. apply Hno. by exists l.
Qed.

Lemma findLocation_None_same_network g g' c :
  same_network g g' → findLocation g c = None → findLocation g' c = None.
Proof.
  intros Hs. rewrite !findLocation_None. by rewrite (same_network_ids _ _ Hs).
Qed.

Lemma dijkstra_unknown_source fuel g s d isDriving bn bs :
  findLocation g s = None → dijkstra fuel g s d isDriving bn bs = None.
Proof.
  intros Hs. unfold dijkstra.
  by rewrite (findLocation_None_same_network _ _ _ (same_network_init g) Hs).
Qed.

Lemma dijkstra_unknown_destination fuel g s d isDriving bn bs :
  findLocation g d = None → dijkstra fuel g s d isDriving bn bs = None.
Proof.
  intros Hd. destruct (dijkstra fuel g s d isDriving bn bs) as [r|] eqn:Hrun;
    [|done].
  pose proof (dijkstra_res_network _ _ _ _ _ _ _ _ Hrun) as Hnet.
  apply dijkstra_Some in Hrun as (? & ? & g2 & di & dst & _ & _ & Hdst & <- & _).
  by rewrite (findLocation_None_same_network _ _ _ Hnet Hd) in Hdst.
Qed.

(** X7: a search from or to an identifier that no location has.  [dijkstra]
    dereferences what [findLocation] returns without a test, so the call has
    no defined result, whatever the network, the mode and the exclusion
    sets. *)
Theorem dijkstra_unknown_endpoint fuel g s d isDriving bn bs :
  findLocation g s = None ∨ findLocation g d = None →
  dijkstra fuel g s d isDriving bn bs = None.
Proof.
  intros [Hs|Hd];
    [by apply dijkstra_unknown_source|by apply dijkstra_unknown_destination].
Qed.

Lemma dijkstra_unknown_endpoint_witness :
  dijkstra 20 example_network 1 9 true ∅ ∅ = None.
Proof. apply dijkstra_unknown_endpoint. right. reflexivity. Defined.

(** X8: the segments a call blocks.  After a call that returns, the
    caller's set holds what it held before and the directed segments of the
    returned path, and nothing else; a call that returns no path leaves the
    set as it was. *)
Theorem dijkstra_blocks_exactly_its_path fuel g s d isDriving bn bs r :
  dijkstra fuel g s d isDriving bn bs = Some r →
  res_blockedSegments r = bs ∪ list_to_set (path_segments (res_path r))
  ∧ (res_path r = [] → res_blockedSegments r = bs).
Proof.
  intros Hrun.
  destruct (dijkstra_path_roads _ _ _ _ _ _ _ _ Hrun)
    as (di & rs & e & _ & _ & _ & _ & Hsegs & Hbs).
  assert (res_blockedSegments r = bs ∪ list_to_set (path_segments (res_path r)))
    as Heq.
  { rewrite Hbs, Hsegs. apply set_eq. intros seg.
    rewrite !elem_of_union, !elem_of_list_to_set, elem_of_reverse. tauto. }
  split; [done|]. intros Hnil. rewrite Heq, Hnil. simpl. set_solver.
Qed.

Lemma dijkstra_blocks_exactly_its_path_witness :
  from_option
    (λ r, res_blockedSegments r
          = {[ (7, 8) ]} ∪ list_to_set (path_segments (res_path r))
          ∧ (res_path r = [] → res_blockedSegments r = {[ (7, 8) ]}))
    False (dijkstra 20 example_network 1 3 true ∅ {[ (7, 8) ]}).
Proof.
  destruct (dijkstra 20 example_network 1 3 true ∅ {[ (7, 8) ]}) as [r|] eqn:E;
    simpl; [exact (dijkstra_blocks_exactly_its_path _ _ _ _ _ _ _ _ E)|].
  vm_compute in E. discriminate.
Defined.

Lemma route_nodes_lt g u rs v :
  route g u rs v → roads_in_place g →
  Forall (λ i, (i < length g)%nat) (route_nodes u rs).
Proof.
  intros Hroute Hplace. unfold route_nodes.
  induction Hroute as [v Hv|u rs x lx r Hroute IH Hx Hr].
  - by apply Forall_singleton.
  - rewrite fmap_app, app_comm_cons. apply Forall_app. split; [done|].
    apply Forall_singleton. by destruct (Hplace _ _ _ Hx Hr).
Qed.

Lemma network_ok_roads_in_place isDriving W g :
  network_ok isDriving W g → roads_in_place g.
Proof.
  intros Hok i l r Hl Hr.
  by destruct (network_ok_road _ _ _ _ _ _ Hok Hl Hr) as (? & ? & _).
Qed.

Lemma route_ids_nodes g u rs : route_ids g u rs = id_at g <$> route_nodes u rs.
Proof. unfold route_ids, route_nodes. simpl. by rewrite <- list_fmap_compose. Qed.

Lemma NoDup_route_ids g u rs :
  NoDup (getId <$> g) →
  Forall (λ i, (i < length g)%nat) (route_nodes u rs) →
  NoDup (route_nodes u rs) → NoDup (route_ids g u rs).
Proof.
  intros Hids Hlt Hnd. rewrite route_ids_nodes.
  apply NoDup_fmap_2_strong; [|done].
  intros i j Hi Hj Heq. rewrite Forall_forall in Hlt.
  destruct (lookup_lt_is_Some_2 g i (Hlt _ Hi)) as [li Hli].
  destruct (lookup_lt_is_Some_2 g j (Hlt _ Hj)) as [lj Hlj].
  rewrite (id_at_lookup _ _ _ Hli), (id_at_lookup _ _ _ Hlj) in Heq.
  eapply NoDup_lookup; [exact Hids|..]; rewrite list_lookup_fmap.
  - by rewrite Hli.
  - rewrite Hlj. simpl. by rewrite Heq.
Qed.

(** X9: the returned path is simple.  On a well-formed network with bounded
    non-negative costs the search returns, no identifier occurs twice in the
    returned path, and the path is no longer than the graph has
    locations. *)
Theorem dijkstra_path_is_simple isDriving W g fuel s d si ls di ld bn bs :
  network_ok isDriving W g →
  findLocation g s = Some (si, ls) →
  findLocation g d = Some (di, ld) →
  (enough_fuel g ≤ fuel)%nat →
  ∃ r, dijkstra fuel g s d isDriving bn bs = Some r
       ∧ NoDup (res_path r)
       ∧ (length (res_path r) ≤ length g)%nat.
Proof.
  intros Hok Hsrc Hdst Hfuel.
  destruct (dijkstra_spec_ok isDriving bn bs g W fuel s d si ls di ld
              Hok Hsrc Hdst Hfuel) as (r & rs & Hrun & _ & _ & Hcases).
  exists r. split; [done|].
  destruct Hcases
    as [(-> & _)|(Hroute & _ & _ & -> & _ & _ & Hnd & _ & Hlen & _)].
  { split; [constructor|simpl; lia]. }
  split.
  - apply NoDup_route_ids; [by destruct Hok| |done].
    eapply route_nodes_lt; [done|by eapply network_ok_roads_in_place].
  - unfold route_ids. simpl. rewrite length_fmap. lia.
Qed.

Lemma dijkstra_path_is_simple_witness :
  ∃ r, dijkstra 20 detour_network 1 3 true ∅ ∅ = Some r
       ∧ NoDup (res_path r)
       ∧ (length (res_path r) ≤ length detour_network)%nat.
Proof.
  eapply (dijkstra_path_is_simple true 10 detour_network 20 1 3).
  - compute_done.
  - reflexivity.
  - reflexivity.
  - vm_compute. lia.
Defined.

(** *** More restrictions, longer routes *)

Lemma usable_weaken isDriving bn bn' bs bs' g r :
  bn ⊆ bn' → bs ⊆ bs' →
  usable isDriving bn' bs' g r → usable isDriving bn bs g r.
Proof. intros Hbn Hbs (? & ? & ?). split_and!; [done|set_solver..]. Qed.

(** X10: avoiding more never shortens the route.  On a well-formed network,
    when a search with more blocked nodes and more blocked segments still
    finds a route, the search with fewer finds one too, and its total is not
    larger. *)
Theorem dijkstra_more_restrictions_cost_more isDriving W g fuel s d si ls di ld
    bn bn' bs bs' r r' :
  network_ok isDriving W g →
  findLocation g s = Some (si, ls) →
  findLocation g d = Some (di, ld) →
  (enough_fuel g ≤ fuel)%nat →
  bn ⊆ bn' → bs ⊆ bs' →
  dijkstra fuel g s d isDriving bn bs = Some r →
  dijkstra fuel g s d isDriving bn' bs' = Some r' →
  res_path r' ≠ [] →
  res_path r ≠ [] ∧ res_cost r ≤ res_cost r'.
Proof.
  intros Hok Hsrc Hdst Hfuel Hbn Hbs Hrun Hrun' Hne.
  destruct (dijkstra_spec_ok isDriving bn' bs' g W fuel s d si ls di ld
              Hok Hsrc Hdst Hfuel) as (r0 & rs & Hrun0 & _ & _ & Hcases).
  simplify_eq.
  destruct Hcases as [(? & _)|(Hroute & _ & Huse & _ & Hcost & _)]; [done|].
  rewrite Hcost.
  apply (dijkstra_shortest_ok isDriving bn bs g W fuel s d si ls di ld r rs
           Hok Hsrc Hdst Hrun Hroute).
  eapply Forall_impl; [exact Huse|]. intros road. by apply usable_weaken.
Qed.

Example example_detour_blocked :
  (λ r, (res_path r, res_cost r)) <$> dijkstra 20 detour_network 1 3 true {[ 2 ]} ∅
  = Some ([1; 3], 10).
Proof. reflexivity. Qed.

Lemma dijkstra_more_restrictions_cost_more_witness :
  from_option
    (λ r, from_option (λ r', res_path r ≠ [] ∧ res_cost r ≤ res_cost r')
            False (dijkstra 20 detour_network 1 3 true {[ 2 ]} ∅))
    False (dijkstra 20 detour_network 1 3 true ∅ ∅).
Proof.
  destruct (dijkstra 20 detour_network 1 3 true ∅ ∅) as [r|] eqn:E; simpl;
    [|vm_compute in E; discriminate].
  pose proof example_detour_blocked as Hblocked.
  destruct (dijkstra 20 detour_network 1 3 true {[ 2 ]} ∅) as [r'|] eqn:E'; simpl;
    [|discriminate].
  eapply (dijkstra_more_restrictions_cost_more true 10 detour_network 20 1 3
            _ _ _ _ ∅ {[ 2 ]} ∅ ∅ r r');
    [compute_done|reflexivity|reflexivity|vm_compute; lia|set_solver|done
    |exact E|exact E'|].
  simpl in Hblocked. injection Hblocked as Hpath _. by rewrite Hpath.
Defined.

(** *** Paths of calls in sequence *)

Lemma dijkstra_path_last fuel g s d isDriving bn bs r :
  dijkstra fuel g s d isDriving bn bs = Some r →
  res_path r ≠ [] → last (res_path r) = Some d.
Proof.
  intros Hrun Hne.
  apply dijkstra_Some in Hrun as (? & ? & g2 & di & dst & _ & _ & Hdst & _ & Hres).
  apply findLocation_Some in Hdst as [_ Hid].
  destruct Hres as [[_ ->]|(_ & path & bs' & Hrec & ->)]; [done|]. simpl.
  apply reconstruct_Some in Hrec as (rs & e & le & _ & _ & _ & _ & _ & -> & _).
  rewrite last_reverse. simpl. by rewrite Hid.
Qed.

(** A call that starts from the segments blocked by an earlier call, whatever
    the two queries, returns a path that shares no directed segment with the
    path of the earlier call. *)
Lemma later_call_avoids_earlier_path fuel1 fuel2 g g' s1 d1 m1 bn1 bs r1
    s2 d2 m2 bn2 r2 :
  wf_roads g → same_network g g' →
  dijkstra fuel1 g s1 d1 m1 bn1 bs = Some r1 →
  dijkstra fuel2 g' s2 d2 m2 bn2 (res_blockedSegments r1) = Some r2 →
  ∀ seg, seg ∈ path_segments (res_path r1) → seg ∉ path_segments (res_path r2).
Proof.
  intros Hwf Hnet Hrun1 Hrun2 seg Hin1 Hin2.
  destruct (dijkstra_path_roads _ _ _ _ _ _ _ _ Hrun1)
    as (di1 & rs1 & e1 & _ & _ & _ & _ & Hsegs1 & Hbs1).
  destruct (dijkstra_path_roads _ _ _ _ _ _ _ _ Hrun2)
    as (di2 & rs2 & e2 & _ & Hrel2 & _ & Hchain2 & Hsegs2 & _).
  assert (seg ∈ res_blockedSegments r1) as Hblocked.
  { rewrite Hbs1. rewrite Hsegs1, elem_of_reverse in Hin1. set_solver. }
  assert (res_path r2 ≠ []) as Hne.
  { intros Heq. rewrite Heq in Hin2. by apply elem_of_nil in Hin2. }
  rewrite Hsegs2, elem_of_reverse, list_elem_of_fmap in Hin2.
  destruct Hin2 as (road & -> & Hroad).
  pose proof (chain_relaxed _ _ _ _ _ _ _
                (Hrel2 (wf_roads_same_network _ _ Hnet Hwf)) (Hchain2 Hne)) as Hall.
  rewrite Forall_forall in Hall. by destruct (Hall _ Hroad) as [_ Hnot].
Qed.

(** ** Graph.cpp: EnvironmentallyFriendlyRoute *)

(** *** The sort *)

Lemma insert_suggestion_perm s l : insert_suggestion s l ≡ₚ s :: l.
Proof.
  induction l as [|t l IH]; simpl; [done|].
  case_decide; [|done]. rewrite IH. apply Permutation_swap.
Qed.

Lemma sort_suggestions_perm l : sort_suggestions l ≡ₚ l.
Proof.
  unfold sort_suggestions. induction l as [|s l IH]; simpl; [done|].
  by rewrite insert_suggestion_perm, IH.
Qed.

Lemma insert_suggestion_sorted s l :
  StronglySorted (λ a b, totalTime a ≤ totalTime b) l →
  StronglySorted (λ a b, totalTime a ≤ totalTime b) (insert_suggestion s l).
Proof.
  induction 1 as [|t l Hsorted IH Hall]; simpl.
  { repeat constructor. }
  case_decide as Hlt.
  - constructor; [done|].
    rewrite insert_suggestion_perm. constructor; [lia|done].
  - constructor; [by constructor|].
    constructor; [lia|]. eapply Forall_impl; [exact Hall|].
    simpl. intros x ?. lia.
Qed.

Lemma sort_suggestions_sorted l :
  StronglySorted (λ a b, totalTime a ≤ totalTime b) (sort_suggestions l).
Proof.
  unfold sort_suggestions. induction l as [|s l IH]; simpl; [constructor|].
  by apply insert_suggestion_sorted.
Qed.

(** *** The suggestions *)

Lemma eco_step_suggestions fuel g s d maxWalkingTime bn p st st' :
  p ∈ g →
  eco_step fuel s d maxWalkingTime bn p st = Some st' →
  Forall (suggestion_ok g s d maxWalkingTime) (suggestions st) →
  Forall (suggestion_ok g s d maxWalkingTime) (suggestions st').
Proof.
  intros Hp Hstep Hall. unfold eco_step in Hstep.
  destruct (HasParking p) eqn:Hpark; simpl in Hstep; [|by simplify_eq].
  case_bool_decide as Hps; simpl in Hstep; [by simplify_eq|].
  case_bool_decide as Hpd; simpl in Hstep; [by simplify_eq|].
  destruct (dijkstra _ _ _ _ _ _ _) as [dr|] eqn:Hdr; [|done].
  destruct (res_path dr) as [|x drive] eqn:Hdrive; [by simplify_eq|].
  simpl in Hstep.
  destruct (dijkstra _ _ _ _ _ _ _) as [wr|] eqn:Hwr in Hstep; [|done].
  destruct (res_path wr) as [|y walk] eqn:Hwalk; [by simplify_eq|].
  simpl in Hstep.
  case_decide as Hexceed.
  { case_decide; by simplify_eq. }
  simplify_eq. simpl. apply Forall_app. split; [done|].
  apply Forall_singleton. unfold suggestion_ok. simpl.
  split_and!; try done.
  - by exists p.
  - rewrite <- Hdrive. eapply dijkstra_path_last; [exact Hdr|]. by rewrite Hdrive.
  - rewrite <- Hwalk. eapply dijkstra_path_last; [exact Hwr|]. by rewrite Hwalk.
  - lia.
  - lia.
Qed.

Lemma eco_loop_suggestions fuel g s d maxWalkingTime bn ps :
  ∀ st st',
    ps ⊆ g →
    eco_loop fuel s d maxWalkingTime bn ps st = Some st' →
    Forall (suggestion_ok g s d maxWalkingTime) (suggestions st) →
    Forall (suggestion_ok g s d maxWalkingTime) (suggestions st').
Proof.
  induction ps as [|p ps IH]; intros st st' Hsub Hloop Hall; simpl in Hloop.
  - by simplify_eq.
  - destruct (eco_step _ _ _ _ _ _ _) as [st1|] eqn:Hstep; [|done].
    eapply IH; [set_solver|exact Hloop|].
    eapply eco_step_suggestions; [|exact Hstep|exact Hall]. set_solver.
Qed.

(** X11: the suggestions come back in order.  Whenever
    [EnvironmentallyFriendlyRoute] returns, its suggestions are sorted by
    non-decreasing total time. *)
Theorem eco_suggestions_sorted fuel g s d maxWalkingTime bn bs st :
  EnvironmentallyFriendlyRoute fuel g s d maxWalkingTime bn bs = Some st →
  StronglySorted (λ a b, totalTime a ≤ totalTime b) (suggestions st).
Proof.
  unfold EnvironmentallyFriendlyRoute. intros Hrun.
  destruct (eco_loop _ _ _ _ _ _ _) as [st0|]; [|done].
  case_decide as Hnil; simplify_eq; simpl.
  - rewrite Hnil. constructor.
  - apply sort_suggestions_sorted.
Qed.

Example example_parking_suggestions :
  (λ st, (bestDrive st, (λ x, (parkingNode x, totalTime x, exceedWalkingBy x))
                          <$> suggestions st))
    <$> EnvironmentallyFriendlyRoute 40 parking_network 1 5 5 ∅ ∅
  = Some ([], [(3, 21, 7); (4, 24, 15); (2, 32, 25)]).
Proof. reflexivity. Qed.

Lemma eco_suggestions_sorted_witness :
  from_option
    (λ st, StronglySorted (λ a b, totalTime a ≤ totalTime b) (suggestions st))
    False (EnvironmentallyFriendlyRoute 40 parking_network 1 5 5 ∅ ∅).
Proof.
  destruct (EnvironmentallyFriendlyRoute 40 parking_network 1 5 5 ∅ ∅)
    as [st|] eqn:E; simpl; [exact (eco_suggestions_sorted _ _ _ _ _ _ _ _ E)|].
  vm_compute in E. discriminate.
Defined.

(** X12: what a suggestion is.  Every suggestion that
    [EnvironmentallyFriendlyRoute] returns names a location of the graph
    that has parking and is neither the source nor the destination; its
    driving path ends at that location and its walking path at the
    destination; and its walk is over the limit, by the amount it reports. *)
Theorem eco_suggestions_exceed_limit fuel g s d maxWalkingTime bn bs st :
  EnvironmentallyFriendlyRoute fuel g s d maxWalkingTime bn bs = Some st →
  Forall (suggestion_ok g s d maxWalkingTime) (suggestions st).
Proof.
  unfold EnvironmentallyFriendlyRoute. intros Hrun.
  destruct (eco_loop _ _ _ _ _ _ _) as [st0|] eqn:Hloop; [|done].
  assert (Forall (suggestion_ok g s d maxWalkingTime) (suggestions st0)) as Hall.
  { eapply eco_loop_suggestions; [|exact Hloop|by constructor]. done. }
  case_decide as Hnil; simplify_eq; simpl; [done|].
  by rewrite sort_suggestions_perm.
Qed.

Lemma eco_suggestions_exceed_limit_witness :
  from_option
    (λ st, Forall (suggestion_ok parking_network 1 5 5) (suggestions st))
    False (EnvironmentallyFriendlyRoute 40 parking_network 1 5 5 ∅ ∅).
Proof.
  destruct (EnvironmentallyFriendlyRoute 40 parking_network 1 5 5 ∅ ∅)
    as [st|] eqn:E; simpl; [exact (eco_suggestions_exceed_limit _ _ _ _ _ _ _ _ E)|].
  vm_compute in E. discriminate.
Defined.

(** *** No candidate *)

Lemma eco_loop_no_candidate fuel s d maxWalkingTime bn ps st :
  Forall (λ p, HasParking p = false ∨ getId p = s ∨ getId p = d) ps →
  eco_loop fuel s d maxWalkingTime bn ps st = Some st.
Proof.
  induction 1 as [|p ps Hp Hall IH]; simpl; [done|].
  unfold eco_step.
  replace (negb (HasParking p) || bool_decide (getId p = s)
           || bool_decide (getId p = d)) with true; [done|].
  destruct Hp as [->|[Hp|Hp]]; [done|..].
  - rewrite (bool_decide_eq_true_2 _ Hp). by rewrite orb_true_r.
  - rewrite (bool_decide_eq_true_2 _ Hp). by rewrite orb_true_r.
Qed.

(** X13: no place to park.  When no location other than the source and the
    destination has parking, [EnvironmentallyFriendlyRoute] runs no search:
    it returns the initial result (no paths, parking node -1, both times
    INF, no suggestion) whatever the network, even for a source or a
    destination that does not exist, and the menu entry returns without
    writing a file. *)
Theorem eco_without_parking fuel g input :
  Forall (λ p, HasParking p = false ∨ getId p = in_sourceId input
               ∨ getId p = in_destId input) g →
  EnvironmentallyFriendlyRoute fuel g (in_sourceId input) (in_destId input)
    (in_maxWalkingTime input) (in_avoidNodes input) (in_avoidSegments input)
  = Some (mkEco g (in_avoidSegments input) INF INF [] [] (-1) [])
  ∧ planEnvironmentallyFriendlyRoute fuel g input = Some None.
Proof.
  intros Hall.
  assert (EnvironmentallyFriendlyRoute fuel g (in_sourceId input) (in_destId input)
            (in_maxWalkingTime input) (in_avoidNodes input) (in_avoidSegments input)
          = Some (mkEco g (in_avoidSegments input) INF INF [] [] (-1) [])) as Hrun.
  { unfold EnvironmentallyFriendlyRoute.
    by rewrite (eco_loop_no_candidate _ _ _ _ _ _ _ Hall). }
  split; [done|]. unfold planEnvironmentallyFriendlyRoute.
  destruct (_ || _); [done|]. by rewrite Hrun.
Qed.

Lemma eco_without_parking_witness :
  EnvironmentallyFriendlyRoute 0 lone_network 1 7 10 ∅ ∅
  = Some (mkEco lone_network ∅ INF INF [] [] (-1) [])
  ∧ planEnvironmentallyFriendlyRoute 0 lone_network (mkInput 1 7 ∅ ∅ 10 (-1) 2)
    = Some None.
Proof.
  apply (eco_without_parking 0 lone_network (mkInput 1 7 ∅ ∅ 10 (-1) 2)).
  repeat constructor.
Defined.

(** *** The two legs of the best result *)

Lemma route_head g u rs : head (route_ids g u rs) = Some (id_at g u).
Proof. done. Qed.

(** X14: the two legs of the best result meet at the parking node.  On a
    network that is well-formed for both modes, when
    [EnvironmentallyFriendlyRoute] returns a best result, its driving path
    leads from the source to the parking node, its walking path from the
    parking node to the destination, and the walking path uses no directed
    segment of the driving path. *)
Theorem eco_best_legs_meet W fuel g s d maxWalkingTime bn bs si ls di ld :
  network_ok true W g → network_ok false W g →
  findLocation g s = Some (si, ls) →
  findLocation g d = Some (di, ld) →
  (enough_fuel g ≤ fuel)%nat →
  ∃ st,
    EnvironmentallyFriendlyRoute fuel g s d maxWalkingTime bn bs = Some st
    ∧ (bestDrive st ≠ [] →
       head (bestDrive st) = Some s
       ∧ last (bestDrive st) = Some (bestParking st)
       ∧ head (bestWalk st) = Some (bestParking st)
       ∧ last (bestWalk st) = Some d
       ∧ ∀ seg, seg ∈ path_segments (bestDrive st) →
                seg ∉ path_segments (bestWalk st)).
Proof.
  intros Hdrive Hwalk Hsrc Hdst Hfuel.
  destruct (EnvironmentallyFriendlyRoute_returns W fuel g s d maxWalkingTime bn bs
              si ls di ld Hdrive Hwalk Hsrc Hdst Hfuel) as [st Hrun].
  exists st. split; [done|]. intros Hne.
  apply EnvironmentallyFriendlyRoute_Some in Hrun
    as (st0 & Hloop & _ & _ & _ & _ & Hd & Hwk & Hp).
  assert (eco_inv fuel g s d maxWalkingTime bn bs [] (mkEco g bs INF INF [] [] (-1) []))
    as Hinv0.
  { split_and!; [done|done|done|]. intros q ???? Hq. by apply elem_of_nil in Hq. }
  pose proof (eco_loop_inv _ _ _ _ _ _ _ _ _ _ _ Hinv0 Hloop)
    as (_ & _ & Hbest & _).
  rewrite Hd, Hwk, Hp. rewrite Hd in Hne.
  destruct (Hbest Hne)
    as (p & Hin & Hid & _ & _ & _ & dr & wr & Hdr & Hdne & Hwr & Hwne
        & Hdp & Hwp & _).
  simpl in Hin. apply list_elem_of_lookup in Hin as [pi Hpi].
  pose proof Hdrive as (Hids & _).
  pose proof (findLocation_unique _ _ _ Hids Hpi) as Hfind.
  destruct (dijkstra_spec_ok true bn bs g W fuel s (getId p) si ls pi p
              Hdrive Hsrc Hfind Hfuel) as (dr' & rs1 & Hdr' & _ & _ & Hcase1).
  destruct (dijkstra_spec_ok false bn (res_blockedSegments dr) g W fuel (getId p) d
              pi p di ld Hwalk Hfind Hdst Hfuel)
    as (wr' & rs2 & Hwr' & _ & _ & Hcase2).
  simplify_eq.
  destruct Hcase1 as [(? & _)|(Hroute1 & _ & _ & Hpath1 & _)]; [done|].
  destruct Hcase2 as [(? & _)|(Hroute2 & _ & _ & Hpath2 & _)]; [done|].
  apply findLocation_Some in Hsrc as [Hsi Hsid].
  rewrite <- Hid, Hdp, Hwp. split_and!.
  - by rewrite Hpath1, route_head, (id_at_lookup _ _ _ Hsi), Hsid.
  - by eapply dijkstra_path_last.
  - by rewrite Hpath2, route_head, (id_at_lookup _ _ _ Hpi).
  - by eapply dijkstra_path_last.
  - eapply later_call_avoids_earlier_path;
      [by eapply network_ok_wf_roads|apply same_network_refl|exact Hdr|exact Hwr].
Qed.

Lemma eco_best_legs_meet_witness :
  ∃ st,
    EnvironmentallyFriendlyRoute 20 example_network 1 3 5 ∅ ∅ = Some st
    ∧ (bestDrive st ≠ [] →
       head (bestDrive st) = Some 1
       ∧ last (bestDrive st) = Some (bestParking st)
       ∧ head (bestWalk st) = Some (bestParking st)
       ∧ last (bestWalk st) = Some 3
       ∧ ∀ seg, seg ∈ path_segments (bestDrive st) →
                seg ∉ path_segments (bestWalk st)).
Proof.
  eapply (eco_best_legs_meet 20 20 example_network 1 3 5 ∅ ∅).
  - compute_done.
  - compute_done.
  - reflexivity.
  - reflexivity.
  - vm_compute. lia.
Defined.

(** *** The driving time that is written *)

Lemma wrap_wrap_sub a b : wrap (wrap a - b) = wrap (a - b).
Proof.
  unfold wrap. f_equal.
  replace ((a + 2147483648) `mod` 4294967296 - 2147483648 - b + 2147483648)
    with ((a + 2147483648) `mod` 4294967296 - b) by lia.
  rewrite Zminus_mod_idemp_l. f_equal. lia.
Qed.

(** X30: the driving time of the best result.  The planner keeps the total
    and the walking time of its best result, and the menu entry writes their
    difference as the driving time.  On a network that is well-formed for
    both modes this difference is the total that the driving search returned
    for the chosen parking node, also when the sum of the two totals has
    wrapped around. *)
Theorem eco_driving_time_is_exact W fuel g s d maxWalkingTime bn bs si ls di ld :
  network_ok true W g → network_ok false W g →
  findLocation g s = Some (si, ls) →
  findLocation g d = Some (di, ld) →
  (enough_fuel g ≤ fuel)%nat →
  ∃ st,
    EnvironmentallyFriendlyRoute fuel g s d maxWalkingTime bn bs = Some st
    ∧ (bestDrive st ≠ [] →
       ∃ driveResult,
         dijkstra fuel g s (bestParking st) true bn bs = Some driveResult
         ∧ res_path driveResult = bestDrive st
         ∧ wrap (bestTotalTime st - bestWalkingTime st) = res_cost driveResult).
Proof.
  intros Hdrive Hwalk Hsrc Hdst Hfuel.
  destruct (EnvironmentallyFriendlyRoute_returns W fuel g s d maxWalkingTime bn bs
              si ls di ld Hdrive Hwalk Hsrc Hdst Hfuel) as [st Hrun].
  exists st. split; [done|]. intros Hne.
  apply EnvironmentallyFriendlyRoute_Some in Hrun
    as (st0 & Hloop & _ & _ & Ht & Hw & Hd & _ & Hp).
  assert (eco_inv fuel g s d maxWalkingTime bn bs [] (mkEco g bs INF INF [] [] (-1) []))
    as Hinv0.
  { split_and!; [done|done|done|]. intros q ???? Hq. by apply elem_of_nil in Hq. }
  pose proof (eco_loop_inv _ _ _ _ _ _ _ _ _ _ _ Hinv0 Hloop)
    as (_ & _ & Hbest & _).
  rewrite Ht, Hw, Hd, Hp. rewrite Hd in Hne.
  destruct (Hbest Hne)
    as (p & Hin & Hid & _ & _ & _ & dr & wr & Hdr & _ & _ & _
        & Hdp & _ & Hwt & Htotal & _).
  simpl in Hin. apply list_elem_of_lookup in Hin as [pi Hpi].
  pose proof Hdrive as (Hids & _).
  pose proof (findLocation_unique _ _ _ Hids Hpi) as Hfind.
  destruct (dijkstra_spec_ok true bn bs g W fuel s (getId p) si ls pi p
              Hdrive Hsrc Hfind Hfuel) as (dr' & rs1 & Hdr' & _ & _ & Hcase1).
  simplify_eq.
  exists dr. rewrite <- Hid. split_and!; [done|done|].
  rewrite Htotal, Hwt, wrap_wrap_sub.
  replace (res_cost dr + res_cost wr - res_cost wr) with (res_cost dr) by lia.
  apply wrap_small.
  destruct Hcase1 as [(_ & -> & _)|(_ & _ & _ & _ & _ & Hrange & _)];
    unfold INF in *; lia.
Qed.

Lemma eco_driving_time_is_exact_witness :
  ∃ st,
    EnvironmentallyFriendlyRoute 20 example_network 1 3 5 ∅ ∅ = Some st
    ∧ (bestDrive st ≠ [] →
       ∃ driveResult,
         dijkstra 20 example_network 1 (bestParking st) true ∅ ∅ = Some driveResult
         ∧ res_path driveResult = bestDrive st
         ∧ wrap (bestTotalTime st - bestWalkingTime st) = res_cost driveResult).
Proof.
  eapply (eco_driving_time_is_exact 20 20 example_network 1 3 5 ∅ ∅).
  - compute_done.
  - compute_done.
  - reflexivity.
  - reflexivity.
  - vm_compute. lia.
Defined.

(** *** An unknown source *)

Lemma eco_loop_unknown_source fuel s d maxWalkingTime bn ps st :
  findLocation (eco_graph st) s = None →
  Exists (λ p, HasParking p = true ∧ getId p ≠ s ∧ getId p ≠ d) ps →
  eco_loop fuel s d maxWalkingTime bn ps st = None.
Proof.
  intros Hs. induction ps as [|p ps IH]; intros Hex.
  { by apply Exists_nil in Hex. }
  simpl. unfold eco_step.
  destruct (negb (HasParking p) || bool_decide (getId p = s)
            || bool_decide (getId p = d)) eqn:Hskip.
  - apply IH. apply Exists_cons in Hex as [(Hpark & Hps & Hpd)|Hex]; [|done].
    rewrite Hpark, (bool_decide_eq_false_2 _ Hps), (bool_decide_eq_false_2 _ Hpd)
      in Hskip. done.
  - by rewrite dijkstra_unknown_source.
Qed.

(** X15: the planner does not look the source up.  Unlike the two driving
    entries of the menu, [planEnvironmentallyFriendlyRoute] does not test
    that the source exists: for a source identifier that no location has,
    as soon as some other location has parking the first search
    dereferences a null pointer, and the entry has no defined behaviour. *)
Theorem eco_unknown_source_is_not_reported fuel g input :
  in_sourceId input ≠ -1 → in_destId input ≠ -1 → in_maxWalkingTime input ≠ -1 →
  findLocation g (in_sourceId input) = None →
  Exists (λ p, HasParking p = true ∧ getId p ≠ in_sourceId input
               ∧ getId p ≠ in_destId input) g →
  planEnvironmentallyFriendlyRoute fuel g input = None.
Proof.
  intros Hs Hd Hw Hfind Hex. unfold planEnvironmentallyFriendlyRoute.
  rewrite (bool_decide_eq_false_2 _ Hs), (bool_decide_eq_false_2 _ Hd),
    (bool_decide_eq_false_2 _ Hw). simpl.
  unfold EnvironmentallyFriendlyRoute.
  by rewrite eco_loop_unknown_source.
Qed.

Lemma eco_unknown_source_is_not_reported_witness :
  planEnvironmentallyFriendlyRoute 20 example_network (mkInput 9 3 ∅ ∅ 5 (-1) 2)
  = None.
Proof.
  apply eco_unknown_source_is_not_reported; try done.
  apply Exists_cons_tl, Exists_cons_hd. done.
Defined.

(** ** Menu.cpp: when planEnvironmentallyFriendlyRoute has no defined behaviour *)

(** X16: the one case in which [planEnvironmentallyFriendlyRoute] reads past
    the end of the suggestions.  For a request that passes the entry's
    test, once the planner has returned, the entry has no defined behaviour
    exactly when there is no best result and exactly one suggestion; in
    every other case it returns, with or without writing a file. *)
Theorem eco_entry_undefined_iff fuel g input st :
  in_sourceId input ≠ -1 → in_destId input ≠ -1 → in_maxWalkingTime input ≠ -1 →
  EnvironmentallyFriendlyRoute fuel g (in_sourceId input) (in_destId input)
    (in_maxWalkingTime input) (in_avoidNodes input) (in_avoidSegments input)
  = Some st →
  planEnvironmentallyFriendlyRoute fuel g input = None
  ↔ (bestDrive st = [] ∨ bestWalk st = [] ∨ bestParking st = -1)
    ∧ length (suggestions st) = 1%nat.
Proof.
  intros Hs Hd Hw Hrun. unfold planEnvironmentallyFriendlyRoute.
  rewrite (bool_decide_eq_false_2 _ Hs), (bool_decide_eq_false_2 _ Hd),
    (bool_decide_eq_false_2 _ Hw), Hrun. simpl.
  unfold eco_output.
  destruct (bool_decide (bestDrive st ≠ []) && bool_decide (bestWalk st ≠ [])
            && bool_decide (bestParking st ≠ -1)) eqn:Hbest.
  - apply andb_true_iff in Hbest as [Hbest Hp].
    apply andb_true_iff in Hbest as [Hdr Hwk].
    apply bool_decide_eq_true in Hdr, Hwk, Hp.
    unfold writeOutputFile. simpl.
    rewrite (bool_decide_eq_false_2 (bestDrive st = [])) by done. simpl.
    split; [done|]. intros [[?|[?|?]] _]; done.
  - assert (bestDrive st = [] ∨ bestWalk st = [] ∨ bestParking st = -1) as Hno.
    { apply andb_false_iff in Hbest as [Hbest|Hp].
      - apply andb_false_iff in Hbest as [Hdr|Hwk].
        + left. apply bool_decide_eq_false in Hdr.
          by destruct (bestDrive st); [|destruct Hdr].
        + right. left. apply bool_decide_eq_false in Hwk.
          by destruct (bestWalk st); [|destruct Hwk].
      - right. right. apply bool_decide_eq_false in Hp.
        destruct (decide (bestParking st = -1)); [done|by destruct Hp]. }
    destruct (suggestions st) as [|s0 [|s1 rest]] eqn:Hsugg.
    + split; [done|]. by intros [_ ?].
    + unfold writeOutputFile. simpl. rewrite !andb_false_r. simpl.
      split; [done|by intros _].
    + unfold writeOutputFile. simpl. rewrite !andb_false_r. simpl.
      split; [done|]. by intros [_ ?].
Qed.

Lemma eco_entry_undefined_iff_witness :
  from_option
    (λ st, planEnvironmentallyFriendlyRoute 40 parking_network
             (mkInput 1 5 ∅ ∅ 5 (-1) 2) = None
           ↔ (bestDrive st = [] ∨ bestWalk st = [] ∨ bestParking st = -1)
             ∧ length (suggestions st) = 1%nat)
    False (EnvironmentallyFriendlyRoute 40 parking_network 1 5 5 ∅ ∅).
Proof.
  destruct (EnvironmentallyFriendlyRoute 40 parking_network 1 5 5 ∅ ∅)
    as [st|] eqn:E; simpl; [|vm_compute in E; discriminate].
  by apply (eco_entry_undefined_iff 40 parking_network (mkInput 1 5 ∅ ∅ 5 (-1) 2)).
Defined.

(** ** Menu.cpp: planNormalRoute and planRestrictedRoute *)

Lemma usable_mono isDriving bn bs bs' g r :
  bs ⊆ bs' → usable isDriving bn bs' g r → usable isDriving bn bs g r.
Proof. intros Hsub (? & ? & ?). split_and!; [done..|set_solver]. Qed.

Lemma route_app g u rs1 v rs2 w :
  route g u rs1 v → route g v rs2 w → route g u (rs1 ++ rs2) w.
Proof.
  intros H1 H2. induction H2 as [v Hv|v rs2 x lx r H2 IH Hx Hr].
  - by rewrite app_nil_r.
  - rewrite app_assoc. eapply route_snoc; [by apply IH|done..].
Qed.

Lemma route_ids_app g u rs1 v rs2 :
  route g u rs1 v →
  route_ids g u (rs1 ++ rs2) = removelast (route_ids g u rs1) ++ route_ids g v rs2.
Proof.
  intros H1. pose proof (route_last _ _ _ _ H1) as Hlast.
  apply last_Some in Hlast as [front Hfront].
  rewrite Hfront, removelast_last.
  unfold route_ids in *. rewrite fmap_app, app_comm_cons, Hfront.
  by rewrite <- app_assoc.
Qed.

(** X17: the requests that the two driving entries turn down.  When the
    source or the destination is -1 or is the identifier of no location,
    [planNormalRoute] and [planRestrictedRoute] return without searching and
    without writing a file. *)
Theorem driving_entries_reject_unknown_endpoints fuel g input uninit :
  in_sourceId input = -1 ∨ in_destId input = -1
  ∨ findLocation g (in_sourceId input) = None
  ∨ findLocation g (in_destId input) = None →
  planNormalRoute fuel g input uninit = Some None
  ∧ planRestrictedRoute fuel g input uninit = Some None.
Proof.
  intros Hbad.
  unfold planNormalRoute, planNormalRoute_output,
    planRestrictedRoute, planRestrictedRoute_output.
  destruct (bool_decide (in_sourceId input = -1)) eqn:Hs; [done|].
  destruct (bool_decide (in_destId input = -1)) eqn:Hd; [done|]. simpl.
  apply bool_decide_eq_false in Hs, Hd.
  destruct Hbad as [?|[?|[Hf|Hf]]]; [done|done|..]; rewrite Hf; [done|].
  by destruct (findLocation g (in_sourceId input)).
Qed.

Lemma driving_entries_reject_unknown_endpoints_witness :
  planNormalRoute 20 example_network (mkInput 1 9 ∅ ∅ (-1) (-1) 0) 0 = Some None
  ∧ planRestrictedRoute 20 example_network (mkInput 1 9 ∅ ∅ (-1) (-1) 0) 0
    = Some None.
Proof.
  apply driving_entries_reject_unknown_endpoints. right. right. right. reflexivity.
Defined.

Lemma writeOutputFile_driving output :
  out_TypeOfInput output ≠ 2 → is_Some (writeOutputFile output).
Proof. intros Htype. unfold writeOutputFile. by rewrite decide_False. Qed.

(** X18: the alternative of [planNormalRoute].  On a well-formed network, for
    a source and a destination that exist, the entry writes its file.  The
    best route is what [dijkstra] returns for the request.  An alternative is
    only looked for when the best route has more than one node; it shares no
    directed segment with the best route and is never faster than it. *)
Theorem planNormalRoute_alternative W fuel g input uninit si ls di ld :
  network_ok true W g →
  in_sourceId input ≠ -1 → in_destId input ≠ -1 →
  findLocation g (in_sourceId input) = Some (si, ls) →
  findLocation g (in_destId input) = Some (di, ld) →
  (enough_fuel g ≤ fuel)%nat →
  ∃ best out text,
    dijkstra fuel g (in_sourceId input) (in_destId input) true
      (in_avoidNodes input) (in_avoidSegments input) = Some best
    ∧ planNormalRoute_output fuel g input uninit = Some (Some out)
    ∧ planNormalRoute fuel g input uninit = Some (Some text)
    ∧ out_bestPath out = (res_path best, res_cost best)
    ∧ ((length (res_path best) ≤ 1)%nat → out_altPath out = ([], 0))
    ∧ (∀ seg, seg ∈ path_segments (out_bestPath out).1 →
              seg ∉ path_segments (out_altPath out).1)
    ∧ ((out_altPath out).1 ≠ [] → (out_bestPath out).2 ≤ (out_altPath out).2).
Proof.
  intros Hok Hs Hd Hsrc Hdst Hfuel.
  destruct (dijkstra_spec_ok true (in_avoidNodes input) (in_avoidSegments input)
              g W fuel _ _ si ls di ld Hok Hsrc Hdst Hfuel)
    as (best & rs1 & Hbest & Hnet1 & Hbs1 & _).
  assert (∀ out, planNormalRoute_output fuel g input uninit = Some (Some out) →
            out_TypeOfInput out = 0 →
            ∃ text, planNormalRoute fuel g input uninit = Some (Some text))
    as Hwrite.
  { intros out Hout Htype. unfold planNormalRoute. rewrite Hout.
    destruct (writeOutputFile_driving out) as [text ->]; [by rewrite Htype|].
    by exists text. }
  unfold planNormalRoute_output in *.
  rewrite (bool_decide_eq_false_2 _ Hs), (bool_decide_eq_false_2 _ Hd) in *.
  simpl in *. rewrite Hsrc, Hdst, Hbest in *.
  case_decide as Hlen.
  - rewrite (dijkstra_same_network _ _ _ _ _ _ _ _ Hnet1) in *.
    destruct (dijkstra_spec_ok true (in_avoidNodes input) (res_blockedSegments best)
                g W fuel _ _ si ls di ld Hok Hsrc Hdst Hfuel)
      as (alt & rs2 & Halt & _ & _ & Hcase2).
    rewrite Halt in *.
    destruct (Hwrite _ eq_refl eq_refl) as [text Htext].
    eexists best, _, text. split_and!; [done|done|done|done|..]; simpl.
    + lia.
    + eapply later_call_avoids_earlier_path;
        [by eapply network_ok_wf_roads|apply same_network_refl|exact Hbest|exact Halt].
    + intros Hne.
      destruct Hcase2 as [(? & _)|(Hroute2 & _ & Huse2 & _ & Hcost2 & _)]; [done|].
      rewrite Hcost2.
      destruct (dijkstra_shortest_ok true (in_avoidNodes input)
                  (in_avoidSegments input) g W fuel _ _ si ls di ld best rs2
                  Hok Hsrc Hdst Hbest Hroute2) as [_ Hle]; [|done].
      eapply Forall_impl; [exact Huse2|].
      intros r. apply usable_mono. rewrite Hbs1. set_solver.
  - destruct (Hwrite _ eq_refl eq_refl) as [text Htext].
    eexists best, _, text. split_and!; [done|done|done|done|..]; simpl.
    + done.
    + intros seg _ Hin. by apply elem_of_nil in Hin.
    + done.
Qed.

Lemma planNormalRoute_alternative_witness :
  ∃ best out text,
    dijkstra 20 detour_network 1 3 true ∅ ∅ = Some best
    ∧ planNormalRoute_output 20 detour_network (mkInput 1 3 ∅ ∅ (-1) (-1) 0) 0
      = Some (Some out)
    ∧ planNormalRoute 20 detour_network (mkInput 1 3 ∅ ∅ (-1) (-1) 0) 0
      = Some (Some text)
    ∧ out_bestPath out = (res_path best, res_cost best)
    ∧ ((length (res_path best) ≤ 1)%nat → out_altPath out = ([], 0))
    ∧ (∀ seg, seg ∈ path_segments (out_bestPath out).1 →
              seg ∉ path_segments (out_altPath out).1)
    ∧ ((out_altPath out).1 ≠ [] → (out_bestPath out).2 ≤ (out_altPath out).2).
Proof.
  eapply (planNormalRoute_alternative 10 20 detour_network
            (mkInput 1 3 ∅ ∅ (-1) (-1) 0) 0).
  - compute_done.
  - done.
  - done.
  - reflexivity.
  - reflexivity.
  - vm_compute. lia.
Defined.

Example example_detour_alternative :
  planNormalRoute 20 detour_network (mkInput 1 3 ∅ ∅ (-1) (-1) 0) 0
  = Some (Some ("Source:1" +:+ newline +:+ "Destination:3" +:+ newline +:+
                "BestDrivingRoute:1,2,3 (7 min)" +:+ newline +:+
                "AlternativeRoute:1,3 (10 min)" +:+ newline)).
Proof. reflexivity. Qed.

(** X19: the members that stay without a value.  [planNormalRoute] and
    [planRestrictedRoute] never assign [parkingNode] and [totalTime] of
    their [Output], and [writeOutputFile] never reads them for these two
    entries: whatever the two members hold, the entries behave the same and
    write the same file. *)
Theorem driving_entries_ignore_unset_members fuel g input uninit uninit' :
  planNormalRoute fuel g input uninit = planNormalRoute fuel g input uninit'
  ∧ planRestrictedRoute fuel g input uninit
    = planRestrictedRoute fuel g input uninit'.
Proof.
  unfold planNormalRoute, planNormalRoute_output,
    planRestrictedRoute, planRestrictedRoute_output.
  destruct (_ || _); [done|].
  destruct (findLocation g (in_sourceId input)); [|done].
  destruct (findLocation g (in_destId input)); [|done].
  split.
  - destruct (dijkstra _ _ _ _ _ _ _) as [best|]; [|done].
    case_decide; [|done].
    by destruct (dijkstra _ _ _ _ _ _ _) as [alt|].
  - case_decide.
    + destruct (dijkstra _ _ _ _ _ _ _) as [firstHalf|]; [|done].
      destruct (res_path firstHalf); [done|].
      destruct (dijkstra _ _ _ _ _ _ _) as [secondHalf|]; [|done].
      by destruct (res_path secondHalf).
    + by destruct (dijkstra _ _ _ _ _ _ _) as [best|].
Qed.

(** X20: a restricted route through a node to include.  On a well-formed
    network, for a source, a node to include and a destination that exist,
    [planRestrictedRoute] writes its file.  When it reports a route, the
    route is a walk in the network from the source to the included node and
    on to the destination, over roads that avoid the blocked nodes and
    segments; its second part uses no directed segment of its first part, and
    the reported time is the sum of the costs of its roads (as an [int]).
    It reports no route when the search for the first part finds none, or
    when the search for the second part, which also avoids the segments of
    the first, finds none. *)
Theorem planRestrictedRoute_through_include W fuel g input uninit
    si ls ii li di ld :
  network_ok true W g →
  in_sourceId input ≠ -1 → in_destId input ≠ -1 → in_includeNodeId input ≠ -1 →
  findLocation g (in_sourceId input) = Some (si, ls) →
  findLocation g (in_includeNodeId input) = Some (ii, li) →
  findLocation g (in_destId input) = Some (di, ld) →
  (enough_fuel g ≤ fuel)%nat →
  ∃ out text,
    planRestrictedRoute_output fuel g input uninit = Some (Some out)
    ∧ planRestrictedRoute fuel g input uninit = Some (Some text)
    ∧ ((out_bestPath out = ([], 0)
        ∧ ((∀ rs1, route g si rs1 ii →
              ¬ Forall (usable true (in_avoidNodes input)
                          (in_avoidSegments input) g) rs1)
           ∨ ∃ rs1,
               route g si rs1 ii
               ∧ ∀ rs2, route g ii rs2 di →
                   ¬ Forall (usable true (in_avoidNodes input)
                               (list_to_set (road_segment g <$> rs1)
                                ∪ in_avoidSegments input) g) rs2))
       ∨ ∃ rs1 rs2,
           route g si rs1 ii ∧ route g ii rs2 di
           ∧ Forall (usable true (in_avoidNodes input)
                       (in_avoidSegments input) g) (rs1 ++ rs2)
           ∧ (out_bestPath out).1 = route_ids g si (rs1 ++ rs2)
           ∧ (out_bestPath out).2 = wrap (route_cost true (rs1 ++ rs2))
           ∧ ∀ r, r ∈ rs2 → road_segment g r ∉ (road_segment g <$> rs1)).
Proof.
  intros Hok Hs Hd Hinc Hsrc Hmid Hdst Hfuel.
  destruct (dijkstra_spec_ok true (in_avoidNodes input) (in_avoidSegments input)
              g W fuel _ _ si ls ii li Hok Hsrc Hmid Hfuel)
    as (first & rs1 & Hfirst & Hnet1 & Hbs1 & Hcase1).
  assert (∀ out, planRestrictedRoute_output fuel g input uninit = Some (Some out) →
            out_TypeOfInput out = 1 →
            ∃ text, planRestrictedRoute fuel g input uninit = Some (Some text))
    as Hwrite.
  { intros out Hout Htype. unfold planRestrictedRoute. rewrite Hout.
    destruct (writeOutputFile_driving out) as [text ->]; [by rewrite Htype|].
    by exists text. }
  unfold planRestrictedRoute_output in *.
  rewrite (bool_decide_eq_false_2 _ Hs), (bool_decide_eq_false_2 _ Hd) in *.
  simpl in *. rewrite Hsrc, Hdst in *.
  rewrite (decide_True (P := in_includeNodeId input ≠ -1)) in * by done.
  rewrite Hfirst in *.
  destruct Hcase1 as [(Hnil1 & _ & _ & _ & Hnone1)
                     |(Hroute1 & _ & Huse1 & Hpath1 & Hcost1 & _)].
  { rewrite Hnil1 in *.
    destruct (Hwrite _ eq_refl eq_refl) as [text Htext].
    eexists _, text. split_and!; [done|done|]. left. split; [done|by left]. }
  destruct (res_path first) as [|x path1] eqn:Hp1; [done|].
  rewrite (dijkstra_same_network _ _ _ _ _ _ _ _ Hnet1) in *.
  destruct (dijkstra_spec_ok true (in_avoidNodes input) (res_blockedSegments first)
              g W fuel _ _ ii li di ld Hok Hmid Hdst Hfuel)
    as (second & rs2 & Hsecond & _ & _ & Hcase2).
  rewrite Hsecond in *.
  destruct Hcase2 as [(Hnil2 & _ & _ & _ & Hnone2)
                     |(Hroute2 & _ & Huse2 & Hpath2 & Hcost2 & _)].
  { rewrite Hnil2 in *.
    destruct (Hwrite _ eq_refl eq_refl) as [text Htext].
    eexists _, text. split_and!; [done|done|]. left. split; [done|right].
    exists rs1. split; [done|]. by rewrite <- Hbs1. }
  destruct (res_path second) as [|y path2] eqn:Hp2; [done|].
  destruct (Hwrite _ eq_refl eq_refl) as [text Htext].
  eexists _, text. split_and!; [done|done|]. right.
  exists rs1, rs2. simpl. split_and!; [done|done|..].
  - apply Forall_app. split; [done|].
    eapply Forall_impl; [exact Huse2|].
    intros r. apply usable_mono. rewrite Hbs1. set_solver.
  - rewrite (route_ids_app _ _ _ _ _ Hroute1). by rewrite <- Hpath1, <- Hpath2.
  - by rewrite route_cost_app, <- Hcost1, <- Hcost2.
  - intros r Hr Hin. rewrite Forall_forall in Huse2.
    destruct (Huse2 r Hr) as (_ & _ & Hnot). apply Hnot.
    rewrite Hbs1. by apply elem_of_union_l, elem_of_list_to_set.
Qed.

Example example_spur_route :
  planRestrictedRoute 30 spur_network (mkInput 1 4 ∅ ∅ (-1) 3 1) 0
  = Some (Some ("Source:1" +:+ newline +:+ "Destination:4" +:+ newline +:+
                "RestrictedDrivingRoute:1,2,3,2,4 (12 min)" +:+ newline)).
Proof. reflexivity. Qed.

Lemma planRestrictedRoute_through_include_witness :
  ∃ out text,
    planRestrictedRoute_output 30 spur_network (mkInput 1 4 ∅ ∅ (-1) 3 1) 0
      = Some (Some out)
    ∧ planRestrictedRoute 30 spur_network (mkInput 1 4 ∅ ∅ (-1) 3 1) 0
      = Some (Some text)
    ∧ ((out_bestPath out = ([], 0)
        ∧ ((∀ rs1, route spur_network 0 rs1 2 →
              ¬ Forall (usable true ∅ ∅ spur_network) rs1)
           ∨ ∃ rs1,
               route spur_network 0 rs1 2
               ∧ ∀ rs2, route spur_network 2 rs2 3 →
                   ¬ Forall (usable true ∅
                               (list_to_set (road_segment spur_network <$> rs1)
                                ∪ ∅) spur_network) rs2))
       ∨ ∃ rs1 rs2,
           route spur_network 0 rs1 2 ∧ route spur_network 2 rs2 3
           ∧ Forall (usable true ∅ ∅ spur_network) (rs1 ++ rs2)
           ∧ (out_bestPath out).1 = route_ids spur_network 0 (rs1 ++ rs2)
           ∧ (out_bestPath out).2 = wrap (route_cost true (rs1 ++ rs2))
           ∧ ∀ r, r ∈ rs2 →
               road_segment spur_network r ∉ (road_segment spur_network <$> rs1)).
Proof.
  eapply (planRestrictedRoute_through_include 10 30 spur_network
            (mkInput 1 4 ∅ ∅ (-1) 3 1) 0).
  - compute_done.
  - done.
  - done.
  - done.
  - reflexivity.
  - reflexivity.
  - reflexivity.
  - vm_compute. lia.
Defined.

(** X21: a node to include that does not exist.  [planRestrictedRoute] tests
    the source and the destination but not the node to include: when that
    identifier belongs to no location, the first search dereferences a null
    pointer and the entry has no defined behaviour. *)
Theorem planRestrictedRoute_unknown_include fuel g input uninit :
  in_sourceId input ≠ -1 → in_destId input ≠ -1 → in_includeNodeId input ≠ -1 →
  is_Some (findLocation g (in_sourceId input)) →
  is_Some (findLocation g (in_destId input)) →
  findLocation g (in_includeNodeId input) = None →
  planRestrictedRoute fuel g input uninit = None.
Proof.
  intros Hs Hd Hinc [src Hsrc] [dst Hdst] Hnone.
  unfold planRestrictedRoute, planRestrictedRoute_output.
  rewrite (bool_decide_eq_false_2 _ Hs), (bool_decide_eq_false_2 _ Hd).
  simpl. rewrite Hsrc, Hdst.
  rewrite (decide_True (P := in_includeNodeId input ≠ -1)) by done.
  by rewrite dijkstra_unknown_destination.
Qed.

Lemma planRestrictedRoute_unknown_include_witness :
  planRestrictedRoute 30 spur_network (mkInput 1 4 ∅ ∅ (-1) 9 1) 0 = None.
Proof.
  apply planRestrictedRoute_unknown_include; try done;
    by eexists.
Defined.

(** ** FileManager.cpp: writeOutputFile *)

Lemma write_suggestion_take suggestions i n :
  (i < n)%nat →
  write_suggestion (take n suggestions) i = write_suggestion suggestions i.
Proof. intros Hi. unfold write_suggestion. by rewrite lookup_take_lt. Qed.

(** X22: the suggestions that reach the file.  In the suggestions case
    [writeOutputFile] stays inside [output.suggestions] exactly when there
    are at least two suggestions, and then the file depends on the first two
    only: a third or later suggestion is never written. *)
Theorem writeOutputFile_two_suggestions output :
  out_TypeOfInput output = 2 → out_hasSuggestions output = true →
  (is_Some (writeOutputFile output) ↔ (2 ≤ length (out_suggestions output))%nat)
  ∧ writeOutputFile output
    = writeOutputFile (with_suggestions (take 2 (out_suggestions output)) output).
Proof.
  intros Htype Hsugg. unfold writeOutputFile, with_suggestions. simpl.
  rewrite Htype, Hsugg. simpl. rewrite !andb_false_r. simpl.
  rewrite !write_suggestion_take by lia.
  split; [|done].
  destruct (out_suggestions output) as [|s1 [|s2 rest]]; simpl.
  - split; [by intros [? ?]|lia].
  - split; [by intros [? ?]|lia].
  - split; [lia|eauto].
Qed.

Lemma writeOutputFile_two_suggestions_witness :
  (is_Some (writeOutputFile example_suggestions_output)
   ↔ (2 ≤ length (out_suggestions example_suggestions_output))%nat)
  ∧ writeOutputFile example_suggestions_output
    = writeOutputFile
        (with_suggestions (take 2 (out_suggestions example_suggestions_output))
           example_suggestions_output).
Proof.
  apply (writeOutputFile_two_suggestions example_suggestions_output); reflexivity.
Defined.

(** ** Strings, streams and numbers *)

Lemma string_app_cons a x y : String a x +:+ y = String a (x +:+ y).
Proof. done. Qed.

Lemma string_app_nil y : EmptyString +:+ y = y.
Proof. done. Qed.

Lemma string_app_nil_r x : x +:+ EmptyString = x.
Proof.
  induction x as [|a x IH]; [done|]. by rewrite string_app_cons, IH.
Qed.

Lemma string_app_assoc x y z : (x +:+ y) +:+ z = x +:+ (y +:+ z).
Proof.
  induction x as [|a x IH]; [done|]. by rewrite !string_app_cons, IH.
Qed.

Lemma string_length_app x y :
  String.length (x +:+ y) = (String.length x + String.length y)%nat.
Proof.
  induction x as [|a x IH]; [done|]. rewrite string_app_cons. simpl. by rewrite IH.
Qed.

Lemma newline_app x : newline +:+ x = String "010" x.
Proof. done. Qed.

Lemma has_char_app c x y : has_char c (x +:+ y) = has_char c x || has_char c y.
Proof.
  induction x as [|a x IH]; [done|]. rewrite string_app_cons. simpl.
  by rewrite IH, orb_assoc.
Qed.

Lemma has_char_cons_false c a x :
  has_char c (String a x) = false ↔ a ≠ c ∧ has_char c x = false.
Proof.
  simpl. rewrite orb_false_iff, bool_decide_eq_false. done.
Qed.

(** *** [read_until] and [getline] on a text that is put together *)

Lemma read_until_field c x rest :
  has_char c x = false → read_until c (x +:+ String c rest) = (x, Some rest).
Proof.
  induction x as [|a x IH]; intros Hx.
  - rewrite string_app_nil. simpl. by rewrite decide_True.
  - apply has_char_cons_false in Hx as [Hne Hx].
    rewrite string_app_cons. simpl. rewrite decide_False by done.
    by rewrite IH.
Qed.

Lemma read_until_rest c x :
  has_char c x = false → read_until c x = (x, None).
Proof.
  induction x as [|a x IH]; intros Hx; [done|].
  apply has_char_cons_false in Hx as [Hne Hx].
  simpl. rewrite decide_False by done. by rewrite IH.
Qed.

Lemma getline_field c x rest str :
  has_char c x = false →
  getline c (mkStream (x +:+ String c rest) true) str = (mkStream rest true, x, true).
Proof. intros Hx. unfold getline. simpl. by rewrite read_until_field. Qed.

Lemma getline_rest c x str :
  has_char c x = false →
  getline c (mkStream x true) str
  = (mkStream EmptyString false, x, bool_decide (x ≠ EmptyString)).
Proof. intros Hx. unfold getline. simpl. by rewrite read_until_rest. Qed.

Lemma getline_failed c buf str :
  getline c (mkStream buf false) str = (mkStream buf false, str, false).
Proof. done. Qed.

(** *** The loops run out of text before they run out of fuel *)

Lemma read_until_lines delim s :
  match read_until delim s with
  | (x, Some rest) =>
      lines_of delim s = x :: lines_of delim rest
      ∧ (String.length rest < String.length s)%nat
  | (x, None) =>
      lines_of delim s = (if decide (x = EmptyString) then [] else [x])
  end.
Proof.
  induction s as [|a s IH]; [done|]. simpl.
  case_decide as Ha; [split; [done|lia]|].
  destruct (read_until delim s) as [x [rest|]].
  - destruct IH as [-> Hlen]. split; [done|lia].
  - rewrite IH. rewrite (decide_False (P := String a x = EmptyString)) by done.
    case_decide; by subst.
Qed.

Lemma run_lines_None {A} (body : string → A → option A) lines :
  foldl (λ acc line, match acc with
                     | None => None
                     | Some a => body line a
                     end) None lines = None.
Proof. induction lines as [|l lines IH]; [done|]. apply IH. Qed.

(** A [while (getline(...))] loop over a text runs its body on the pieces of
    the text, in order; the fuel of the model never runs out. *)
Lemma while_getline_lines {A} (body : string → A → option A) delim fuel :
  ∀ text line a,
    (String.length text + 2 ≤ fuel)%nat →
    while_getline fuel delim body (mkStream text true) line a
    = run_lines body a (lines_of delim text).
Proof.
  unfold run_lines.
  induction fuel as [|fuel IH]; intros text line a Hfuel; [lia|].
  cbn [while_getline]. unfold getline. cbn [st_good st_buf].
  pose proof (read_until_lines delim text) as Hlines.
  destruct (read_until delim text) as [x [rest|]].
  - destruct Hlines as [-> Hlen]. cbn [foldl].
    destruct (body x a) as [a'|].
    + apply IH. lia.
    + by rewrite run_lines_None.
  - rewrite Hlines. case_decide as Hx.
    + by rewrite bool_decide_eq_false_2 by auto.
    + rewrite bool_decide_eq_true_2 by done. cbn [foldl].
      destruct (body x a) as [a'|]; [|done].
      destruct fuel as [|fuel]; [lia|]. done.
Qed.

(** A loop that skips the first line of a file and then reads it to the
    end runs its body on the lines after the first. *)
Lemma skip_header_lines {A} (body : string → A → option A) text a :
  (let '(inp, line, _) := getline "010" (mkStream text true) EmptyString in
   while_getline (getline_fuel text) "010" body inp line a)
  = run_lines body a (tail (lines_of "010" text)).
Proof.
  unfold getline. cbn [st_good st_buf].
  pose proof (read_until_lines "010" text) as Hlines.
  destruct (read_until "010" text) as [x [rest|]].
  - destruct Hlines as [-> Hlen]. simpl tail.
    apply while_getline_lines. unfold getline_fuel. lia.
  - rewrite Hlines. by case_decide.
Qed.

(** The loaders run their loop body on the lines after the header, in
    order, and stop early only when the body throws. *)
Lemma loadLocations_lines text g :
  loadLocations (Some text) g
  = run_lines loadLocations_row g (tail (lines_of "010" text)).
Proof. apply skip_header_lines. Qed.

Lemma loadDistances_lines text g :
  loadDistances (Some text) g
  = run_lines loadDistances_row g (tail (lines_of "010" text)).
Proof. apply skip_header_lines. Qed.

Lemma read_segments_unfold fuel segments acc :
  read_segments (S fuel) segments acc =
  match find_from "(" 0 segments with
  | None => Some acc
  | Some pos =>
      match find_from "," pos segments with
      | None => Some acc
      | Some commaPos =>
          match find_from ")" commaPos segments with
          | None => Some acc
          | Some endPos =>
              match stoi (substr (S pos) (commaPos - pos - 1) segments) with
              | None => None
              | Some from =>
                  match stoi (substr (S commaPos) (endPos - commaPos - 1)
                                segments) with
                  | None => None
                  | Some to =>
                      read_segments fuel (substr_from (S endPos) segments)
                        ({[ (from, to) ]} ∪ acc)
                  end
              end
          end
      end
  end.
Proof. done. Qed.

Lemma find_from_lt c k s i : find_from c k s = Some i → (i < String.length s)%nat.
Proof.
  revert k i. induction s as [|a s IH]; intros k i Hfind; [done|].
  simpl in Hfind. destruct k as [|k].
  - case_decide; [simplify_eq; simpl; lia|].
    destruct (find_from c 0 s) as [j|] eqn:Hj; [|done].
    simpl in Hfind. simplify_eq. apply IH in Hj. simpl. lia.
  - destruct (find_from c k s) as [j|] eqn:Hj; [|done].
    simpl in Hfind. simplify_eq. apply IH in Hj. simpl. lia.
Qed.

Lemma substr_from_length n s :
  String.length (substr_from n s) = (String.length s - n)%nat.
Proof.
  revert s. induction n as [|n IH]; intros s; [simpl; lia|].
  destruct s as [|a s]; [done|]. simpl. apply IH.
Qed.

(** The loop over the segments shortens its text in every turn: any fuel
    above the length of the text gives the same result. *)
Lemma read_segments_fuel fuel :
  ∀ fuel' segments acc,
    (String.length segments < fuel)%nat → (String.length segments < fuel')%nat →
    read_segments fuel segments acc = read_segments fuel' segments acc.
Proof.
  induction fuel as [|fuel IH]; intros fuel' segments acc Hfuel Hfuel'; [lia|].
  destruct fuel' as [|fuel']; [lia|].
  rewrite !read_segments_unfold.
  destruct (find_from "(" 0 segments) as [pos|]; [|done].
  destruct (find_from "," pos segments) as [commaPos|]; [|done].
  destruct (find_from ")" commaPos segments) as [endPos|] eqn:Hend; [|done].
  destruct (stoi _) as [from|]; [|done].
  destruct (stoi _) as [to|]; [|done].
  apply find_from_lt in Hend.
  apply IH; rewrite substr_from_length; lia.
Qed.

(** *** [find] and [substr] on a text that is put together *)

Lemma find_from_skip c p k s :
  find_from c (String.length p + k) (p +:+ s)
  = (λ i, (String.length p + i)%nat) <$> find_from c k s.
Proof.
  induction p as [|a p IH].
  - rewrite string_app_nil. simpl. by destruct (find_from c k s).
  - rewrite string_app_cons. simpl. rewrite IH.
    by destruct (find_from c k s).
Qed.

Lemma find_from_here c x rest :
  has_char c x = false →
  find_from c 0 (x +:+ String c rest) = Some (String.length x).
Proof.
  induction x as [|a x IH]; intros Hx.
  - rewrite string_app_nil. simpl. by rewrite decide_True.
  - apply has_char_cons_false in Hx as [Hne Hx].
    rewrite string_app_cons. simpl. rewrite decide_False by done.
    by rewrite IH.
Qed.

Lemma find_from_none c x : has_char c x = false → find_from c 0 x = None.
Proof.
  induction x as [|a x IH]; intros Hx; [done|].
  apply has_char_cons_false in Hx as [Hne Hx].
  simpl. rewrite decide_False by done. by rewrite IH.
Qed.

Lemma substr_from_app p s : substr_from (String.length p) (p +:+ s) = s.
Proof.
  induction p as [|a p IH]; [by destruct s|]. by rewrite string_app_cons.
Qed.

Lemma substr_skip p n m s :
  substr (String.length p + n) m (p +:+ s) = substr n m s.
Proof.
  unfold substr. induction p as [|a p IH]; [done|].
  by rewrite string_app_cons.
Qed.

Lemma substr_take x s : substr 0 (String.length x) (x +:+ s) = x.
Proof.
  unfold substr. induction x as [|a x IH].
  - rewrite string_app_nil. by destruct s.
  - rewrite string_app_cons. simpl. by rewrite IH.
Qed.

Lemma has_label_app label x :
  has_label label (label +:+ x) = bool_decide (x ≠ EmptyString).
Proof.
  unfold has_label. rewrite string_length_app.
  replace (String.prefix label (label +:+ x)) with true.
  - simpl. destruct x as [|a x]; simpl.
    + by rewrite bool_decide_eq_false_2 by lia.
    + by rewrite bool_decide_eq_true_2 by lia.
  - induction label as [|a label IH]; [by destruct x|].
    rewrite string_app_cons. simpl. destruct (ascii_dec a a); [done|done].
Qed.

(** *** Decimal numbers *)

Lemma digit_of_pretty_N_char x :
  (x < 10)%N → digit_of (pretty_N_char x) = Some (Z.of_N x).
Proof.
  intros Hx.
  assert (x = 0 ∨ x = 1 ∨ x = 2 ∨ x = 3 ∨ x = 4 ∨ x = 5 ∨ x = 6 ∨ x = 7
          ∨ x = 8 ∨ x = 9)%N as Hcases by lia.
  repeat (destruct Hcases as [->|Hcases]; [done|]). by subst.
Qed.

Lemma digit_not_space c : is_Some (digit_of c) → is_space c = false.
Proof.
  intros [d Hd]. unfold is_space. apply bool_decide_eq_false. intros Hin.
  repeat (apply elem_of_cons in Hin as [->|Hin]; [done|]).
  by apply elem_of_nil in Hin.
Qed.

Lemma digit_not_sign c : is_Some (digit_of c) → c ≠ "-"%char ∧ c ≠ "+"%char.
Proof. intros [d Hd]. split; by intros ->. Qed.

Lemma pretty_N_go_starts x s :
  (0 < x)%N ∨ starts_number s → starts_number (pretty_N_go x s).
Proof.
  revert s. induction (N.lt_wf_0 x) as [x _ IH]; intros s Hstart.
  assert (x = 0 ∨ 0 < x)%N as [->|Hpos] by lia.
  - rewrite pretty_N_go_0. destruct Hstart; [lia|done].
  - rewrite pretty_N_go_step by done. apply IH.
    + by apply N.div_lt.
    + right. simpl. rewrite digit_of_pretty_N_char; [done|].
      by apply N.mod_lt.
Qed.

Lemma read_digits_pretty_N_go x :
  ∃ p, ∀ s acc,
    read_digits (pretty_N_go x s) acc = read_digits s (acc * p + Z.of_N x).
Proof.
  induction (N.lt_wf_0 x) as [x _ IH].
  assert (x = 0 ∨ 0 < x)%N as [->|Hpos] by lia.
  - exists 1. intros s acc. rewrite pretty_N_go_0. f_equal. lia.
  - destruct (IH (x `div` 10)%N) as [p Hp]; [by apply N.div_lt|].
    exists (p * 10). intros s acc.
    rewrite pretty_N_go_step, Hp by done. simpl.
    rewrite digit_of_pretty_N_char by (by apply N.mod_lt).
    f_equal. rewrite (N.div_mod x 10) at 3 by done. lia.
Qed.

Lemma has_char_pretty_N_go c x s :
  digit_of c = None → has_char c (pretty_N_go x s) = has_char c s.
Proof.
  intros Hc. revert s. induction (N.lt_wf_0 x) as [x _ IH]; intros s.
  assert (x = 0 ∨ 0 < x)%N as [->|Hpos] by lia.
  - by rewrite pretty_N_go_0.
  - rewrite pretty_N_go_step, IH by (done || by apply N.div_lt). simpl.
    rewrite bool_decide_eq_false_2; [done|].
    intros Heq. rewrite <- Heq, digit_of_pretty_N_char in Hc; [done|].
    by apply N.mod_lt.
Qed.

(** A decimal number holds digits and at most a minus sign. *)
Lemma has_char_pretty c (z : Z) :
  digit_of c = None → c ≠ "-"%char → has_char c (pretty z) = false.
Proof.
  intros Hc Hminus. destruct z as [|p|p]; unfold pretty, pretty_Z.
  - simpl. rewrite bool_decide_eq_false_2; [done|]. by intros <-.
  - unfold pretty, pretty_positive, pretty, pretty_N.
    rewrite decide_False by done. by rewrite has_char_pretty_N_go.
  - rewrite has_char_app. simpl. rewrite bool_decide_eq_false_2 by done.
    unfold pretty, pretty_positive, pretty, pretty_N.
    rewrite decide_False by done. by rewrite has_char_pretty_N_go.
Qed.

Lemma stoi_starts_number s :
  starts_number s → -2147483648 ≤ read_digits s 0 ≤ 2147483647 →
  stoi s = Some (read_digits s 0).
Proof.
  intros Hstart Hrange. destruct s as [|c s]; [done|]. simpl in Hstart.
  unfold stoi. cbn [skip_space]. rewrite (digit_not_space c Hstart).
  unfold read_sign.
  destruct (digit_not_sign c Hstart) as [Hminus Hplus].
  rewrite !decide_False by done.
  unfold read_number. destruct Hstart as [d Hd]. rewrite Hd.
  by rewrite decide_True.
Qed.

(** [stoi] reads back every [int] that [operator<<] writes. *)
Lemma stoi_pretty (z : Z) :
  -2147483648 ≤ z ≤ 2147483647 → stoi (pretty z) = Some z.
Proof.
  intros Hz. destruct z as [|p|p]; unfold pretty, pretty_Z.
  - done.
  - unfold pretty, pretty_positive, pretty, pretty_N.
    rewrite decide_False by done.
    destruct (read_digits_pretty_N_go (N.pos p)) as [q Hq].
    rewrite stoi_starts_number.
    + rewrite Hq. simpl. f_equal.
    + apply pretty_N_go_starts. left. lia.
    + rewrite Hq. simpl. lia.
  - unfold pretty, pretty_positive, pretty, pretty_N.
    rewrite decide_False by done.
    destruct (read_digits_pretty_N_go (N.pos p)) as [q Hq].
    pose proof (pretty_N_go_starts (N.pos p) EmptyString) as Hstart.
    destruct (pretty_N_go (N.pos p) EmptyString) as [|c s] eqn:Hs.
    { exfalso. apply Hstart. left. lia. }
    assert (is_Some (digit_of c)) as [d Hd] by (apply Hstart; left; lia).
    unfold stoi. change ("-" +:+ String c s) with (String "-" (String c s)).
    cbn [skip_space]. replace (is_space "-") with false by done.
    unfold read_sign. rewrite decide_True by done.
    unfold read_number. rewrite Hd.
    specialize (Hq EmptyString 0). rewrite Hs in Hq. rewrite Hq. simpl.
    rewrite decide_True by lia. done.
Qed.

Lemma pretty_nonempty (z : Z) : pretty z ≠ EmptyString.
Proof.
  destruct z as [|p|p]; unfold pretty, pretty_Z; [done| |done].
  unfold pretty, pretty_positive, pretty, pretty_N.
  rewrite decide_False by done.
  pose proof (pretty_N_go_starts (N.pos p) EmptyString) as Hstart.
  destruct (pretty_N_go (N.pos p) EmptyString); [|done].
  exfalso. apply Hstart. left. lia.
Qed.

(** ** FileManager.cpp: readInputFile *)

Lemma substr_from_here x c rest :
  substr_from (S (String.length x)) (x +:+ String c rest) = rest.
Proof.
  induction x as [|a x IH]; [by destruct rest|]. by rewrite string_app_cons.
Qed.

Lemma after_colon_request label value :
  has_char ":" label = false → after_colon (request_line label value) = pretty value.
Proof.
  intros Hlabel. unfold after_colon, request_line.
  change (":" +:+ pretty value) with (String ":" (pretty value)).
  rewrite find_from_here by done. apply substr_from_here.
Qed.

Lemma has_char_request_line c label value :
  has_char c label = false → digit_of c = None → c ≠ "-"%char → c ≠ ":"%char →
  has_char c (request_line label value) = false.
Proof.
  intros Hlabel Hdigit Hminus Hcolon. unfold request_line.
  rewrite !has_char_app, Hlabel, has_char_pretty by done. simpl.
  by rewrite bool_decide_eq_false_2 by done.
Qed.

Lemma stoi_request label value :
  has_char ":" label = false → -2147483648 ≤ value ≤ 2147483647 →
  stoi (after_colon (request_line label value)) = Some value.
Proof. intros. rewrite after_colon_request by done. by apply stoi_pretty. Qed.

(** X23: reading a request.  A file whose first line is the mode and whose
    next two lines end in a colon and a number is read as a request from the
    first number to the second; the text before the colons is not looked
    at.  With the mode [Mode:driving-walking] the fourth line gives the
    walking limit in the same way and the request is marked as type 2.
    What follows these lines is not read when [typeOfInput] is not 1. *)
Theorem readInputFile_reads_request mode l1 l2 l3 s d w rest typeOfInput :
  typeOfInput ≠ 1 →
  has_char "010" mode = false →
  has_char ":" l1 = false → has_char "010" l1 = false →
  has_char ":" l2 = false → has_char "010" l2 = false →
  has_char ":" l3 = false → has_char "010" l3 = false →
  -2147483648 ≤ s ≤ 2147483647 → -2147483648 ≤ d ≤ 2147483647 →
  -2147483648 ≤ w ≤ 2147483647 →
  (mode ≠ "Mode:driving-walking" →
   readInputFile
     (Some (mode +:+ newline +:+ request_line l1 s +:+ newline +:+
            request_line l2 d +:+ newline +:+ rest)) typeOfInput
   = Some (mkInput s d ∅ ∅ (-1) (-1) typeOfInput))
  ∧ readInputFile
      (Some ("Mode:driving-walking" +:+ newline +:+ request_line l1 s +:+ newline +:+
             request_line l2 d +:+ newline +:+ request_line l3 w +:+ newline +:+
             rest)) typeOfInput
    = Some (mkInput s d ∅ ∅ w (-1) 2).
Proof.
  intros Htype Hmode H1c H1n H2c H2n H3c H3n Hs Hd Hw.
  assert (∀ l v, has_char "010" l = false →
            has_char "010" (request_line l v) = false) as Hline.
  { intros l v Hl. by apply has_char_request_line. }
  split.
  - intros Hdriving. unfold readInputFile. rewrite !newline_app.
    rewrite (getline_field "010" mode) by done. cbv beta iota zeta.
    rewrite (getline_field "010" (request_line l1 s)) by auto. cbv beta iota zeta.
    rewrite stoi_request by done.
    rewrite (getline_field "010" (request_line l2 d)) by auto. cbv beta iota zeta.
    rewrite stoi_request by done.
    rewrite bool_decide_eq_false_2 by done.
    by rewrite decide_False by done.
  - unfold readInputFile. rewrite !newline_app.
    rewrite (getline_field "010" "Mode:driving-walking") by done.
    cbv beta iota zeta.
    rewrite (getline_field "010" (request_line l1 s)) by auto. cbv beta iota zeta.
    rewrite stoi_request by done.
    rewrite (getline_field "010" (request_line l2 d)) by auto. cbv beta iota zeta.
    rewrite stoi_request by done.
    rewrite bool_decide_eq_true_2 by done.
    rewrite (getline_field "010" (request_line l3 w)) by auto. cbv beta iota zeta.
    rewrite stoi_request by done.
    by rewrite decide_False by done.
Qed.

Lemma readInputFile_reads_request_witness :
  ("Mode:driving" ≠ "Mode:driving-walking" →
   readInputFile
     (Some ("Mode:driving" +:+ newline +:+ request_line "Source" 1 +:+ newline +:+
            request_line "Destination" 3 +:+ newline +:+ "AvoidNodes:2")) 0
   = Some (mkInput 1 3 ∅ ∅ (-1) (-1) 0))
  ∧ readInputFile
      (Some ("Mode:driving-walking" +:+ newline +:+ request_line "Source" 1 +:+
             newline +:+ request_line "Destination" 3 +:+ newline +:+
             request_line "MaxWalkTime" 18 +:+ newline +:+ "AvoidNodes:2")) 0
    = Some (mkInput 1 3 ∅ ∅ 18 (-1) 2).
Proof.
  apply (readInputFile_reads_request "Mode:driving" "Source" "Destination"
           "MaxWalkTime" 1 3 18 "AvoidNodes:2" 0); (done || lia).
Defined.

(** X24: what the first and the third menu entry never read.  Both call
    [readInputFile] with [typeOfInput] 0, and then no line that names nodes
    or segments to avoid or a node to include is looked at: whatever the file
    holds, the request comes back with both sets empty and no node to
    include. *)
Theorem readInputFile_ignores_restrictions file typeOfInput input :
  typeOfInput ≠ 1 →
  readInputFile file typeOfInput = Some input →
  in_avoidNodes input = ∅ ∧ in_avoidSegments input = ∅
  ∧ in_includeNodeId input = -1.
Proof.
  intros Htype Hread. unfold readInputFile in Hread.
  destruct file as [text|]; [|by simplify_eq].
  destruct (getline _ _ _) as [[f1 mode] ok1].
  destruct (getline _ _ _) as [[f2 line2] ok2].
  destruct (stoi _) as [sourceId|]; [|done].
  destruct (getline _ _ _) as [[f3 line3] ok3].
  destruct (stoi _) as [destId|]; [|done].
  case_bool_decide.
  - destruct (getline _ _ _) as [[f4 line4] ok4].
    destruct (stoi _) as [maxWalkingTime|]; [|done].
    rewrite decide_False in Hread by done. by simplify_eq.
  - rewrite decide_False in Hread by done. by simplify_eq.
Qed.

Lemma readInputFile_ignores_restrictions_witness :
  from_option
    (λ input, in_avoidNodes input = ∅ ∧ in_avoidSegments input = ∅
              ∧ in_includeNodeId input = -1)
    False
    (readInputFile
       (Some ("Mode:driving-walking" +:+ newline +:+ "Source:1" +:+ newline +:+
              "Destination:3" +:+ newline +:+ "MaxWalkTime:18" +:+ newline +:+
              "AvoidNodes:2" +:+ newline +:+ "AvoidSegments:(1,2)" +:+ newline)) 0).
Proof.
  destruct (readInputFile _ 0) as [input|] eqn:E; simpl;
    [exact (readInputFile_ignores_restrictions _ 0 input ltac:(done) E)|].
  vm_compute in E. discriminate.
Defined.

(** X25: no request file.  When [input.txt] cannot be opened,
    [readInputFile] returns the request from -1 to -1, and each of the three
    menu entries returns without searching and without writing a file,
    whatever the network. *)
Theorem menu_without_input_file fuel g uninit :
  menu_planNormalRoute fuel g None uninit = Some None
  ∧ menu_planRestrictedRoute fuel g None uninit = Some None
  ∧ menu_planEnvironmentallyFriendlyRoute fuel g None = Some None.
Proof. done. Qed.

(** *** The lists of a restricted request *)

Lemma has_char_write_ids c l :
  digit_of c = None → c ≠ "-"%char → c ≠ ","%char → has_char c (write_ids l) = false.
Proof.
  intros Hdigit Hminus Hcomma.
  induction l as [|x [|y l] IH]; [done|by apply has_char_pretty|].
  change (write_ids (x :: y :: l))
    with (pretty x +:+ "," +:+ write_ids (y :: l)).
  rewrite !has_char_app, IH, has_char_pretty by done. simpl.
  by rewrite bool_decide_eq_false_2 by done.
Qed.

Lemma write_ids_nonempty l : l ≠ [] → write_ids l ≠ EmptyString.
Proof.
  destruct l as [|x [|y l]]; [done|intros _; apply pretty_nonempty|].
  intros _. change (write_ids (x :: y :: l))
    with (pretty x +:+ "," +:+ write_ids (y :: l)).
  pose proof (pretty_nonempty x). by destruct (pretty x).
Qed.

Lemma write_ids_length l : (length l ≤ String.length (write_ids l))%nat.
Proof.
  induction l as [|x [|y l] IH]; [done| |].
  - simpl. pose proof (pretty_nonempty x). destruct (pretty x); [done|simpl; lia].
  - change (write_ids (x :: y :: l))
      with (pretty x +:+ "," +:+ write_ids (y :: l)).
    rewrite !string_length_app. simpl in *. lia.
Qed.

(** The loop over the list of [AvoidNodes]. *)
Lemma read_nodes_written l :
  ∀ fuel line acc,
    Forall is_int l → l ≠ [] → (length l < fuel)%nat →
    while_getline fuel ","
      (λ node avoidNodes,
         match stoi node with
         | None => None
         | Some n => Some ({[ n ]} ∪ avoidNodes)
         end)
      (mkStream (write_ids l) true) line acc
    = Some (list_to_set l ∪ acc : gset Z).
Proof.
  induction l as [|x [|y l] IH]; intros fuel line acc Hall Hne Hfuel; [done|..].
  - destruct fuel as [|[|fuel]]; [simpl in Hfuel; lia..|].
    apply Forall_cons in Hall as [Hx _].
    cbn [while_getline write_ids].
    rewrite getline_rest by (by apply has_char_pretty).
    rewrite bool_decide_eq_true_2 by apply pretty_nonempty.
    rewrite stoi_pretty by done. rewrite getline_failed.
    f_equal. set_solver.
  - destruct fuel as [|fuel]; [simpl in Hfuel; lia|].
    apply Forall_cons in Hall as [Hx Hall].
    cbn [while_getline].
    change (write_ids (x :: y :: l))
      with (pretty x +:+ String "," (write_ids (y :: l))).
    rewrite getline_field by (by apply has_char_pretty).
    rewrite stoi_pretty by done.
    rewrite IH; [|done|done|simpl in *; lia].
    f_equal. set_solver.
Qed.

Lemma find_from_at c p x rest :
  has_char c x = false →
  find_from c (String.length p) (p +:+ x +:+ String c rest)
  = Some (String.length p + String.length x)%nat.
Proof.
  intros Hx. rewrite <- (Nat.add_0_r (String.length p)) at 1.
  by rewrite find_from_skip, find_from_here.
Qed.

Lemma substr_at p x s :
  substr (String.length p) (String.length x) (p +:+ x +:+ s) = x.
Proof.
  rewrite <- (Nat.add_0_r (String.length p)).
  by rewrite substr_skip, substr_take.
Qed.

(** One turn of the loop over the list of [AvoidSegments]. *)
Lemma read_segments_step fuel junk a b rest acc :
  has_char "(" junk = false → is_int a → is_int b →
  read_segments (S fuel) (junk +:+ write_segment (a, b) +:+ rest) acc
  = read_segments fuel rest ({[ (a, b) ]} ∪ acc).
Proof.
  intros Hjunk Ha Hb. unfold write_segment. simpl fst. simpl snd.
  set (pa := pretty a). set (pb := pretty b).
  set (text := junk +:+ ("(" +:+ pa +:+ "," +:+ pb +:+ ")") +:+ rest).
  assert (has_char "," pa = false ∧ has_char ")" pb = false) as [Hpa Hpb].
  { split; by apply has_char_pretty. }
  assert (text = EmptyString +:+ junk +:+ String "(" (pa +:+ "," +:+ pb +:+ ")" +:+ rest))
    as Htext1.
  { unfold text. by rewrite !string_app_assoc. }
  assert (text = junk +:+ ("(" +:+ pa) +:+ String "," (pb +:+ ")" +:+ rest)) as Htext2.
  { unfold text. by rewrite !string_app_assoc. }
  assert (text = (junk +:+ "(" +:+ pa) +:+ ("," +:+ pb) +:+ String ")" rest) as Htext3.
  { unfold text. by rewrite !string_app_assoc. }
  assert (text = (junk +:+ "(") +:+ pa +:+ ("," +:+ pb +:+ ")" +:+ rest)) as Htext4.
  { unfold text. by rewrite !string_app_assoc. }
  assert (text = (junk +:+ "(" +:+ pa +:+ ",") +:+ pb +:+ (")" +:+ rest)) as Htext5.
  { unfold text. by rewrite !string_app_assoc. }
  assert (text = (junk +:+ "(" +:+ pa +:+ "," +:+ pb +:+ ")") +:+ rest) as Htext6.
  { unfold text. by rewrite !string_app_assoc. }
  rewrite read_segments_unfold.
  assert (find_from "(" 0 text = Some (String.length junk)) as ->.
  { rewrite Htext1. change 0%nat with (String.length EmptyString) at 1.
    by rewrite find_from_at. }
  assert (find_from "," (String.length junk) text
          = Some (String.length junk + S (String.length pa))%nat) as ->.
  { rewrite Htext2, find_from_at; [done|].
    rewrite has_char_app, Hpa. done. }
  assert (find_from ")" (String.length junk + S (String.length pa)) text
          = Some (String.length junk + S (String.length pa)
                  + S (String.length pb))%nat) as ->.
  { rewrite Htext3.
    replace (String.length junk + S (String.length pa))%nat
      with (String.length (junk +:+ "(" +:+ pa))
      by (rewrite !string_length_app; simpl; lia).
    rewrite find_from_at; [done|]. rewrite has_char_app, Hpb. done. }
  assert (substr (S (String.length junk))
            (String.length junk + S (String.length pa) - String.length junk - 1) text
          = pa) as ->.
  { rewrite Htext4.
    replace (S (String.length junk)) with (String.length (junk +:+ "("))
      by (rewrite !string_length_app; simpl; lia).
    replace (String.length junk + S (String.length pa) - String.length junk - 1)%nat
      with (String.length pa) by lia.
    apply substr_at. }
  assert (substr (S (String.length junk + S (String.length pa)))
            (String.length junk + S (String.length pa) + S (String.length pb)
             - (String.length junk + S (String.length pa)) - 1) text
          = pb) as ->.
  { rewrite Htext5.
    replace (S (String.length junk + S (String.length pa)))
      with (String.length (junk +:+ "(" +:+ pa +:+ ","))
      by (rewrite !string_length_app; simpl; lia).
    replace (String.length junk + S (String.length pa) + S (String.length pb)
             - (String.length junk + S (String.length pa)) - 1)%nat
      with (String.length pb) by lia.
    apply substr_at. }
  assert (substr_from (S (String.length junk + S (String.length pa)
                          + S (String.length pb))) text = rest) as ->.
  { rewrite Htext6.
    replace (S (String.length junk + S (String.length pa) + S (String.length pb)))
      with (String.length (junk +:+ "(" +:+ pa +:+ "," +:+ pb +:+ ")"))
      by (rewrite !string_length_app; simpl; lia).
    apply substr_from_app. }
  unfold pa, pb. by rewrite !stoi_pretty by done.
Qed.

Lemma write_segments_cons seg rest :
  write_segments (seg :: rest)
  = write_segment seg
    +:+ (if decide (rest = []) then EmptyString else ",") +:+ write_segments rest.
Proof.
  destruct rest as [|seg' rest]; simpl.
  - by rewrite string_app_nil_r.
  - done.
Qed.

Lemma read_segments_written l :
  ∀ fuel junk acc,
    Forall (λ seg, is_int seg.1 ∧ is_int seg.2) l →
    has_char "(" junk = false → (length l < fuel)%nat →
    read_segments fuel (junk +:+ write_segments l) acc
    = Some (list_to_set l ∪ acc : gset (Z * Z)).
Proof.
  induction l as [|[a b] l IH]; intros fuel junk acc Hall Hjunk Hfuel.
  - destruct fuel as [|fuel]; [simpl in Hfuel; lia|].
    rewrite read_segments_unfold. simpl write_segments.
    rewrite string_app_nil_r, find_from_none by done.
    f_equal. set_solver.
  - destruct fuel as [|fuel]; [simpl in Hfuel; lia|].
    apply Forall_cons in Hall as [[Ha Hb] Hall].
    rewrite write_segments_cons, read_segments_step by done.
    rewrite IH; [f_equal; set_solver|done|by case_decide|simpl in Hfuel; lia].
Qed.

Lemma has_char_write_segments c l :
  digit_of c = None → c ≠ "-"%char → c ≠ ","%char → c ≠ "("%char → c ≠ ")"%char →
  has_char c (write_segments l) = false.
Proof.
  intros Hdigit Hminus Hcomma Hopen Hclose.
  assert (∀ seg, has_char c (write_segment seg) = false) as Hseg.
  { intros [a b]. unfold write_segment.
    rewrite !has_char_app, !has_char_pretty by done. simpl.
    by rewrite !bool_decide_eq_false_2 by done. }
  induction l as [|seg l IH]; [done|].
  rewrite write_segments_cons, !has_char_app, Hseg, IH.
  case_decide; [done|]. simpl. by rewrite bool_decide_eq_false_2 by done.
Qed.

Lemma write_segments_nonempty l : l ≠ [] → write_segments l ≠ EmptyString.
Proof. destruct l as [|[a b] [|seg l]]; done. Qed.

Lemma write_segments_length l : (length l ≤ String.length (write_segments l))%nat.
Proof.
  induction l as [|seg l IH]; [done|].
  rewrite write_segments_cons, !string_length_app.
  destruct seg as [a b]. unfold write_segment.
  rewrite !string_length_app. simpl. lia.
Qed.

Lemma read_restrictions_written nodes segments include rest line0 :
  Forall is_int nodes →
  Forall (λ seg, is_int seg.1 ∧ is_int seg.2) segments →
  from_option is_int True include →
  read_restrictions
    (mkStream (("AvoidNodes:" +:+ write_ids nodes) +:+ newline +:+
               ("AvoidSegments:" +:+ write_segments segments) +:+ newline +:+
               ("IncludeNode:" +:+ from_option pretty EmptyString include)
               +:+ newline +:+ rest) true) line0
  = Some (list_to_set nodes, list_to_set segments, default (-1) include).
Proof.
  intros Hnodes Hsegs Hinc. unfold read_restrictions. rewrite !newline_app.
  rewrite getline_field; last first.
  { rewrite has_char_app, has_char_write_ids by done. done. }
  cbv beta iota zeta. rewrite has_label_app.
  assert ((if bool_decide (write_ids nodes ≠ EmptyString)
           then while_getline (getline_fuel ("AvoidNodes:" +:+ write_ids nodes)) ","
                  (λ node avoidNodes,
                     match stoi node with
                     | None => None
                     | Some n => Some ({[ n ]} ∪ avoidNodes)
                     end)
                  (mkStream (substr_from 11 ("AvoidNodes:" +:+ write_ids nodes)) true)
                  EmptyString (∅ : gset Z)
           else Some ∅) = Some (list_to_set nodes)) as ->.
  { destruct (decide (nodes = [])) as [->|Hne]; [done|].
    rewrite bool_decide_eq_true_2 by (by apply write_ids_nonempty).
    change 11%nat with (String.length "AvoidNodes:").
    rewrite substr_from_app, read_nodes_written; [|done|done|].
    - by rewrite (right_id_L ∅ (∪)).
    - unfold getline_fuel. rewrite string_length_app.
      pose proof (write_ids_length nodes). lia. }
  rewrite getline_field; last first.
  { rewrite has_char_app, has_char_write_segments by done. done. }
  cbv beta iota zeta. rewrite has_label_app.
  assert ((if bool_decide (write_segments segments ≠ EmptyString)
           then read_segments
                  (S (String.length ("AvoidSegments:" +:+ write_segments segments)))
                  (substr_from 14 ("AvoidSegments:" +:+ write_segments segments)) ∅
           else Some ∅) = Some (list_to_set segments)) as ->.
  { destruct (decide (segments = [])) as [->|Hne]; [done|].
    rewrite bool_decide_eq_true_2 by (by apply write_segments_nonempty).
    change 14%nat with (String.length "AvoidSegments:").
    rewrite substr_from_app.
    change (write_segments segments)
      with (EmptyString +:+ write_segments segments) at 2.
    rewrite read_segments_written; [|done|done|].
    - by rewrite (right_id_L ∅ (∪)).
    - rewrite string_length_app.
      pose proof (write_segments_length segments). lia. }
  rewrite getline_field; last first.
  { rewrite has_char_app. destruct include as [z|]; [|done].
    simpl from_option. by rewrite has_char_pretty. }
  cbv beta iota zeta. rewrite has_label_app.
  destruct include as [z|]; simpl from_option; simpl default.
  - rewrite bool_decide_eq_true_2 by apply pretty_nonempty.
    change 12%nat with (String.length "IncludeNode:").
    by rewrite substr_from_app, stoi_pretty.
  - done.
Qed.

(** X26: reading a restricted request.  A file that lists, after the three
    lines of every request, the nodes to avoid as [id,id,...], the segments
    to avoid as [(id,id),(id,id),...] and the node to include, each after
    its label, is read as exactly that request: the two sets hold the listed
    values and nothing else, and an empty list or no node to include leaves
    the set empty or the node at -1. *)
Theorem readInputFile_reads_restrictions mode l1 l2 s d nodes segments include rest :
  has_char "010" mode = false → mode ≠ "Mode:driving-walking" →
  has_char ":" l1 = false → has_char "010" l1 = false →
  has_char ":" l2 = false → has_char "010" l2 = false →
  is_int s → is_int d → Forall is_int nodes →
  Forall (λ seg, is_int seg.1 ∧ is_int seg.2) segments →
  from_option is_int True include →
  readInputFile
    (Some (restricted_request mode l1 l2 s d nodes segments include rest)) 1
  = Some (mkInput s d (list_to_set nodes) (list_to_set segments) (-1)
            (default (-1) include) 1).
Proof.
  intros Hmode Hdriving H1c H1n H2c H2n Hs Hd Hnodes Hsegs Hinc.
  unfold readInputFile, restricted_request.
  rewrite (newline_app (request_line l1 s +:+ _)).
  rewrite (getline_field "010" mode) by done. cbv beta iota zeta.
  rewrite (newline_app (request_line l2 d +:+ _)).
  rewrite (getline_field "010" (request_line l1 s))
    by (by apply has_char_request_line).
  cbv beta iota zeta. rewrite stoi_request by done.
  rewrite (newline_app (("AvoidNodes:" +:+ _) +:+ _)).
  rewrite (getline_field "010" (request_line l2 d))
    by (by apply has_char_request_line).
  cbv beta iota zeta. rewrite stoi_request by done.
  rewrite bool_decide_eq_false_2 by done.
  rewrite decide_True by done.
  by rewrite read_restrictions_written.
Qed.

Lemma readInputFile_reads_restrictions_witness :
  readInputFile
    (Some (restricted_request "Mode:driving" "Source" "Destination" 1 4
             [2; 7] [(1, 2); (3, 4)] (Some 3) EmptyString)) 1
  = Some (mkInput 1 4 (list_to_set [2; 7]) (list_to_set [(1, 2); (3, 4)]) (-1)
            (default (-1) (Some 3)) 1).
Proof.
  apply readInputFile_reads_restrictions; try done;
    repeat constructor; unfold is_int; simpl; lia.
Defined.

Example example_restricted_request :
  restricted_request "Mode:driving" "Source" "Destination" 1 4
    [2; 7] [(1, 2); (3, 4)] (Some 3) EmptyString
  = "Mode:driving" +:+ newline +:+ "Source:1" +:+ newline +:+
    "Destination:4" +:+ newline +:+ "AvoidNodes:2,7" +:+ newline +:+
    "AvoidSegments:(1,2),(3,4)" +:+ newline +:+ "IncludeNode:3" +:+ newline.
Proof. reflexivity. Qed.

(** ** FileManager.cpp: the files that the loaders expect *)

Lemma file_rows_length rows : (length rows ≤ String.length (file_rows rows))%nat.
Proof.
  induction rows as [|row rows IH]; [done|]. simpl.
  rewrite !string_length_app. simpl. lia.
Qed.

(** The loop over the lines of a file that holds [rows], for a body that
    turns each of them into a step [step] on the graph. *)
Lemma while_getline_rows {A} (body : string → A → option A) (rows : list string) :
  ∀ fuel line a,
    Forall (λ row, has_char "010" row = false) rows →
    (length rows < fuel)%nat →
    while_getline fuel "010" body (mkStream (file_rows rows) true) line a
    = foldl (λ acc row, match acc with
                        | None => None
                        | Some a => body row a
                        end) (Some a) rows.
Proof.
  induction rows as [|row rows IH]; intros fuel line a Hrows Hfuel.
  - destruct fuel as [|fuel]; [simpl in Hfuel; lia|]. done.
  - destruct fuel as [|fuel]; [simpl in Hfuel; lia|].
    apply Forall_cons in Hrows as [Hrow Hrows].
    cbn [while_getline file_rows foldr foldl]. rewrite newline_app.
    rewrite getline_field by done.
    destruct (body row a) as [a'|].
    + apply IH; [done|simpl in Hfuel; lia].
    + clear. induction rows as [|r rows IH]; [done|]. simpl. apply IH.
Qed.

Lemma loadLocations_row_written row g :
  location_row_ok row →
  loadLocations_row (location_row row) g = Some (g ++ [location_of row]).
Proof.
  destruct row as [[[name id] code] parking].
  intros (Hname & _ & Hcode & _ & Hne & Hid).
  unfold loadLocations_row, location_row.
  change ("," +:+ pretty id +:+ ?x) with (String "," (pretty id +:+ x)).
  rewrite getline_field by done. cbv beta iota zeta.
  change ("," +:+ code +:+ ?x) with (String "," (code +:+ x)).
  rewrite getline_field by (by apply has_char_pretty). cbv beta iota zeta.
  change ("," +:+ ?x) with (String "," x).
  rewrite getline_field by done. cbv beta iota zeta.
  rewrite getline_rest by (by destruct parking). cbv beta iota zeta.
  rewrite (bool_decide_eq_false_2 (pretty id = EmptyString))
    by apply pretty_nonempty.
  rewrite (bool_decide_eq_false_2 (code = EmptyString)) by done.
  rewrite stoi_pretty by done.
  by destruct parking.
Qed.

Lemma has_char_location_row row :
  location_row_ok row → has_char "010" (location_row row) = false.
Proof.
  destruct row as [[[name id] code] parking].
  intros (_ & Hname & _ & Hcode & _). unfold location_row.
  rewrite !has_char_app, Hname, Hcode, has_char_pretty by done.
  by destruct parking.
Qed.

(** X27: the locations file.  A file with a header line and one line
    [name,id,code,parking] per location, where parking is 1 or 0, loads to
    exactly the listed locations, appended to the graph in the order of the
    file, each without roads. *)
Theorem loadLocations_reads_rows header rows g :
  has_char "010" header = false →
  Forall location_row_ok rows →
  loadLocations (Some (header +:+ newline +:+ file_rows (location_row <$> rows))) g
  = Some (g ++ (location_of <$> rows)).
Proof.
  intros Hheader Hrows. unfold loadLocations. rewrite newline_app.
  rewrite getline_field by done. cbv beta iota zeta.
  rewrite while_getline_rows; last first.
  { unfold getline_fuel. rewrite string_length_app. simpl.
    pose proof (file_rows_length (location_row <$> rows)). lia. }
  { apply Forall_fmap. eapply Forall_impl; [exact Hrows|].
    intros row. apply has_char_location_row. }
  clear Hheader. revert g.
  induction Hrows as [|row rows Hrow Hrows IH]; intros g.
  - simpl. by rewrite app_nil_r.
  - rewrite !fmap_cons. cbn [foldl].
    rewrite loadLocations_row_written by done.
    rewrite IH. by rewrite <- app_assoc.
Qed.

Lemma loadLocations_reads_rows_witness :
  loadLocations
    (Some ("Location,Id,Code,Parking" +:+ newline +:+
           file_rows (location_row <$> [("Alameda", 1, "A", false);
                                        ("Bolsa", 2, "B", true);
                                        ("Carmo", 3, "C", false)]))) []
  = Some ([] ++ (location_of <$> [("Alameda", 1, "A", false);
                                  ("Bolsa", 2, "B", true);
                                  ("Carmo", 3, "C", false)])).
Proof.
  apply loadLocations_reads_rows; [done|].
  repeat first [apply Forall_nil_2 | apply Forall_cons_2];
    unfold location_row_ok, is_int; simpl; split_and!; (done || lia).
Defined.

Lemma pretty_not_X (z : Z) : pretty z ≠ "X".
Proof.
  intros Heq. pose proof (has_char_pretty "X" z) as Hno.
  rewrite Heq in Hno. by specialize (Hno eq_refl ltac:(done)).
Qed.

Lemma loadDistances_row_written row g :
  distance_row_ok row →
  loadDistances_row (distance_row row) g = Some (add_distance g row).
Proof.
  destruct row as [[[loc1Code loc2Code] driving] walking].
  intros (H1 & _ & H2 & _ & Hne1 & Hne2 & Hd & Hw).
  unfold loadDistances_row, distance_row, add_distance.
  change ("," +:+ loc2Code +:+ ?x) with (String "," (loc2Code +:+ x)).
  rewrite getline_field by done. cbv beta iota zeta.
  change ("," +:+ from_option pretty "X" driving +:+ ?x)
    with (String "," (from_option pretty "X" driving +:+ x)).
  rewrite getline_field by done. cbv beta iota zeta.
  change ("," +:+ ?x) with (String "," x).
  rewrite getline_field; last first.
  { destruct driving; [by apply has_char_pretty|done]. }
  cbv beta iota zeta.
  rewrite getline_rest by (by apply has_char_pretty). cbv beta iota zeta.
  rewrite (bool_decide_eq_false_2 (loc1Code = EmptyString)) by done.
  rewrite (bool_decide_eq_false_2 (loc2Code = EmptyString)) by done.
  simpl orb. cbv iota.
  destruct (findLocationByCode g loc1Code) as [[i1 p1]|]; [|done].
  destruct (findLocationByCode g loc2Code) as [[i2 p2]|]; [|done].
  rewrite stoi_pretty by done. simpl fmap.
  destruct driving as [z|]; simpl from_option; simpl default.
  - rewrite bool_decide_eq_false_2 by apply pretty_not_X.
    by rewrite stoi_pretty.
  - done.
Qed.

Lemma has_char_distance_row row :
  distance_row_ok row → has_char "010" (distance_row row) = false.
Proof.
  destruct row as [[[loc1Code loc2Code] driving] walking].
  intros (_ & H1 & _ & H2 & _). unfold distance_row.
  rewrite !has_char_app, H1, H2, (has_char_pretty _ walking) by done.
  destruct driving; simpl; [by rewrite has_char_pretty|done].
Qed.

(** X28: the distances file.  A file with a header line and one line
    [code,code,driving,walking] per road loads, line by line in the order of
    the file, one road in both directions between the locations that have
    the two codes; [X] as driving time gives the road the driving time INF;
    a line that names a code that no location has changes nothing. *)
Theorem loadDistances_reads_rows header rows g :
  has_char "010" header = false →
  Forall distance_row_ok rows →
  loadDistances (Some (header +:+ newline +:+ file_rows (distance_row <$> rows))) g
  = Some (foldl add_distance g rows).
Proof.
  intros Hheader Hrows. unfold loadDistances. rewrite newline_app.
  rewrite getline_field by done. cbv beta iota zeta.
  rewrite while_getline_rows; last first.
  { unfold getline_fuel. rewrite string_length_app. simpl.
    pose proof (file_rows_length (distance_row <$> rows)). lia. }
  { apply Forall_fmap. eapply Forall_impl; [exact Hrows|].
    intros row. apply has_char_distance_row. }
  clear Hheader. revert g.
  induction Hrows as [|row rows Hrow Hrows IH]; intros g; [done|].
  rewrite !fmap_cons. cbn [foldl].
  rewrite loadDistances_row_written by done. apply IH.
Qed.

Lemma loadDistances_reads_rows_witness :
  loadDistances
    (Some ("Location1,Location2,Driving,Walking" +:+ newline +:+
           file_rows (distance_row <$> [("A", "B", Some 5, 20);
                                        ("B", "C", None, 3);
                                        ("B", "Z", Some 1, 1)])))
    (addLocation (addLocation (addLocation [] 1 "A" false) 2 "B" true) 3 "C" false)
  = Some (foldl add_distance
            (addLocation (addLocation (addLocation [] 1 "A" false) 2 "B" true)
               3 "C" false)
            [("A", "B", Some 5, 20); ("B", "C", None, 3); ("B", "Z", Some 1, 1)]).
Proof.
  apply loadDistances_reads_rows; [done|].
  repeat first [apply Forall_nil_2 | apply Forall_cons_2];
    unfold distance_row_ok, is_int; simpl; split_and!; (done || lia).
Defined.

(** ** From the two files to a well-formed network *)

Lemma roads_added_identity g g' :
  roads_added g g' → identity <$> g' = identity <$> g.
Proof.
  induction 1 as [|l l' g g' [extra ->] Hadd IH]; [done|].
  rewrite !fmap_cons. by f_equal.
Qed.

Lemma roads_added_ids g g' : roads_added g g' → getId <$> g' = getId <$> g.
Proof.
  intros Hadd. apply roads_added_identity in Hadd.
  apply (f_equal (fmap (λ x : Z * string * bool, x.1.1))) in Hadd.
  by rewrite <- !list_fmap_compose in Hadd.
Qed.

Lemma add_distance_well_formed W g0 g row :
  distance_row_ok row → costs_within W row →
  roads_added g0 g ∧ roads_in_place g ∧ road_costs_within W g →
  roads_added g0 (add_distance g row) ∧ roads_in_place (add_distance g row)
  ∧ road_costs_within W (add_distance g row).
Proof.
  destruct row as [[[loc1Code loc2Code] driving] walking].
  intros _ [Hd Hw] (Hadd & Hplace & Hcosts). simpl in Hd, Hw.
  unfold add_distance.
  destruct (findLocationByCode g loc1Code) as [[f l1]|] eqn:H1; [|done].
  destruct (findLocationByCode g loc2Code) as [[t l2]|] eqn:H2; [|done].
  simpl fmap. split_and!.
  - eapply roads_added_trans; [exact Hadd|apply addRoad_roads_added].
  - apply addRoad_roads_in_place; [done|..]; intros ? [= <-];
      eapply findLocationByCode_lt; [by rewrite H1|by rewrite H2].
  - intros i l r Hl Hr. rewrite addRoad_lookup in Hl.
    destruct (g !! i) as [l0|] eqn:Hl0; [|done]. simpl in Hl.
    injection Hl as <-. simpl in Hr.
    assert (default INF driving = INF ∨ 0 ≤ default INF driving ≤ W) as Hdrive.
    { destruct driving; [by right|by left]. }
    rewrite !elem_of_app in Hr. destruct Hr as [Hr|[Hr|Hr]].
    + by eapply Hcosts.
    + case_decide; [|by apply elem_of_nil in Hr].
      apply list_elem_of_singleton in Hr. by subst.
    + case_decide; [|by apply elem_of_nil in Hr].
      apply list_elem_of_singleton in Hr. by subst.
Qed.

Lemma foldl_add_distance_well_formed W g0 rows :
  ∀ g,
    Forall distance_row_ok rows → Forall (costs_within W) rows →
    roads_added g0 g ∧ roads_in_place g ∧ road_costs_within W g →
    roads_added g0 (foldl add_distance g rows)
    ∧ roads_in_place (foldl add_distance g rows)
    ∧ road_costs_within W (foldl add_distance g rows).
Proof.
  induction rows as [|row rows IH]; intros g Hrows Hcosts Hg; [done|].
  apply Forall_cons in Hrows as [Hrow Hrows].
  apply Forall_cons in Hcosts as [Hcost Hcosts].
  simpl. apply IH; [done..|]. by apply add_distance_well_formed.
Qed.

Lemma well_formed_network_ok isDriving W g :
  NoDup (getId <$> g) → roads_in_place g → road_costs_within W g →
  0 ≤ W → Z.of_nat (length g) * W < INF →
  network_ok isDriving W g.
Proof.
  intros Hids Hplace Hcosts HW Hrange. split_and!; [done| |done|done].
  apply Forall2_same_length_lookup_2; [by rewrite length_seq|].
  intros i j l Hj Hl. apply lookup_seq in Hj as [-> _]. simpl.
  apply Forall_forall. intros r Hr.
  destruct (Hplace _ _ _ Hl Hr) as [Ho Hdest].
  destruct (Hcosts _ _ _ Hl Hr) as [Hdrive Hwalk].
  split_and!; [done|done|].
  destruct isDriving; simpl; [done|by right].
Qed.

(** X29: files that give a well-formed network.  When the locations file
    lists each identifier once and every time in the distances file is [X]
    or lies between 0 and a bound [W] that the number of locations times [W]
    keeps below INF, [loadData] returns, and the network it builds from the
    empty graph is well-formed for driving and for walking, which is what
    the properties of the searches above assume. *)
Theorem loadData_well_formed W lheader dheader locations distances :
  has_char "010" lheader = false → has_char "010" dheader = false →
  Forall location_row_ok locations → Forall distance_row_ok distances →
  NoDup ((λ row, row.1.1.2) <$> locations) →
  Forall (costs_within W) distances →
  0 ≤ W → Z.of_nat (length locations) * W < INF →
  ∃ g,
    loadData
      (Some (lheader +:+ newline +:+ file_rows (location_row <$> locations)))
      (Some (dheader +:+ newline +:+ file_rows (distance_row <$> distances))) []
    = Some g
    ∧ network_ok true W g ∧ network_ok false W g.
Proof.
  intros Hlh Hdh Hlocs Hdists Hids Hcosts HW Hrange.
  unfold loadData.
  rewrite loadLocations_reads_rows, loadDistances_reads_rows by done.
  rewrite app_nil_l. set (g0 := location_of <$> locations).
  eexists. split; [done|].
  assert (roads_added g0 (foldl add_distance g0 distances)
          ∧ roads_in_place (foldl add_distance g0 distances)
          ∧ road_costs_within W (foldl add_distance g0 distances))
    as (Hadd & Hplace & Hroads).
  { assert (roads_added g0 g0 ∧ roads_in_place g0 ∧ road_costs_within W g0) as H0.
    { assert (∀ i l, g0 !! i = Some l → getAdj l = []) as Hempty.
      { intros i l Hl. unfold g0 in Hl. rewrite list_lookup_fmap in Hl.
        destruct (locations !! i) as [[[[??]?]?]|]; by simplify_eq/=. }
      split_and!; [apply roads_added_refl|..]; intros i l r Hl Hr;
        rewrite (Hempty _ _ Hl) in Hr; by apply elem_of_nil in Hr. }
    by apply foldl_add_distance_well_formed. }
  assert (NoDup (getId <$> foldl add_distance g0 distances)) as Hnd.
  { rewrite (roads_added_ids _ _ Hadd). unfold g0.
    rewrite <- list_fmap_compose.
    erewrite list_fmap_ext; [exact Hids|]. by intros ? [[[??]?]?] _. }
  assert (length (foldl add_distance g0 distances) = length locations) as Hlen.
  { rewrite <- (Forall2_length _ _ _ Hadd). unfold g0. by rewrite length_fmap. }
  split; apply well_formed_network_ok; try done; by rewrite Hlen.
Qed.

Lemma loadData_well_formed_witness :
  ∃ g,
    loadData
      (Some ("Location,Id,Code,Parking" +:+ newline +:+
             file_rows (location_row <$> [("Alameda", 1, "A", false);
                                          ("Bolsa", 2, "B", true);
                                          ("Carmo", 3, "C", false)])))
      (Some ("Location1,Location2,Driving,Walking" +:+ newline +:+
             file_rows (distance_row <$> [("A", "B", Some 5, 20);
                                          ("B", "C", None, 3)]))) []
    = Some g
    ∧ network_ok true 20 g ∧ network_ok false 20 g.
Proof.
  apply (loadData_well_formed 20); try done.
  - repeat first [apply Forall_nil_2 | apply Forall_cons_2];
      unfold location_row_ok, is_int; simpl; split_and!; (done || lia).
  - repeat first [apply Forall_nil_2 | apply Forall_cons_2];
      unfold distance_row_ok, is_int; simpl; split_and!; (done || lia).
  - simpl. repeat constructor; set_solver.
  - repeat first [apply Forall_nil_2 | apply Forall_cons_2];
      unfold costs_within; simpl; split_and!; (done || lia).
Defined.
